(** * vite-plugin-token-shaker: a shallow embedding of the analysis and
      rewrite engine, and the properties of it that the specification states.

    The engine works on JavaScript strings with regular expressions.  A string
    is modelled as the list of its UTF-16 code units, a regular expression as
    a term of a small syntax interpreted by a backtracking matcher that
    follows the ECMAScript semantics of the constructs the plugin uses, and
    the token registry (a JavaScript [Map], iterated in insertion order) as an
    association list.  Offsets, lengths and counts are natural numbers.  The
    two recursive functions of the source, [resolveVariableValue] and
    [countVariableUsage], take fuel for the depth of their recursion; they
    are shown to return with the fuel that the model gives them.  Logging
    has no part in what the pass returns and is left out; the summary line
    that is logged is [getStats]. *)

From Stdlib Require Import String Ascii.
From Stdlib Require Import List NArith Arith Lia Bool Sorted.
Import ListNotations.

Open Scope string_scope.
Open Scope list_scope.
Open Scope nat_scope.

(** ** Strings *)

(** A string literal denotes the list of its code units. *)
Definition lit (s : string) : list N :=
  map N_of_ascii (list_ascii_of_string s).
Coercion lit : string >-> list.

Definition str := list N.

Definition str_eqb (a b : str) : bool :=
  if list_eq_dec N.eq_dec a b then true else false.

(** [s.slice(a, b)] and [s.slice(a)] for indices that are not negative. *)
Definition slice (s : str) (a b : nat) : str := firstn (b - a) (skipn a s).
Definition sliceFrom (s : str) (a : nat) : str := skipn a s.

(** [" ".repeat(n)] *)
Definition spaces (n : nat) : str := repeat 32%N n.

(** [parts.join(sep)] *)
Fixpoint join (sep : str) (parts : list str) : str :=
  match parts with
  | [] => []
  | [p] => p
  | p :: rest => p ++ sep ++ join sep rest
  end.

(** Code units in a closed range. *)
Definition between (lo hi c : N) : bool := ((lo <=? c) && (c <=? hi))%N.

(** The class [\s]: the WhiteSpace and LineTerminator code units. *)
Definition isSpace (c : N) : bool :=
  between 9 13 c || (c =? 32)%N || (c =? 160)%N || (c =? 5760)%N
  || between 8192 8202 c || (c =? 8232)%N || (c =? 8233)%N
  || (c =? 8239)%N || (c =? 8287)%N || (c =? 12288)%N || (c =? 65279)%N.

(** The class [\w]: [A-Za-z0-9_]. *)
Definition isWord (c : N) : bool :=
  between 65 90 c || between 97 122 c || between 48 57 c || (c =? 95)%N.

(** [s.trim()] *)
Fixpoint trimStart (s : str) : str :=
  match s with
  | c :: s' => if isSpace c then trimStart s' else s
  | [] => []
  end.
Definition trim (s : str) : str := rev (trimStart (rev (trimStart s))).

(** [n.toString(36)] *)
Definition digit36 (d : nat) : N :=
  if d <? 10 then N.of_nat (48 + d) else N.of_nat (87 + d).
Fixpoint toString36_aux (fuel n : nat) (acc : str) : str :=
  match fuel with
  | 0 => acc
  | S fuel' =>
      let acc' := digit36 (n mod 36) :: acc in
      if n / 36 =? 0 then acc' else toString36_aux fuel' (n / 36) acc'
  end.
Definition toString36 (n : nat) : str := toString36_aux (S n) n [].

(** [String(n)], as a template literal prints a count. *)
Fixpoint toString10_aux (fuel n : nat) (acc : str) : str :=
  match fuel with
  | 0 => acc
  | S fuel' =>
      let acc' := N.of_nat (48 + n mod 10) :: acc in
      if n / 10 =? 0 then acc' else toString10_aux fuel' (n / 10) acc'
  end.
Definition toString10 (n : nat) : str := toString10_aux (S n) n [].

(** ** Regular expressions *)

(** The constructs that occur in the plugin's patterns.  Quantifiers are only
    ever applied to a character class there, and are greedy. *)
Inductive regex : Type :=
| Chars (s : str)                 (* literal text *)
| Star (p : N -> bool)            (* [p*] *)
| Plus (p : N -> bool)            (* [p+] *)
| Seq (r1 r2 : regex)
| Opt (r : regex)                 (* [(?:r)?] *)
| Group (i : nat) (r : regex)     (* capture group number [i] *)
| Bol                             (* [^] *)
| Eol.                            (* [$] *)

Declare Scope regex_scope.
Delimit Scope regex_scope with re.
Bind Scope regex_scope with regex.
Infix ";;" := Seq (at level 61, right associativity) : regex_scope.

(** Captures: group number to captured text; an absent group is [undefined]. *)
Definition captures := list (nat * str).

Fixpoint capture (i : nat) (c : captures) : option str :=
  match c with
  | [] => None
  | (j, s) :: c' => if i =? j then Some s else capture i c'
  end.

(** A match: where it starts, the matched text, and the captures. *)
Record Match : Type := mkMatch {
  index : nat;
  text : str;
  groups : captures
}.

Fixpoint isPrefix (p s : str) : bool :=
  match p, s with
  | [], _ => true
  | a :: p', b :: s' => (a =? b)%N && isPrefix p' s'
  | _ :: _, [] => false
  end.

Section Matcher.
Variable R : Type.

(** Greedy iteration of a class: the longest run first, then shorter ones. *)
Fixpoint star (p : N -> bool) (pos : nat) (s : str)
    (k : nat -> str -> option R) : option R :=
  match s with
  | c :: s' =>
      if p c then
        match star p (S pos) s' k with
        | Some r => Some r
        | None => k pos s
        end
      else k pos s
  | [] => k pos s
  end.

(** [run r pos s caps k]: match [r] against [s], the input from offset
    [pos] on, and pass what is left to the continuation [k]; [None] is
    failure, which makes the caller backtrack. *)
Fixpoint run (r : regex) (pos : nat) (s : str) (caps : captures)
    (k : nat -> str -> captures -> option R) : option R :=
  match r with
  | Chars l =>
      if isPrefix l s then k (pos + length l) (skipn (length l) s) caps
      else None
  | Star p => star p pos s (fun pos' s' => k pos' s' caps)
  | Plus p =>
      match s with
      | c :: s' =>
          if p c then star p (S pos) s' (fun pos' s' => k pos' s' caps)
          else None
      | [] => None
      end
  | Seq r1 r2 =>
      run r1 pos s caps (fun pos1 s1 caps1 => run r2 pos1 s1 caps1 k)
  | Opt r1 =>
      match run r1 pos s caps k with
      | Some x => Some x
      | None => k pos s caps
      end
  | Group i r1 =>
      run r1 pos s caps
        (fun pos' s' caps' => k pos' s' ((i, firstn (pos' - pos) s) :: caps'))
  | Bol => if pos =? 0 then k pos s caps else None
  | Eol => match s with [] => k pos s caps | _ :: _ => None end
  end.
End Matcher.

Arguments star {R}.
Arguments run {R}.

(** A match of [r] that starts exactly at offset [pos]. *)
Definition matchAt (r : regex) (pos : nat) (s : str) : option Match :=
  run r pos s []
    (fun pos' _ caps => Some (mkMatch pos (firstn (pos' - pos) s) caps)).

(** [regex.exec]: the leftmost match at or after [pos]. *)
Fixpoint search (r : regex) (pos : nat) (s : str) : option Match :=
  match matchAt r pos s with
  | Some m => Some m
  | None =>
      match s with
      | [] => None
      | _ :: s' => search r (S pos) s'
      end
  end.

(** [regex.test(s)] for a pattern whose [lastIndex] is 0. *)
Definition test (r : regex) (s : str) : bool :=
  match search r 0 s with Some _ => true | None => false end.

(** [s.matchAll(regex)] for a global pattern: successive leftmost matches,
    each search resuming where the previous match ended (one code unit later
    after an empty match).  [skip] counts the offsets still covered by the
    previous match. *)
Fixpoint matchAllFrom (r : regex) (pos : nat) (s : str) (skip : nat)
    : list Match :=
  match skip, s with
  | S skip', _ :: s' => matchAllFrom r (S pos) s' skip'
  | S _, [] => []
  | 0, [] =>
      match matchAt r pos s with
      | Some m => [m]
      | None => []
      end
  | 0, _ :: s' =>
      match matchAt r pos s with
      | Some m => m :: matchAllFrom r (S pos) s' (length (text m) - 1)
      | None => matchAllFrom r (S pos) s' 0
      end
  end.

Definition matchAll (r : regex) (s : str) : list Match :=
  matchAllFrom r 0 s 0.

(** [s.replace(regex, callback)] for a global pattern, split in two: the
    matches, each paired with the text the callback returns for it, are
    spliced into [s], the input from offset [pos] on. *)
Fixpoint splice (s : str) (pos : nat) (subst : list (Match * str)) : str :=
  match subst with
  | [] => s
  | (m, new) :: rest =>
      firstn (index m - pos) s ++ new ++
      splice (skipn (index m - pos + length (text m)) s)
             (index m + length (text m)) rest
  end.

Definition replace (r : regex) (s : str) (callback : Match -> str) : str :=
  splice s 0 (map (fun m => (m, callback m)) (matchAll r s)).

(** The same with a callback that may fail; the first failure is the result. *)
Fixpoint mapM {A B : Type} (f : A -> option B) (l : list A)
    : option (list B) :=
  match l with
  | [] => Some []
  | a :: l' =>
      match f a with
      | Some b =>
          match mapM f l' with
          | Some bs => Some (b :: bs)
          | None => None
          end
      | None => None
      end
  end.

Definition replaceM (r : regex) (s : str) (callback : Match -> option str)
    : option str :=
  let ms := matchAll r s in
  match mapM callback ms with
  | Some news => Some (splice s 0 (combine ms news))
  | None => None
  end.

(** ** Constants *)

Definition isWordOrDash (c : N) : bool := isWord c || (c =? 45)%N.
Definition notParen (c : N) : bool := negb (c =? 41)%N.
Definition notSemiOrBrace (c : N) : bool :=
  negb ((c =? 59)%N || (c =? 123)%N || (c =? 125)%N).

(** [/var\(\s*(--[\w-]+)(?:\s*,\s*([^)]+))?\s*\)/g] *)
Definition VAR_REF_REGEX : regex :=
  (Chars "var(" ;; Star isSpace ;;
   Group 1 (Chars "--" ;; Plus isWordOrDash) ;;
   Opt (Star isSpace ;; Chars "," ;; Star isSpace ;; Group 2 (Plus notParen)) ;;
   Star isSpace ;; Chars ")")%re.

(** [/(--[\w-]+)\s*:\s*([^;{}]+);?/g] *)
Definition VAR_DEF_REGEX : regex :=
  (Group 1 (Chars "--" ;; Plus isWordOrDash) ;;
   Star isSpace ;; Chars ":" ;; Star isSpace ;;
   Group 2 (Plus notSemiOrBrace) ;; Opt (Chars ";"))%re.

(** [/@layer\s+tokens\s*\{/g] *)
Definition LAYER_TOKENS_REGEX : regex :=
  (Chars "@layer" ;; Plus isSpace ;; Chars "tokens" ;; Star isSpace ;;
   Chars "{")%re.

(** [/^\s*var\(\s*--[\w-]+\s*(?:,\s*[^)]+)?\)\s*$/] *)
Definition VAR_ONLY_REGEX : regex :=
  (Bol ;; Star isSpace ;; Chars "var(" ;; Star isSpace ;;
   Chars "--" ;; Plus isWordOrDash ;; Star isSpace ;;
   Opt (Chars "," ;; Star isSpace ;; Plus notParen) ;;
   Chars ")" ;; Star isSpace ;; Eol)%re.

(** The text of a capture group that took part in the match. *)
Definition group (i : nat) (m : Match) : str :=
  match capture i (groups m) with Some s => s | None => [] end.

(** JavaScript truthiness of an optional boolean; an optional string is truthy
    when it is present and not empty, written [Some (_ :: _)] below. *)
Definition truthyB (o : option bool) : bool :=
  match o with
  | Some b => b
  | None => false
  end.

(** ** Types *)

Record Token : Type := mkToken {
  value : str;
  usageCount : nat;
  setElsewhere : bool;
  mangledName : option str;
  isAlias : option bool;
  emitDeclaration : bool
}.

Record LayerSpan : Type := mkLayerSpan {
  start : nat;
  end_ : nat;
  content : str
}.

(** ** The registry: a [Map<string, Token>] in insertion order *)

Definition Registry := list (str * Token).

Fixpoint get {V : Type} (m : list (str * V)) (k : str) : option V :=
  match m with
  | [] => None
  | (k', v) :: m' => if str_eqb k k' then Some v else get m' k
  end.

Definition has {V : Type} (m : list (str * V)) (k : str) : bool :=
  match get m k with Some _ => true | None => false end.

(** [m.set(k, v)]: a new key goes last, a known key keeps its place. *)
Fixpoint set {V : Type} (m : list (str * V)) (k : str) (v : V)
    : list (str * V) :=
  match m with
  | [] => [(k, v)]
  | (k', v') :: m' =>
      if str_eqb k k' then (k, v) :: m' else (k', v') :: set m' k v
  end.

(** A write to a field of the object stored under [k]. *)
Fixpoint modify {V : Type} (m : list (str * V)) (k : str) (f : V -> V)
    : list (str * V) :=
  match m with
  | [] => []
  | (k', v) :: m' =>
      if str_eqb k k' then (k', f v) :: m' else (k', v) :: modify m' k f
  end.

(** [registry.get(name)!] for a name that was read from the registry. *)
Definition noToken : Token := mkToken [] 0 false None None false.
Definition getToken (registry : Registry) (k : str) : Token :=
  match get registry k with Some v => v | None => noToken end.

Definition withUsageCount (n : nat) (t : Token) : Token :=
  mkToken (value t) n (setElsewhere t) (mangledName t) (isAlias t)
          (emitDeclaration t).
Definition withSetElsewhere (b : bool) (t : Token) : Token :=
  mkToken (value t) (usageCount t) b (mangledName t) (isAlias t)
          (emitDeclaration t).
Definition withIsAlias (a : option bool) (t : Token) : Token :=
  mkToken (value t) (usageCount t) (setElsewhere t) (mangledName t) a
          (emitDeclaration t).
Definition withMangling (n : option str) (e : bool) (t : Token) : Token :=
  mkToken (value t) (usageCount t) (setElsewhere t) n (isAlias t) e.

(** ** Utility functions *)

(** The loop of [findMatchingBrace]: [s] is [code] from offset [i] on and
    [len] is [code.length]. *)
Fixpoint findMatchingBrace_loop (len : nat) (s : str) (i depth : nat) : nat :=
  match s with
  | [] => len
  | c :: s' =>
      let depth' :=
        if (c =? 123)%N then S depth
        else if (c =? 125)%N then depth - 1
        else depth in
      if depth' =? 0 then i else findMatchingBrace_loop len s' (S i) depth'
  end.

Definition findMatchingBrace (code : str) (start : nat) : nat :=
  findMatchingBrace_loop (length code) (skipn start code) start 1.

(** [escapeRegex]: a backslash in front of every code unit of the class
    [[.*+?^${}()|[\]\\]]. *)
Definition isRegexSpecial (c : N) : bool :=
  existsb (N.eqb c)
          [46; 42; 43; 63; 94; 36; 123; 125; 40; 41; 124; 91; 93; 92]%N.

Definition escapeRegex (s : str) : str :=
  flat_map (fun c => if isRegexSpecial c then [92%N; c] else [c]) s.

Definition findTokensLayers (code : str) : list LayerSpan :=
  map (fun m =>
         let startIdx := index m in
         let contentStart := startIdx + length (text m) in
         let contentEnd := findMatchingBrace code contentStart in
         mkLayerSpan startIdx (contentEnd + 1)
                     (slice code contentStart contentEnd))
      (matchAll LAYER_TOKENS_REGEX code).

(** ** Variable registry operations *)

Definition extractTokensVariables (code : str) (registry : Registry)
    : Registry :=
  fold_left
    (fun registry layer =>
       fold_left
         (fun registry m =>
            let varName := group 1 m in
            let varValue := trim (group 2 m) in
            let isAlias' := test VAR_ONLY_REGEX varValue in
            if negb (has registry varName) then
              set registry varName
                  (mkToken varValue 0 false None (Some isAlias') false)
            else
              modify registry varName
                (fun v =>
                   match isAlias v with
                   | None => withIsAlias (Some isAlias') v
                   | Some _ => v
                   end))
         (matchAll VAR_DEF_REGEX (content layer)) registry)
    (findTokensLayers code) registry.

(** The first loop of [markVariablesSetElsewhere]: the text with the tokens
    layers blanked out. *)
Definition blankTokensLayers (code : str) : str :=
  fold_left
    (fun codeWithoutTokens layer =>
       slice codeWithoutTokens 0 (start layer) ++
       spaces (end_ layer - start layer) ++
       sliceFrom codeWithoutTokens (end_ layer))
    (findTokensLayers code) code.

(** [new RegExp(`${escapeRegex(varName)}\\s*:`, "g")]: the escaped name
    matches the name itself. *)
Definition setRegex (varName : str) : regex :=
  (Chars varName ;; Star isSpace ;; Chars ":")%re.

Definition markVariablesSetElsewhere (code : str) (registry : Registry)
    : Registry :=
  let codeWithoutTokens := blankTokensLayers code in
  map (fun '(varName, variable) =>
         (varName,
          if test (setRegex varName) codeWithoutTokens
          then withSetElsewhere true variable
          else variable))
      registry.

(** A loop whose body may fail. *)
Fixpoint foldM {A S : Type} (f : S -> A -> option S) (l : list A) (s : S)
    : option S :=
  match l with
  | [] => Some s
  | a :: l' =>
      match f s a with
      | Some s' => foldM f l' s'
      | None => None
      end
  end.

(** The body of the loop of [countVariableUsage], for one match of
    [VAR_REF_REGEX]; [recurse] is the recursive call.  The state is the
    registry (for the counts) and the [visited] set. *)
Definition countStep
    (recurse : str -> Registry * list str -> option (Registry * list str))
    (st : Registry * list str) (m : Match) : option (Registry * list str) :=
  let '(registry, visited) := st in
  let varName := group 1 m in
  match get registry varName with
  | Some variable =>
      let registry :=
        modify registry varName
               (fun v => withUsageCount (S (usageCount v)) v) in
      if negb (existsb (str_eqb varName) visited) then
        recurse (value variable) (registry, varName :: visited)
      else Some (registry, visited)
  | None => Some (registry, visited)
  end.

(** [countVariableUsage] recurses through the values of the variables it
    meets; [fuel] bounds the depth of that recursion and [None] means that
    the bound was hit. *)
Fixpoint countVariableUsage (fuel : nat) (code : str)
    (st : Registry * list str) : option (Registry * list str) :=
  match fuel with
  | 0 => None
  | S fuel' =>
      foldM (countStep (countVariableUsage fuel'))
            (matchAll VAR_REF_REGEX code) st
  end.

(** The call [countVariableUsage(code, registry)] of the orchestrator, with
    a fresh [visited] set; the fuel given is always enough
    ([countUsage_enough]). *)
Definition countUsage (code : str) (registry : Registry) : Registry :=
  match countVariableUsage (S (length registry)) code (registry, []) with
  | Some (registry', _) => registry'
  | None => registry
  end.

Definition resetUsageCounts (registry : Registry) : Registry :=
  map (fun '(varName, variable) =>
         (varName, withMangling None false (withUsageCount 0 variable)))
      registry.

(** ** Value resolution *)

Definition varExpr (varName : str) : str := "var(" ++ varName ++ ")".

(** [resolveVariableValue] with the depth of the JavaScript call stack made
    explicit as [fuel]; [None] means that the fuel ran out. *)
Fixpoint resolveVariableValue_fuel (fuel : nat) (varName : str)
    (registry : Registry) (depth : nat) : option str :=
  match fuel with
  | 0 => None
  | S fuel' =>
      if 10 <? depth then Some (varExpr varName)
      else
        match get registry varName with
        | None => Some (varExpr varName)
        | Some variable =>
            replaceM VAR_REF_REGEX (value variable)
              (fun m =>
                 resolveVariableValue_fuel fuel' (group 1 m) registry
                                           (depth + 1))
        end
  end.

(** [resolveVariableValue(varName, registry, depth)]; the fuel given is
    always enough ([resolveVariableValue_fuel_enough]).  The callers outside
    the function leave [depth] to its default, 0. *)
Definition resolveVariableValue (varName : str) (registry : Registry)
    (depth : nat) : str :=
  match resolveVariableValue_fuel (S (11 - depth)) varName registry depth with
  | Some s => s
  | None => []
  end.

(** ** Mangling logic *)

(** The first loop of [generateMangledNames]: the used variables grouped by
    resolved value, groups and members in the order they were met. *)
Definition groupByValue (registry : Registry) : list (str * list str) :=
  fold_left
    (fun valueToVars '(varName, variable) =>
       if usageCount variable =? 0 then valueToVars
       else
         let resolvedValue := resolveVariableValue varName registry 0 in
         match get valueToVars resolvedValue with
         | Some vars =>
             modify valueToVars resolvedValue (fun vars => vars ++ [varName])
         | None => set valueToVars resolvedValue [varName]
         end)
    registry [].

Definition canonicalVarName (registry : Registry) (varNames : list str)
    : str :=
  match find (fun v => negb (truthyB (isAlias (getToken registry v))))
             varNames with
  | Some v => v
  | None => hd [] varNames
  end.

Definition totalUsage (registry : Registry) (varNames : list str) : nat :=
  fold_left (fun totalUsage vName =>
               totalUsage + usageCount (getToken registry vName))
            varNames 0.

(** The byte cost model. *)
Definition declarationCost (mangledName : str) (valueLen : nat) : nat :=
  length mangledName + 2 + valueLen + 1.
Definition referenceCost (mangledName : str) : nat :=
  5 + length mangledName + 1.
Definition mangleCost (mangledName : str) (valueLen totalUsage : nat) : nat :=
  declarationCost mangledName valueLen + totalUsage * referenceCost mangledName.
Definition inlineCost (valueLen totalUsage : nat) : nat :=
  totalUsage * valueLen.
Definition shouldMangle (mangledName : str) (valueLen totalUsage : nat)
    : bool :=
  mangleCost mangledName valueLen totalUsage <? inlineCost valueLen totalUsage.

Definition mangledNameFor (manglePrefix : str) (counter : nat) : str :=
  manglePrefix ++ toString36 counter.

(** The body of the second loop of [generateMangledNames], for one group. *)
Definition decideGroup (manglePrefix : str) (st : Registry * nat)
    (g : str * list str) : Registry * nat :=
  let '(registry, counter) := st in
  let '(resolvedValue, varNames) := g in
  let canonical := canonicalVarName registry varNames in
  let total := totalUsage registry varNames in
  let mangledName := mangledNameFor manglePrefix counter in
  let valueLen := length resolvedValue in
  if shouldMangle mangledName valueLen total then
    (fold_left
       (fun registry vName =>
          modify registry vName
                 (withMangling (Some mangledName) (str_eqb vName canonical)))
       varNames registry,
     S counter)
  else
    (fold_left
       (fun registry vName => modify registry vName (withMangling None false))
       varNames registry,
     counter).

Definition generateMangledNames (registry : Registry) (manglePrefix : str)
    : Registry * nat :=
  fold_left (decideGroup manglePrefix) (groupByValue registry) (registry, 0).

(** ** Code transformation *)

(** The body of the declarations loop of [transformCode], for one match of
    [VAR_DEF_REGEX]; the state is [declarations] and [emittedValues]. *)
Definition declarationStep (registry : Registry)
    (st : list str * list str) (m : Match) : list str * list str :=
  let '(declarations, emittedValues) := st in
  let varName := group 1 m in
  let varValue := group 2 m in
  match get registry varName with
  | None => st
  | Some variable =>
      if usageCount variable =? 0 then st
      else if setElsewhere variable then
        (declarations ++ [varName ++ ": " ++ varValue], emittedValues)
      else
        match mangledName variable with
        | Some ((_ :: _) as mangled) =>
            let resolvedValue := resolveVariableValue varName registry 0 in
            if emitDeclaration variable && negb (truthyB (isAlias variable))
            then
              if negb (existsb (str_eqb resolvedValue) emittedValues) then
                (declarations ++ [mangled ++ ": " ++ resolvedValue],
                 resolvedValue :: emittedValues)
              else st
            else st
        | _ => st
        end
  end.

Definition layerDeclarations (registry : Registry) (layer : LayerSpan)
    (emittedValues : list str) : list str * list str :=
  fold_left (declarationStep registry)
            (matchAll VAR_DEF_REGEX (content layer)) ([], emittedValues).

Definition newContent (declarations : list str) : str :=
  match declarations with
  | [] => []
  | _ :: _ => "@layer tokens{:root{" ++ join ";" declarations ++ "}}"
  end.

(** The first pass of [transformCode]: every tokens layer, last to first,
    replaced by its surviving declarations. *)
Definition rewriteLayers (code : str) (registry : Registry) : str :=
  fst (fold_left
         (fun '(result, emittedValues) layer =>
            let '(declarations, emittedValues') :=
              layerDeclarations registry layer emittedValues in
            (slice result 0 (start layer) ++ newContent declarations ++
             sliceFrom result (end_ layer),
             emittedValues'))
         (rev (findTokensLayers code)) (code, [])).

(** The callback of the second pass of [transformCode]. *)
Definition rewriteReference (registry : Registry) (m : Match) : str :=
  let original := text m in
  let varName := group 1 m in
  let fallback := capture 2 (groups m) in
  match get registry varName with
  | None => original
  | Some variable =>
      match mangledName variable with
      | Some ((_ :: _) as mangled) =>
          "var(" ++ mangled ++
          (match fallback with
           | Some ((_ :: _) as f) => ", " ++ f
           | _ => []
           end) ++ ")"
      | _ =>
          if negb (setElsewhere variable)
          then resolveVariableValue varName registry 0
          else original
      end
  end.

Definition transformCode (code : str) (registry : Registry) : str :=
  replace VAR_REF_REGEX (rewriteLayers code registry)
          (rewriteReference registry).

(** ** Analysis summary *)

(** The four counters of [getStats]. *)
Record Routes : Type := mkRoutes {
  drop : nat;
  inline : nat;
  mangle : nat;
  keep : nat
}.

(** The body of the loop of [getStats], for one token. *)
Definition routeStep (st : Routes) (variable : Token) : Routes :=
  if usageCount variable =? 0 then
    mkRoutes (S (drop st)) (inline st) (mangle st) (keep st)
  else if setElsewhere variable then
    mkRoutes (drop st) (inline st) (mangle st) (S (keep st))
  else
    match mangledName variable with
    | Some (_ :: _) =>
        mkRoutes (drop st) (inline st) (S (mangle st)) (keep st)
    | _ => mkRoutes (drop st) (S (inline st)) (mangle st) (keep st)
    end.

Definition countRoutes (registry : Registry) : Routes :=
  fold_left routeStep (map snd registry) (mkRoutes 0 0 0 0).

Definition getStats (registry : Registry) (mangledCount : nat) : str :=
  let st := countRoutes registry in
  "Analysis: " ++ toString10 (drop st) ++ " drop, " ++
  toString10 (inline st) ++ " inline, " ++
  toString10 (mangle st) ++ " mangle (" ++ toString10 mangledCount ++
  " unique values), " ++ toString10 (keep st) ++ " keep".

(** ** Plugin *)

(** An entry of the output bundle: an asset with its source, or a chunk. *)
Inductive Output : Type :=
| Asset (source : str)
| Chunk.

Definition Bundle := list (str * Output).

(** [name.endsWith(suffix)] *)
Definition endsWith (name suffix : str) : bool :=
  isPrefix (rev suffix) (rev name).

Definition cssAssets (bundle : Bundle) : list (str * str) :=
  flat_map (fun '(name, out) =>
              match out with
              | Asset source => if endsWith name ".css" then [(name, source)]
                                else []
              | Chunk => []
              end)
           bundle.

(** The single analysis pass and the decision, from the sources of the CSS
    assets of the bundle. *)
Definition extractAll (sources : list str) : Registry :=
  fold_left (fun registry source => extractTokensVariables source registry)
            sources [].

Definition analyze (sources : list str) (registry : Registry) : Registry :=
  fold_left (fun registry code =>
               countUsage code (markVariablesSetElsewhere code registry))
            sources (resetUsageCounts registry).

Definition decide (sources : list str) (manglePrefix : str) : Registry :=
  fst (generateMangledNames (analyze sources (extractAll sources))
                            manglePrefix).

Definition generateBundle (manglePrefix : str) (bundle : Bundle) : Bundle :=
  let assets := cssAssets bundle in
  match assets with
  | [] => bundle
  | _ :: _ =>
      let sources := map snd assets in
      match extractAll sources with
      | [] => bundle
      | _ :: _ =>
          let registry := decide sources manglePrefix in
          map (fun '(name, out) =>
                 match out with
                 | Asset source =>
                     if endsWith name ".css" then
                       let transformed := transformCode source registry in
                       if negb (str_eqb transformed source)
                       then (name, Asset transformed)
                       else (name, out)
                     else (name, out)
                 | Chunk => (name, out)
                 end)
              bundle
      end
  end.

(** The default value of the option [manglePrefix]. *)
Definition defaultPrefix : str := "--_".

(** ** Vocabulary of the properties *)

(** What the matcher hands to its continuation is a suffix of its input, at
    the offset it reports. *)
Definition suffixAt (pos : nat) (s : str) (pos' : nat) (s' : str) : Prop :=
  pos <= pos' /\ pos' - pos <= length s /\ s' = skipn (pos' - pos) s.

(** The registered names that are not in the [visited] set. *)
Definition unvisited (registry : Registry) (visited : list str) : nat :=
  length (filter (fun k => negb (existsb (str_eqb k) visited))
                 (map fst registry)).

(** The direct references to [varName] in [code]: the matches of
    [VAR_REF_REGEX] that name it. *)
Definition directRefs (varName : str) (code : str) : nat :=
  length (filter (fun m => str_eqb (group 1 m) varName)
                 (matchAll VAR_REF_REGEX code)).

(** [registry'] has the names of [registry], with counts at least as high. *)
Definition countsGrow (registry registry' : Registry) : Prop :=
  forall v t, get registry v = Some t ->
    exists t', get registry' v = Some t' /\ usageCount t <= usageCount t'.

(** The declarations that the first pass of [transformCode] builds, one list
    for each layer in the order the layers are processed. *)
Fixpoint declarationsPerLayer (registry : Registry) (layers : list LayerSpan)
    (emittedValues : list str) : list (list str) :=
  match layers with
  | [] => []
  | layer :: rest =>
      let '(declarations, emittedValues') :=
        layerDeclarations registry layer emittedValues in
      declarations :: declarationsPerLayer registry rest emittedValues'
  end.

(** The declarations written to one asset, and the declaration matches that
    they come from, both in processing order. *)
Definition assetDeclarations (code : str) (registry : Registry) : list str :=
  concat (declarationsPerLayer registry (rev (findTokensLayers code)) []).

Definition declarationMatches (code : str) : list Match :=
  flat_map (fun layer => matchAll VAR_DEF_REGEX (content layer))
           (rev (findTokensLayers code)).

(** Where an emitted declaration comes from: the match [m] of a used variable
    that is kept because it is set elsewhere, or the match of the member of a
    mangled group that carries the declaration of the group. *)
Inductive emits (registry : Registry) (m : Match) : str -> Prop :=
| emits_kept (t : Token) :
    get registry (group 1 m) = Some t ->
    usageCount t <> 0 ->
    setElsewhere t = true ->
    emits registry m (group 1 m ++ ": " ++ group 2 m)
| emits_mangled (t : Token) (mangled : str) :
    get registry (group 1 m) = Some t ->
    usageCount t <> 0 ->
    setElsewhere t = false ->
    mangledName t = Some mangled ->
    mangled <> [] ->
    emitDeclaration t = true ->
    truthyB (isAlias t) = false ->
    emits registry m
          (mangled ++ ": " ++ resolveVariableValue (group 1 m) registry 0).

(** [n] copies of [s], for the examples. *)
Definition repeatStr (n : nat) (s : str) : str := concat (repeat s n).


(** The members of a group that are registered all carry the name [n], and
    the only one that can carry the declaration is [canonical]. *)
Definition uniform (registry : Registry) (varNames : list str) : Prop :=
  exists (n : option str) (canonical : str),
    forall w t, In w varNames -> get registry w = Some t ->
      mangledName t = n /\ (emitDeclaration t = true -> w = canonical).

(** No name is a member of two groups. *)
Definition disjointGroups (groups : list (str * list str)) : Prop :=
  ForallOrdPairs (fun g1 g2 => forall w, In w (snd g1) -> ~ In w (snd g2))
                 groups.

(** A declaration that does not belong to the value group of the resolved
    value [r]: the copy of the declaration of a variable that is set
    elsewhere, or the declaration of the synthetic name of another group. *)
Definition otherThan (registry : Registry) (r : str) (d : str) : Prop :=
  exists m,
    emits registry m d
    /\ forall t, get registry (group 1 m) = Some t ->
                 setElsewhere t = false ->
                 resolveVariableValue (group 1 m) registry 0 <> r.

(** An entry of the bundle that the pass reads and may rewrite. *)
Definition isCssAsset (name : str) (out : Output) : bool :=
  match out with
  | Asset _ => endsWith name ".css"
  | Chunk => false
  end.

(** The registry with one view [g] of each token. *)
Definition view {X : Type} (g : Token -> X) (registry : Registry)
    : list (str * X) :=
  map (fun '(k, t) => (k, g t)) registry.

(** The route that [getStats] counts a token under. *)
Definition isDropped (t : Token) : bool := usageCount t =? 0.
Definition isKept (t : Token) : bool :=
  negb (usageCount t =? 0) && setElsewhere t.
Definition isMangled (t : Token) : bool :=
  negb (usageCount t =? 0) && negb (setElsewhere t)
  && match mangledName t with Some (_ :: _) => true | _ => false end.
Definition isInlined (t : Token) : bool :=
  negb (usageCount t =? 0) && negb (setElsewhere t)
  && match mangledName t with Some (_ :: _) => false | _ => true end.

(** A token as extraction enters it. *)
Definition freshToken (varValue : str) : Token :=
  mkToken varValue 0 false None (Some (test VAR_ONLY_REGEX varValue)) false.

(** The declaration matches of a text in the order extraction meets them. *)
Definition layerMatches (code : str) : list Match :=
  flat_map (fun layer => matchAll VAR_DEF_REGEX (content layer))
           (findTokensLayers code).

(** An entry that is as extraction made it: nothing counted or decided, the
    alias flag computed from the value, the value trimmed. *)
Definition isFresh (entry : str * Token) : Prop :=
  snd entry = freshToken (value (snd entry))
  /\ trim (value (snd entry)) = value (snd entry).

(** Some text of [sources], with its tokens layers blanked out, assigns
    [varName]. *)
Definition assignedOutsideLayers (varName : str) (sources : list str) : bool :=
  existsb (fun code => test (setRegex varName) (blankTokensLayers code))
          sources.

(** The opening and the closing braces of a text. *)
Definition opens (s : str) : nat := count_occ N.eq_dec s 123%N.
Definition closes (s : str) : nat := count_occ N.eq_dec s 125%N.

(** What a successful run of the matcher has read: [matchesTo r pos caps w
    rest caps'] says that the pattern [r] can read the text [w] at offset
    [pos], in front of [rest], and turn the captures [caps] into [caps'].
    The order in which the matcher tries the alternatives plays no part. *)
Inductive matchesTo
    : regex -> nat -> captures -> str -> str -> captures -> Prop :=
| matches_chars l pos caps rest :
    matchesTo (Chars l) pos caps l rest caps
| matches_star p pos caps w rest :
    forallb p w = true -> matchesTo (Star p) pos caps w rest caps
| matches_plus p pos caps w rest :
    w <> [] -> forallb p w = true -> matchesTo (Plus p) pos caps w rest caps
| matches_seq r1 r2 pos caps w1 c1 w2 rest c2 :
    matchesTo r1 pos caps w1 (w2 ++ rest) c1 ->
    matchesTo r2 (pos + length w1) c1 w2 rest c2 ->
    matchesTo (Seq r1 r2) pos caps (w1 ++ w2) rest c2
| matches_opt_some r pos caps w rest c1 :
    matchesTo r pos caps w rest c1 -> matchesTo (Opt r) pos caps w rest c1
| matches_opt_none r pos caps rest :
    matchesTo (Opt r) pos caps [] rest caps
| matches_group i r pos caps w rest c1 :
    matchesTo r pos caps w rest c1 ->
    matchesTo (Group i r) pos caps w rest ((i, w) :: c1)
| matches_bol caps rest : matchesTo Bol 0 caps [] rest caps
| matches_eol pos caps : matchesTo Eol pos caps [] [] caps.

(** Takes apart the [matchesTo] facts about patterns that are not
    variables. *)
Ltac invert_matches :=
  repeat match goal with
         | H : matchesTo (Seq _ _) _ _ _ _ _ |- _ =>
             inversion H; subst; clear H
         | H : matchesTo (Group _ _) _ _ _ _ _ |- _ =>
             inversion H; subst; clear H
         | H : matchesTo (Chars _) _ _ _ _ _ |- _ =>
             inversion H; subst; clear H
         | H : matchesTo (Star _) _ _ _ _ _ |- _ =>
             inversion H; subst; clear H
         | H : matchesTo (Plus _) _ _ _ _ _ |- _ =>
             inversion H; subst; clear H
         | H : matchesTo (Opt _) _ _ _ _ _ |- _ =>
             inversion H; subst; clear H
         end.

(** A name as [VAR_DEF_REGEX] and [VAR_REF_REGEX] capture it: two dashes and
    at least one code unit of [[\w-]]. *)
Definition isVarName (k : str) : bool :=
  isPrefix "--" k && (2 <? length k) && forallb isWordOrDash (skipn 2 k).

(** An entry with such a name and a value without [;], [{] and [}]. *)
Definition wellFormed (entry : str * Token) : Prop :=
  isVarName (fst entry) = true
  /\ forallb notSemiOrBrace (value (snd entry)) = true.

(** The anatomy of the span of a tokens layer in [code]: the header
    [@layer tokens {] from [start] on, at least 14 code units; then the
    content, in which no closing brace is left without an opening one; then,
    when the layer is closed, the brace that matches the one of the header,
    at [end_ - 1]. *)
Definition spanOf (code : str) (layer : LayerSpan) : Prop :=
  let contentEnd := end_ layer - 1 in
  let contentStart := contentEnd - length (content layer) in
  start layer + 14 <= contentStart
  /\ contentStart <= contentEnd <= length code
  /\ end_ layer = contentEnd + 1
  /\ isPrefix "@layer" (skipn (start layer) code) = true
  /\ nth_error code (contentStart - 1) = Some 123%N
  /\ content layer = slice code contentStart contentEnd
  /\ (forall j, contentStart <= j < contentEnd ->
        closes (slice code contentStart (S j))
        <= opens (slice code contentStart (S j)))
  /\ (contentEnd < length code ->
      nth_error code contentEnd = Some 125%N
      /\ opens (content layer) = closes (content layer)).

(** No registered value refers to [varName]. *)
Definition noValueRefers (varName : str) (registry : Registry) : bool :=
  forallb (fun '(_, t) => directRefs varName (value t) =? 0) registry.

(** No text of [sources] refers to [varName]. *)
Definition noTextRefers (varName : str) (sources : list str) : bool :=
  forallb (fun code => directRefs varName code =? 0) sources.

(** No registered value holds a reference. *)
Definition literalValues (registry : Registry) : bool :=
  forallb (fun '(_, t) =>
             match matchAll VAR_REF_REGEX (value t) with
             | [] => true
             | _ :: _ => false
             end)
          registry.

(** Some token that carries the synthetic name [n] is set elsewhere. *)
Definition nameSetElsewhere (n : str) (registry : Registry) : bool :=
  existsb (fun '(_, t) =>
             setElsewhere t
             && match mangledName t with
                | Some n' => str_eqb n' n
                | None => false
                end)
          registry.

(** [parseInt(s, 36)] for a string of digits of base 36 in lower case. *)
Definition digitValue (c : N) : nat :=
  if N.to_nat c <? 58 then N.to_nat c - 48 else N.to_nat c - 87.
Definition parseInt36 (s : str) : nat :=
  fold_left (fun n c => n * 36 + digitValue c) s 0.










(** ** Example inputs *)

(** A chain of aliases [--a0 -> --a1 -> ... -> --a11 -> 1px]; the last link
    is written with white space and a fallback. *)
Definition aliasChain : Registry :=
  map (fun '(n, v) => (lit n, mkToken (lit v) 1 false None (Some true) false))
      [("--a0", "var(--a1)"); ("--a1", "var(--a2)"); ("--a2", "var(--a3)");
       ("--a3", "var(--a4)"); ("--a4", "var(--a5)"); ("--a5", "var(--a6)");
       ("--a6", "var(--a7)"); ("--a7", "var(--a8)"); ("--a8", "var(--a9)");
       ("--a9", "var(--a10)"); ("--a10", "var( --a11 , 2px )");
       ("--a11", "1px")].

(** A token that takes its value from a variable of the host page, with a
    fallback; the bundle does not declare [--host]. *)
Definition hostFallback : str :=
  "@layer tokens{:root{--w:var(--host, 10px)}}.x{width:var(--w)}".

(** A registry with a cycle and a variable that refers to itself. *)
Definition cyclicRegistry : Registry :=
  map (fun '(n, v) => (lit n, mkToken (lit v) 0 false None None false))
      [("--a", "var(--b)"); ("--b", "var(--a)");
       ("--c", "calc(var(--c) + 1px)")].

(** An alias cycle with one direct reference to one of its names. *)
Definition cycleSources : list str :=
  [lit "@layer tokens{:root{--a:var(--b);--b:var(--a)}}.x{color:var(--b)}"].

(** A value of 27 code units, and a registry in which it is used [n] times. *)
Definition longValue : str := "linear-gradient(red, green)".

Definition usedRegistry (n : nat) : Registry :=
  [(lit "--g", mkToken longValue n false None (Some false) false)].

(** A tokens layer that declares [--c: #ff0000] and [n] rules that use it. *)
Definition redSource (n : nat) : str :=
  "@layer tokens{:root{--c:#ff0000}}" ++ repeatStr n ".a{color:var(--c)}".

Definition redBundle (n : nat) : Bundle := [(lit "a.css", Asset (redSource n))].

(** A variable that is also assigned outside the tokens layer: never used,
    used once, and used three times with a value long enough to be mangled. *)
Definition overriddenUnused : str :=
  "@layer tokens{:root{--a:1px}} .x{--a:2px}".
Definition overriddenUsed : str :=
  "@layer tokens{:root{--a:1px}} .x{--a:2px;width:var(--a)}".
Definition overriddenMangled : str :=
  "@layer tokens{:root{--a:rgba(255, 0, 0, 0.5)}}.x{--a:1}" ++
  repeatStr 3 ".a{color:var(--a)}".

(** An unused variable that is assigned outside the tokens layer, next to a
    used one. *)
Definition unusedOverridden : str :=
  "@layer tokens{:root{--gap:4px;--c:red}} .x{--gap:8px;color:var(--c)}".

(** A tokens layer whose closing brace is missing. *)
Definition unbalancedSource : str :=
  ".x{--a:2px}@layer tokens{:root{--a:1px}".

(** Two value groups that are both mangled; the alias [--x] of [--b] is
    declared first, so that the group of [--b] is numbered before the group
    of [--a]. *)
Definition twoGroups : Bundle :=
  [(lit "a.css",
    Asset ("@layer tokens{:root{--x:var(--b);--a:rgba(255, 0, 0, 0.5);"
           ++ "--b:rgba(0, 0, 255, 0.5)}}"
           ++ repeatStr 3 ".a{color:var(--a);background:var(--b)}"
           ++ ".c{color:var(--x)}"))].

(** One value group that is mangled. *)
Definition oneGroup : Bundle :=
  [(lit "a.css",
    Asset ("@layer tokens{:root{--brand:rgba(0, 0, 255, 0.5)}}" ++
           repeatStr 3 ".a{background:var(--brand)}"))].


(** A group whose only member is an alias of a variable that the bundle does
    not declare. *)
Definition aliasOnly : str :=
  "@layer tokens{:root{--c:var(--brand-color-from-host)}}" ++
  repeatStr 3 ".a{color:var(--c)}".

(** The alias [--x] and the variable [--b], declared in two tokens layers of
    the asset, form one mangled group with [--b] as its canonical member. *)
Definition declaredTwice : str :=
  "@layer tokens{:root{--x:var(--b);--b:rgba(0, 0, 255, 0.5)}}" ++
  repeatStr 3 ".a{background:var(--b)}" ++ ".c{color:var(--x)}" ++
  "@layer tokens{:root{--b:rgba(0, 0, 255, 0.5)}}".

(** A registry with a token on each route of the summary. *)
Definition statsExample : Registry :=
  [(lit "--a", mkToken "1px" 0 false None (Some false) false);
   (lit "--b", mkToken "2px" 2 true None (Some false) false);
   (lit "--c", mkToken "3px" 4 false (Some (lit "--_0")) (Some false) true);
   (lit "--d", mkToken "4px" 1 false None (Some false) false);
   (lit "--e", mkToken "5px" 0 true None (Some false) false)].

(** A text with a closed tokens layer between two rules. *)
Definition closedLayer : str :=
  "a{}@layer tokens{:root{--a:1px}}.x{--a:2px}".

(** Two tokens layers that declare [--a] with different values, and a second
    declaration of [--b]. *)
Definition declaredAgain : str :=
  "@layer tokens{:root{--a: 1px ;--b:var(--a)}}" ++
  "@layer tokens{:root{--a:2px;--b:3px}}".

(** A rule that refers to a variable of the host page. *)
Definition hostReference : str := ".y{height:var(--host, 10px)}".

(** A bundle with a script, a style sheet and an asset that is not CSS. *)
Definition mixedBundle : Bundle :=
  [(lit "a.js", Chunk);
   (lit "a.css", Asset (redSource 1));
   (lit "logo.svg", Asset "<svg>var(--c)</svg>")].

(** Three value groups: [--a] and [--b], used three times each, are worth
    a synthetic name; for [--g], with [longValue] used twice, both costs are
    54. *)
Definition threeGroups : str :=
  "@layer tokens{:root{--a:rgba(255, 0, 0, 0.5);" ++
  "--g:linear-gradient(red, green);--b:rgba(0, 0, 255, 0.5)}}" ++
  repeatStr 3 ".a{color:var(--a);background:var(--b)}" ++
  repeatStr 2 ".g{background:var(--g)}".



(** A reference to [--b] as the fallback of a reference to [--a]. *)
Definition referenceInFallback : str :=
  "@layer tokens{:root{--a:red;--b:blue}}.x{color:var(--a, var(--b))}".

(** A tokens layer inside a tokens layer. *)
Definition nestedLayers : str :=
  "@layer tokens{@layer tokens{:root{--n:rgba(0, 0, 255, 0.5)}}}" ++
  repeatStr 3 ".x{color:var(--n)}".

(** * Properties *)

(** ** The registry *)

Lemma str_eqb_eq (a b : str) : str_eqb a b = true <-> a = b.
Proof.
  unfold str_eqb. destruct (list_eq_dec N.eq_dec a b); split; congruence.
Qed.

Lemma str_eqb_refl (a : str) : str_eqb a a = true.
Proof. now apply str_eqb_eq. Qed.

Lemma str_eqb_neq (a b : str) : str_eqb a b = false <-> a <> b.
Proof.
  unfold str_eqb. destruct (list_eq_dec N.eq_dec a b); split; congruence.
Qed.

Lemma str_eqb_sym (a b : str) : str_eqb a b = str_eqb b a.
Proof.
  destruct (str_eqb a b) eqn:E.
  - apply str_eqb_eq in E. subst. now rewrite str_eqb_refl.
  - apply str_eqb_neq in E. symmetry. apply str_eqb_neq. congruence.
Qed.

Section Maps.
Context {V : Type}.
Implicit Types (m : list (str * V)) (k : str).

Lemma get_modify m k k' (f : V -> V) :
  get (modify m k f) k' =
  if str_eqb k' k then option_map f (get m k') else get m k'.
Proof.
  induction m as [|[j v] m IH]; simpl.
  - now destruct (str_eqb k' k).
  - destruct (str_eqb k j) eqn:Ekj; simpl.
    + apply str_eqb_eq in Ekj. subst j.
      destruct (str_eqb k' k) eqn:E; simpl; now rewrite ?E.
    + destruct (str_eqb k' j) eqn:Ej; simpl.
      * apply str_eqb_eq in Ej. subst j.
        rewrite str_eqb_sym, Ekj. reflexivity.
      * apply IH.
Qed.

Lemma get_modify_same m k (f : V -> V) :
  get (modify m k f) k = option_map f (get m k).
Proof. now rewrite get_modify, str_eqb_refl. Qed.

Lemma get_modify_other m k k' (f : V -> V) :
  k' <> k -> get (modify m k f) k' = get m k'.
Proof.
  intros H. rewrite get_modify.
  now replace (str_eqb k' k) with false by (symmetry; now apply str_eqb_neq).
Qed.

Lemma keys_modify m k (f : V -> V) :
  map fst (modify m k f) = map fst m.
Proof.
  induction m as [|[j v] m IH]; simpl; [reflexivity|].
  destruct (str_eqb k j); simpl; now rewrite ?IH.
Qed.

Lemma get_set m k k' (v : V) :
  get (set m k v) k' = if str_eqb k' k then Some v else get m k'.
Proof.
  induction m as [|[j w] m IH]; simpl.
  - reflexivity.
  - destruct (str_eqb k j) eqn:Ekj; simpl.
    + apply str_eqb_eq in Ekj. subst j.
      now destruct (str_eqb k' k).
    + destruct (str_eqb k' j) eqn:Ej; simpl.
      * apply str_eqb_eq in Ej. subst j.
        now rewrite str_eqb_sym, Ekj.
      * apply IH.
Qed.

Lemma get_In m k v : get m k = Some v -> In (k, v) m.
Proof.
  induction m as [|[j w] m IH]; simpl; [discriminate|].
  destruct (str_eqb k j) eqn:E.
  - apply str_eqb_eq in E. subst. intros [= ->]. now left.
  - intros H. right. now apply IH.
Qed.

Lemma get_Some_key m k v : get m k = Some v -> In k (map fst m).
Proof. intros H. apply get_In in H. now apply (in_map fst) in H. Qed.

Lemma In_key_get m k : In k (map fst m) -> exists v, get m k = Some v.
Proof.
  induction m as [|[j w] m IH]; simpl; [tauto|].
  intros [->|H].
  - rewrite str_eqb_refl. now exists w.
  - destruct (str_eqb k j); [now exists w|now apply IH].
Qed.

(** A pass over the entries that rewrites each token in place. *)
Lemma get_map_entries m k (g : str -> V -> V) :
  get (map (fun '(n, v) => (n, g n v)) m) k = option_map (g k) (get m k).
Proof.
  induction m as [|[j w] m IH]; simpl; [reflexivity|].
  destruct (str_eqb k j) eqn:E; [|apply IH].
  apply str_eqb_eq in E. now subst.
Qed.

Lemma keys_map_entries m (g : str -> V -> V) :
  map fst (map (fun '(n, v) => (n, g n v)) m) = map fst m.
Proof.
  induction m as [|[j w] m IH]; simpl; now rewrite ?IH.
Qed.
End Maps.

(** ** Replacement with a callback that cannot fail *)

Lemma mapM_ext {A B : Type} (f g : A -> option B) (l : list A) :
  (forall a, In a l -> f a = g a) -> mapM f l = mapM g l.
Proof.
  induction l as [|a l IH]; simpl; intros H; [reflexivity|].
  rewrite (H a) by now left.
  rewrite IH by (intros; apply H; now right). reflexivity.
Qed.

Lemma mapM_total {A B : Type} (g : A -> B) (l : list A) :
  mapM (fun a => Some (g a)) l = Some (map g l).
Proof.
  induction l as [|a l IH]; simpl; [reflexivity|]. now rewrite IH.
Qed.

Lemma combine_map_self {A B : Type} (g : A -> B) (l : list A) :
  combine l (map g l) = map (fun a => (a, g a)) l.
Proof.
  induction l as [|a l IH]; simpl; [reflexivity|]. now rewrite IH.
Qed.

Lemma replaceM_total (r : regex) (s : str) (f : Match -> option str)
    (g : Match -> str) :
  (forall m, In m (matchAll r s) -> f m = Some (g m)) ->
  replaceM r s f = Some (replace r s g).
Proof.
  intros H. unfold replaceM, replace.
  rewrite (mapM_ext f (fun m => Some (g m))) by exact H.
  now rewrite mapM_total, combine_map_self.
Qed.

(** ** Matches lie in the text *)

Lemma suffixAt_refl (pos : nat) (s : str) : suffixAt pos s pos s.
Proof.
  unfold suffixAt. rewrite Nat.sub_diag. repeat split; lia.
Qed.

Lemma suffixAt_trans (p1 p2 p3 : nat) (s1 s2 s3 : str) :
  suffixAt p1 s1 p2 s2 -> suffixAt p2 s2 p3 s3 -> suffixAt p1 s1 p3 s3.
Proof.
  unfold suffixAt. intros (H1 & L1 & ->) (H2 & L2 & ->).
  rewrite length_skipn in L2. rewrite skipn_skipn.
  split; [lia|]. split; [lia|]. f_equal. lia.
Qed.

Lemma suffixAt_tail (pos : nat) (c : N) (s s' : str) (pos' : nat) :
  suffixAt (S pos) s pos' s' -> suffixAt pos (c :: s) pos' s'.
Proof.
  unfold suffixAt. intros (H & L & ->). cbn [length].
  replace (pos' - pos) with (S (pos' - S pos)) by lia.
  split; [lia|]. split; [lia|reflexivity].
Qed.

Lemma isPrefix_length (p s : str) :
  isPrefix p s = true -> length p <= length s /\ firstn (length p) s = p.
Proof.
  revert s. induction p as [|a p IH]; intros s H; simpl.
  - split; [lia|reflexivity].
  - destruct s as [|b s]; [discriminate|]. simpl in H.
    apply andb_true_iff in H. destruct H as [Hab H].
    apply N.eqb_eq in Hab. subst b. destruct (IH s H) as [Hl Hf].
    simpl. split; [lia|now rewrite Hf].
Qed.

Lemma star_suffix {R : Type} (p : N -> bool) (s : str) :
  forall pos (k : nat -> str -> option R) x,
    star p pos s k = Some x ->
    exists pos' s', suffixAt pos s pos' s' /\ k pos' s' = Some x.
Proof.
  induction s as [|c s IH]; intros pos k x H; cbn [star] in H.
  - exists pos, []. split; [apply suffixAt_refl|exact H].
  - destruct (p c).
    + destruct (star p (S pos) s k) as [y|] eqn:E.
      * injection H as <-. destruct (IH _ _ _ E) as (pos' & s' & Hs & Hk).
        exists pos', s'. split; [now apply suffixAt_tail|exact Hk].
      * exists pos, (c :: s). split; [apply suffixAt_refl|exact H].
    + exists pos, (c :: s). split; [apply suffixAt_refl|exact H].
Qed.

Lemma run_suffix {R : Type} (r : regex) :
  forall pos s caps (k : nat -> str -> captures -> option R) x,
    run r pos s caps k = Some x ->
    exists pos' s' caps',
      suffixAt pos s pos' s' /\ k pos' s' caps' = Some x.
Proof.
  induction r as [l|p|p|r1 IH1 r2 IH2|r1 IH1|i r1 IH1| |];
    intros pos s caps k x H; cbn [run] in H.
  - destruct (isPrefix l s) eqn:E; [|discriminate].
    apply isPrefix_length in E. destruct E as [Hl _].
    exists (pos + length l), (skipn (length l) s), caps.
    split; [|exact H]. unfold suffixAt.
    replace (pos + length l - pos) with (length l) by lia.
    split; [lia|]. split; [exact Hl|reflexivity].
  - apply star_suffix in H. destruct H as (pos' & s' & Hs & Hk).
    now exists pos', s', caps.
  - destruct s as [|c s]; [discriminate|].
    destruct (p c); [|discriminate].
    apply star_suffix in H. destruct H as (pos' & s' & Hs & Hk).
    exists pos', s', caps. split; [now apply suffixAt_tail|exact Hk].
  - apply IH1 in H. destruct H as (pos1 & s1 & caps1 & Hs1 & H).
    apply IH2 in H. destruct H as (pos2 & s2 & caps2 & Hs2 & H).
    exists pos2, s2, caps2. split; [|exact H].
    now apply (suffixAt_trans _ pos1 _ _ s1).
  - destruct (run r1 pos s caps k) as [y|] eqn:E.
    + injection H as <-. now apply IH1 in E.
    + exists pos, s, caps. split; [apply suffixAt_refl|exact H].
  - apply IH1 in H. destruct H as (pos' & s' & caps' & Hs & H).
    now exists pos', s', ((i, firstn (pos' - pos) s) :: caps').
  - destruct (pos =? 0); [|discriminate].
    exists pos, s, caps. split; [apply suffixAt_refl|exact H].
  - destruct s; [|discriminate].
    exists pos, [], caps. split; [apply suffixAt_refl|exact H].
Qed.

(** A match starts where it was looked for and its text is the input from
    there on, up to the length of the match. *)
Lemma matchAt_text (r : regex) (pos : nat) (s : str) (m : Match) :
  matchAt r pos s = Some m ->
  index m = pos /\ length (text m) <= length s
  /\ text m = firstn (length (text m)) s.
Proof.
  unfold matchAt. intros H. apply run_suffix in H.
  destruct H as (pos' & s' & caps' & (Hle & Hlen & _) & H).
  injection H as <-. cbn [index text].
  assert (E : length (firstn (pos' - pos) s) = pos' - pos)
    by (rewrite length_firstn; lia).
  rewrite E. repeat split; trivial.
Qed.

Lemma matchAllFrom_index (r : regex) (s : str) :
  forall pos skip m,
    In m (matchAllFrom r pos s skip) -> pos + skip <= index m.
Proof.
  induction s as [|c s IH]; intros pos skip m H.
  - destruct skip as [|skip]; cbn [matchAllFrom] in H; [|contradiction].
    destruct (matchAt r pos []) as [m0|] eqn:E; [|contradiction].
    destruct H as [<-|[]]. apply matchAt_text in E. lia.
  - destruct skip as [|skip]; cbn [matchAllFrom] in H.
    + destruct (matchAt r pos (c :: s)) as [m0|] eqn:E.
      * destruct H as [<-|H]; [apply matchAt_text in E; lia|].
        apply IH in H. lia.
      * apply IH in H. lia.
    + apply IH in H. lia.
Qed.

(** Substitutions that start after the first code unit leave it alone. *)
Lemma splice_tail (c : N) (s : str) (pos : nat)
    (subst : list (Match * str)) :
  Forall (fun '(m, _) => S pos <= index m) subst ->
  splice (c :: s) pos subst = c :: splice s (S pos) subst.
Proof.
  destruct subst as [|[m new] rest]; [reflexivity|].
  intros H. inversion H as [|? ? Hm _]; subst. cbn [splice].
  replace (index m - pos) with (S (index m - S pos)) by lia.
  reflexivity.
Qed.

(** Putting the text of every match back in its place gives the input. *)
Lemma splice_matches (r : regex) (s : str) :
  forall pos skip,
    skip <= length s ->
    splice (skipn skip s) (pos + skip)
           (map (fun m => (m, text m)) (matchAllFrom r pos s skip))
    = skipn skip s.
Proof.
  induction s as [|c s IH]; intros pos skip Hskip.
  - destruct skip as [|skip]; [|simpl in Hskip; lia].
    cbn [matchAllFrom skipn].
    destruct (matchAt r pos []) as [m|] eqn:E; [|reflexivity].
    apply matchAt_text in E. destruct E as (Hi & Hl & Ht).
    cbn [map splice]. rewrite Ht. now rewrite !firstn_nil, !skipn_nil.
  - destruct skip as [|skip]; cbn [matchAllFrom].
    + cbn [skipn]. rewrite Nat.add_0_r.
      assert (Hrest : forall skip',
                 skip' <= length s ->
                 Forall (fun '(m, _) => S pos <= index m)
                        (map (fun m => (m, text m))
                             (matchAllFrom r (S pos) s skip'))).
      { intros skip' _. apply Forall_forall. intros [m new] Hin.
        apply in_map_iff in Hin. destruct Hin as (m' & [= <- <-] & Hin).
        apply matchAllFrom_index in Hin. lia. }
      destruct (matchAt r pos (c :: s)) as [m|] eqn:E.
      * apply matchAt_text in E. destruct E as (Hi & Hl & Ht).
        cbn [map splice]. rewrite Hi, Nat.sub_diag. cbn [firstn app].
        destruct (length (text m)) as [|len] eqn:Elen.
        -- apply length_zero_iff_nil in Elen. rewrite Elen. cbn [app skipn].
           change (0 + 0) with 0. change (0 - 1) with 0. cbn [skipn].
           rewrite Nat.add_0_r.
           rewrite splice_tail by (apply Hrest; lia).
           f_equal. specialize (IH (S pos) 0 ltac:(lia)).
           cbn [skipn] in IH. now rewrite Nat.add_0_r in IH.
        -- cbn [length] in Hl. rewrite Ht at 1.
           replace (S len - 1) with len by lia.
           specialize (IH (S pos) len ltac:(lia)).
           change (0 + S len) with (S len). cbn [skipn].
           replace (pos + S len) with (S pos + len) by lia. rewrite IH.
           change (skipn len s) with (skipn (S len) (c :: s)).
           apply firstn_skipn.
      * rewrite splice_tail by (apply Hrest; lia).
        f_equal. specialize (IH (S pos) 0 ltac:(lia)).
        cbn [skipn] in IH. now rewrite Nat.add_0_r in IH.
    + cbn [skipn]. cbn [length] in Hskip.
      specialize (IH (S pos) skip ltac:(lia)).
      now replace (pos + S skip) with (S pos + skip) by lia.
Qed.

(** A replacement whose callback returns the text of each match changes
    nothing. *)
Lemma replace_unchanged (r : regex) (s : str) (callback : Match -> str) :
  (forall m, In m (matchAll r s) -> callback m = text m) ->
  replace r s callback = s.
Proof.
  intros H. unfold replace.
  rewrite (map_ext_in _ (fun m => (m, text m)))
    by (intros m Hm; now rewrite H).
  apply (splice_matches r s 0 0). lia.
Qed.

(** ** Value resolution terminates *)

(** With fuel for the calls that depth [depth] can still lead to, the fuel
    does not run out, and more fuel does not change the result. *)
Lemma resolveVariableValue_fuel_enough (registry : Registry) :
  forall fuel varName depth,
    12 <= fuel + depth -> 1 <= fuel ->
    resolveVariableValue_fuel fuel varName registry depth =
    Some (resolveVariableValue varName registry depth).
Proof.
  assert (E : forall n varName depth,
             11 - depth <= n ->
             exists s, forall fuel,
               12 <= fuel + depth -> 1 <= fuel ->
               resolveVariableValue_fuel fuel varName registry depth = Some s).
  { induction n as [|n IH]; intros varName depth Hn.
    - exists (varExpr varName). intros [|fuel] Hf H1; [lia|]. simpl.
      now replace (10 <? depth) with true by (symmetry; apply Nat.ltb_lt; lia).
    - destruct (10 <? depth) eqn:Hd.
      { exists (varExpr varName). intros [|fuel] Hf H1; [lia|]. simpl.
        now rewrite Hd. }
      apply Nat.ltb_ge in Hd.
      destruct (get registry varName) as [variable|] eqn:Hget.
      2:{ exists (varExpr varName). intros [|fuel] Hf H1; [lia|]. simpl.
          replace (10 <? depth) with false by (symmetry; apply Nat.ltb_ge; lia).
          now rewrite Hget. }
      set (g := fun m : Match =>
                  resolveVariableValue (group 1 m) registry (depth + 1)).
      exists (replace VAR_REF_REGEX (value variable) g).
      intros [|fuel] Hf H1; [lia|]. simpl.
      replace (10 <? depth) with false by (symmetry; apply Nat.ltb_ge; lia).
      rewrite Hget. apply replaceM_total. intros m _.
      destruct (IH (group 1 m) (depth + 1)) as (s & Hs); [lia|].
      unfold g, resolveVariableValue.
      rewrite (Hs (S (11 - (depth + 1)))) by lia.
      apply Hs; lia. }
  intros fuel varName depth Hf H1.
  destruct (E (11 - depth) varName depth) as (s & Hs); [lia|].
  unfold resolveVariableValue.
  rewrite (Hs (S (11 - depth))) by lia. apply Hs; lia.
Qed.

(** The recursion equation of the source. *)
Lemma resolveVariableValue_eq (varName : str) (registry : Registry)
    (depth : nat) :
  resolveVariableValue varName registry depth =
  if 10 <? depth then varExpr varName
  else
    match get registry varName with
    | None => varExpr varName
    | Some variable =>
        replace VAR_REF_REGEX (value variable)
          (fun m => resolveVariableValue (group 1 m) registry (depth + 1))
    end.
Proof.
  pose proof (resolveVariableValue_fuel_enough registry (S (11 - depth))
                varName depth) as H.
  cbn [resolveVariableValue_fuel] in H.
  destruct (10 <? depth) eqn:Hd.
  { specialize (H ltac:(lia) ltac:(lia)). congruence. }
  apply Nat.ltb_ge in Hd.
  destruct (get registry varName) as [variable|].
  2:{ specialize (H ltac:(lia) ltac:(lia)). congruence. }
  specialize (H ltac:(lia) ltac:(lia)).
  rewrite (replaceM_total _ _ _
             (fun m => resolveVariableValue (group 1 m) registry (depth + 1)))
    in H.
  - congruence.
  - intros m _. apply resolveVariableValue_fuel_enough; lia.
Qed.

(** ** Usage counting terminates *)

Lemma filter_length_le {A : Type} (p : A -> bool) (l : list A) :
  length (filter p l) <= length l.
Proof.
  induction l as [|a l IH]; simpl; [lia|]. destruct (p a); simpl; lia.
Qed.

Lemma filter_length_mono {A : Type} (p q : A -> bool) (l : list A) :
  (forall a, q a = true -> p a = true) ->
  length (filter q l) <= length (filter p l).
Proof.
  intros H. induction l as [|a l IH]; simpl; [lia|].
  destruct (q a) eqn:Hq.
  - rewrite (H a Hq). simpl. lia.
  - destruct (p a); simpl; lia.
Qed.

Lemma filter_length_lt {A : Type} (p q : A -> bool) (l : list A) (x : A) :
  (forall a, q a = true -> p a = true) ->
  In x l -> p x = true -> q x = false ->
  length (filter q l) < length (filter p l).
Proof.
  intros H. induction l as [|a l IH]; simpl; [tauto|].
  intros [->|Hin] Hp Hq.
  - rewrite Hp, Hq. simpl.
    pose proof (filter_length_mono p q l H). lia.
  - specialize (IH Hin Hp Hq).
    destruct (q a) eqn:Hqa.
    + rewrite (H a Hqa). simpl. lia.
    + destruct (p a); simpl; lia.
Qed.

Lemma unvisited_le (registry : Registry) (visited : list str) :
  unvisited registry visited <= length registry.
Proof.
  unfold unvisited.
  etransitivity; [apply filter_length_le|]. now rewrite length_map.
Qed.

(** A visit uses up one of the names still to be visited. *)
Lemma unvisited_visit (registry : Registry) (visited : list str) (k : str) :
  In k (map fst registry) -> existsb (str_eqb k) visited = false ->
  unvisited registry (k :: visited) < unvisited registry visited.
Proof.
  intros Hin Hk. unfold unvisited.
  apply (filter_length_lt _ _ _ k); trivial.
  - intros a. simpl. rewrite !negb_true_iff, orb_false_iff. tauto.
  - now rewrite Hk.
  - simpl. now rewrite str_eqb_refl.
Qed.

Lemma unvisited_keys (r1 r2 : Registry) (visited : list str) :
  map fst r1 = map fst r2 -> unvisited r1 visited = unvisited r2 visited.
Proof. unfold unvisited. now intros ->. Qed.

(** With more fuel than there are names left to visit, the count returns;
    it keeps the names of the registry and visits no name twice. *)
Lemma countVariableUsage_enough :
  forall fuel code registry visited,
    unvisited registry visited < fuel ->
    exists registry' visited',
      countVariableUsage fuel code (registry, visited) =
      Some (registry', visited')
      /\ map fst registry' = map fst registry
      /\ unvisited registry' visited' <= unvisited registry visited.
Proof.
  induction fuel as [|fuel IH]; intros code registry visited Hlt; [lia|].
  cbn [countVariableUsage].
  generalize (matchAll VAR_REF_REGEX code). intros ms.
  revert registry visited Hlt.
  induction ms as [|m ms IHms]; intros registry visited Hlt.
  - exists registry, visited. simpl. auto.
  - cbn [foldM].
    assert (Hstep : exists r1 v1,
               countStep (countVariableUsage fuel) (registry, visited) m =
               Some (r1, v1)
               /\ map fst r1 = map fst registry
               /\ unvisited r1 v1 <= unvisited registry visited).
    { unfold countStep.
      destruct (get registry (group 1 m)) as [variable|] eqn:Hget.
      2:{ exists registry, visited. auto. }
      remember (modify registry (group 1 m) _) as registry1 eqn:Hr1.
      assert (Hkeys : map fst registry1 = map fst registry)
        by (subst registry1; apply keys_modify).
      destruct (existsb (str_eqb (group 1 m)) visited) eqn:Hvis; cbn [negb].
      - exists registry1, visited.
        rewrite (unvisited_keys _ _ _ Hkeys). auto.
      - assert (Hdec : unvisited registry1 (group 1 m :: visited)
                       < unvisited registry visited).
        { rewrite (unvisited_keys _ _ _ Hkeys).
          apply unvisited_visit; trivial. eapply get_Some_key, Hget. }
        destruct (IH (value variable) registry1 (group 1 m :: visited))
          as (r1 & v1 & E1 & Hk1 & Hle1); [lia|].
        exists r1, v1. split; [exact E1|]. split; [congruence|lia]. }
    destruct Hstep as (r1 & v1 & -> & Hk1 & Hle1).
    destruct (IHms r1 v1) as (r' & v' & -> & Hk & Hle); [lia|].
    exists r', v'. split; [reflexivity|]. split; [congruence|lia].
Qed.

(** More fuel does not change a count that returned. *)
Lemma countVariableUsage_more_fuel :
  forall fuel fuel' code st st',
    countVariableUsage fuel code st = Some st' -> fuel <= fuel' ->
    countVariableUsage fuel' code st = Some st'.
Proof.
  induction fuel as [|fuel IH]; intros fuel' code st st' H Hle;
    [discriminate|].
  destruct fuel' as [|fuel']; [lia|].
  cbn [countVariableUsage] in *.
  revert st H. generalize (matchAll VAR_REF_REGEX code). intros ms.
  induction ms as [|m ms IHms]; intros st H; [exact H|].
  cbn [foldM] in *.
  destruct (countStep (countVariableUsage fuel) st m) as [st1|] eqn:E;
    [|discriminate].
  assert (E' : countStep (countVariableUsage fuel') st m = Some st1).
  { unfold countStep in *. destruct st as [registry visited].
    destruct (get registry (group 1 m)); [|exact E].
    destruct (negb _); [|exact E].
    apply (IH fuel') in E; [exact E|lia]. }
  rewrite E'. now apply IHms.
Qed.

Lemma countUsage_enough (code : str) (registry : Registry) :
  exists visited,
    countVariableUsage (S (length registry)) code (registry, []) =
    Some (countUsage code registry, visited).
Proof.
  destruct (countVariableUsage_enough (S (length registry)) code registry [])
    as (r' & v' & H & _).
  { pose proof (unvisited_le registry []). lia. }
  exists v'. unfold countUsage. now rewrite H.
Qed.

(** ** Usage counting counts every direct reference *)

Lemma countsGrow_refl (registry : Registry) : countsGrow registry registry.
Proof. intros v t H. now exists t. Qed.

Lemma countsGrow_trans (r1 r2 r3 : Registry) :
  countsGrow r1 r2 -> countsGrow r2 r3 -> countsGrow r1 r3.
Proof.
  intros H12 H23 v t H.
  destruct (H12 v t H) as (t2 & H2 & Hle2).
  destruct (H23 v t2 H2) as (t3 & H3 & Hle3).
  exists t3. split; [exact H3|lia].
Qed.

Lemma countsGrow_increment (registry : Registry) (k : str) :
  countsGrow registry
    (modify registry k (fun v => withUsageCount (S (usageCount v)) v)).
Proof.
  intros v t H. rewrite get_modify, H.
  destruct (str_eqb v k); simpl; eexists; split; try reflexivity; simpl; lia.
Qed.

(** One match: the count of the name it refers to goes up by one whether or
    not the name was visited before, and no count goes down. *)
Lemma countStep_counts
    (recurse : str -> Registry * list str -> option (Registry * list str))
    (registry : Registry) (visited : list str) (m : Match)
    (st' : Registry * list str) :
  (forall code r vis st1,
      recurse code (r, vis) = Some st1 -> countsGrow r (fst st1)) ->
  countStep recurse (registry, visited) m = Some st' ->
  forall v t, get registry v = Some t ->
    exists t', get (fst st') v = Some t'
      /\ usageCount t + (if str_eqb (group 1 m) v then 1 else 0)
         <= usageCount t'.
Proof.
  intros Hrec Hstep v t Hv. unfold countStep in Hstep.
  destruct (get registry (group 1 m)) as [variable|] eqn:Hget.
  - assert (H1 : exists t1,
               get (modify registry (group 1 m)
                      (fun v => withUsageCount (S (usageCount v)) v)) v
               = Some t1
               /\ usageCount t + (if str_eqb (group 1 m) v then 1 else 0)
                  <= usageCount t1).
    { rewrite get_modify, Hv, (str_eqb_sym (group 1 m) v).
      destruct (str_eqb v (group 1 m)); simpl; eexists;
        (split; [reflexivity|simpl; lia]). }
    destruct H1 as (t1 & Ht1 & Hle1).
    destruct (negb (existsb (str_eqb (group 1 m)) visited)).
    + apply Hrec in Hstep. destruct (Hstep v t1 Ht1) as (t' & Ht' & Hle).
      exists t'. split; [exact Ht'|lia].
    + injection Hstep as <-. exists t1. now split.
  - injection Hstep as <-. exists t. split; [exact Hv|].
    destruct (str_eqb (group 1 m) v) eqn:E; [|lia].
    apply str_eqb_eq in E. congruence.
Qed.

Lemma foldM_countStep_counts
    (recurse : str -> Registry * list str -> option (Registry * list str)) :
  (forall code r vis st1,
      recurse code (r, vis) = Some st1 -> countsGrow r (fst st1)) ->
  forall ms registry visited st',
    foldM (countStep recurse) ms (registry, visited) = Some st' ->
    forall v t, get registry v = Some t ->
      exists t', get (fst st') v = Some t'
        /\ usageCount t
           + length (filter (fun m => str_eqb (group 1 m) v) ms)
           <= usageCount t'.
Proof.
  intros Hrec. induction ms as [|m ms IH];
    intros registry visited st' H v t Hv.
  - injection H as <-. exists t. simpl. split; [exact Hv|lia].
  - cbn [foldM] in H.
    destruct (countStep recurse (registry, visited) m) as [[r1 v1]|] eqn:E;
      [|discriminate].
    destruct (countStep_counts _ _ _ _ _ Hrec E v t Hv) as (t1 & Ht1 & Hle1).
    destruct (IH r1 v1 st' H v t1 Ht1) as (t' & Ht' & Hle).
    exists t'. split; [exact Ht'|]. simpl in *.
    destruct (str_eqb (group 1 m) v); simpl; lia.
Qed.

Lemma countVariableUsage_counts :
  forall fuel code registry visited st',
    countVariableUsage fuel code (registry, visited) = Some st' ->
    forall v t, get registry v = Some t ->
      exists t', get (fst st') v = Some t'
        /\ usageCount t + directRefs v code <= usageCount t'.
Proof.
  induction fuel as [|fuel IH]; intros code registry visited st' H;
    [discriminate|].
  cbn [countVariableUsage] in H. unfold directRefs.
  apply (foldM_countStep_counts (countVariableUsage fuel))
    with (visited := visited); [|exact H].
  intros code' r vis st1 H1 v t Hv.
  destruct (IH _ _ _ _ H1 v t Hv) as (t' & Ht' & Hle).
  exists t'. split; [exact Ht'|lia].
Qed.

Lemma countUsage_counts (code : str) (registry : Registry) (v : str)
    (t : Token) :
  get registry v = Some t ->
  exists t', get (countUsage code registry) v = Some t'
    /\ usageCount t + directRefs v code <= usageCount t'.
Proof.
  destruct (countUsage_enough code registry) as (visited & H).
  apply (countVariableUsage_counts _ _ _ _ _ H).
Qed.

Lemma markVariablesSetElsewhere_counts (code : str) (registry : Registry)
    (v : str) (t : Token) :
  get registry v = Some t ->
  exists t', get (markVariablesSetElsewhere code registry) v = Some t'
    /\ usageCount t' = usageCount t.
Proof.
  intros H. unfold markVariablesSetElsewhere.
  rewrite (get_map_entries registry v
             (fun n variable =>
                if test (setRegex n) (blankTokensLayers code)
                then withSetElsewhere true variable else variable)), H.
  simpl. eexists. split; [reflexivity|].
  now destruct (test _ _).
Qed.

(** The analysis pass: every name of the registry ends with a count that is
    at least the number of its direct references in the sources. *)
Lemma analyze_counts (sources : list str) (registry : Registry) (v : str)
    (t : Token) :
  get registry v = Some t ->
  exists t', get (analyze sources registry) v = Some t'
    /\ list_sum (map (directRefs v) sources) <= usageCount t'.
Proof.
  intros H. unfold analyze.
  assert (H0 : exists t0, get (resetUsageCounts registry) v = Some t0
                 /\ 0 <= usageCount t0).
  { unfold resetUsageCounts.
    rewrite (get_map_entries registry v
               (fun _ variable =>
                  withMangling None false (withUsageCount 0 variable))), H.
    simpl. eexists. split; [reflexivity|lia]. }
  destruct H0 as (t0 & Ht0 & _).
  enough (G : forall registry0 t0,
             get registry0 v = Some t0 ->
             exists t',
               get (fold_left
                      (fun registry code =>
                         countUsage code
                           (markVariablesSetElsewhere code registry))
                      sources registry0) v = Some t'
               /\ usageCount t0 + list_sum (map (directRefs v) sources)
                  <= usageCount t').
  { destruct (G _ _ Ht0) as (t' & Ht' & Hle). exists t'.
    split; [exact Ht'|lia]. }
  clear. induction sources as [|code sources IH]; intros registry0 t0 H0.
  - exists t0. simpl. split; [exact H0|lia].
  - simpl.
    destruct (markVariablesSetElsewhere_counts code _ _ _ H0)
      as (t1 & Ht1 & E1).
    destruct (countUsage_counts code _ _ _ Ht1) as (t2 & Ht2 & Hle2).
    destruct (IH _ _ Ht2) as (t' & Ht' & Hle).
    exists t'. split; [exact Ht'|lia].
Qed.

(** ** What the decision leaves alone *)

Section Projections.
Context {X : Type} (P : Token -> X).
Hypothesis P_withMangling : forall n e t, P (withMangling n e t) = P t.

Lemma fold_modify_proj (fs : str -> Token -> Token) :
  (forall v t, P (fs v t) = P t) ->
  forall (vs : list str) (registry : Registry) (k : str),
    option_map P
      (get (fold_left (fun r v => modify r v (fs v)) vs registry) k)
    = option_map P (get registry k).
Proof.
  intros Hfs. induction vs as [|v vs IH]; intros registry k; simpl;
    [reflexivity|].
  rewrite IH, get_modify.
  destruct (str_eqb k v); [|reflexivity].
  destruct (get registry k); simpl; [|reflexivity]. now rewrite Hfs.
Qed.

Lemma decideGroup_proj (manglePrefix : str) (st : Registry * nat)
    (g : str * list str) (k : str) :
  option_map P (get (fst (decideGroup manglePrefix st g)) k)
  = option_map P (get (fst st) k).
Proof.
  destruct st as [registry counter], g as [resolvedValue varNames].
  unfold decideGroup. destruct (shouldMangle _ _ _); cbn [fst].
  - apply (fold_modify_proj
             (fun vName =>
                withMangling
                  (Some (mangledNameFor manglePrefix counter))
                  (str_eqb vName (canonicalVarName registry varNames)))).
    intros; apply P_withMangling.
  - apply (fold_modify_proj (fun _ => withMangling None false)).
    intros; apply P_withMangling.
Qed.

Lemma fold_decideGroup_proj (manglePrefix : str)
    (groups : list (str * list str)) (st : Registry * nat) (k : str) :
  option_map P
    (get (fst (fold_left (decideGroup manglePrefix) groups st)) k)
  = option_map P (get (fst st) k).
Proof.
  revert st. induction groups as [|g groups IH]; intros st; simpl;
    [reflexivity|].
  now rewrite IH, decideGroup_proj.
Qed.

Lemma generateMangledNames_proj (registry : Registry) (manglePrefix : str)
    (k : str) :
  option_map P (get (fst (generateMangledNames registry manglePrefix)) k)
  = option_map P (get registry k).
Proof. apply fold_decideGroup_proj. Qed.
End Projections.

Lemma has_get {V : Type} (m : list (str * V)) (k : str) :
  has m k = true -> exists v, get m k = Some v.
Proof. unfold has. destruct (get m k) as [v|]; [now exists v|discriminate]. Qed.

(** The count that the Transformer reads is the count of the analysis. *)
Lemma decide_counts (sources : list str) (manglePrefix : str) (v : str) :
  has (extractAll sources) v = true ->
  exists t, get (decide sources manglePrefix) v = Some t
    /\ list_sum (map (directRefs v) sources) <= usageCount t.
Proof.
  intros H. apply has_get in H. destruct H as (t0 & H0).
  destruct (analyze_counts sources _ _ _ H0) as (t1 & H1 & Hle).
  pose proof (generateMangledNames_proj usageCount (fun _ _ _ => eq_refl)
                (analyze sources (extractAll sources)) manglePrefix v) as E.
  rewrite H1 in E. unfold decide.
  destruct (get (fst (generateMangledNames _ _)) v) as [t|];
    [|discriminate].
  exists t. split; [reflexivity|]. simpl in E. injection E as E. lia.
Qed.

(** ** The declarations pass *)

Lemma existsb_str_eqb (x : str) (l : list str) :
  existsb (str_eqb x) l = true <-> In x l.
Proof.
  rewrite existsb_exists. split.
  - intros (y & Hy & E). apply str_eqb_eq in E. now subst.
  - intros H. exists x. split; [exact H|apply str_eqb_refl].
Qed.

(** A step only appends, and what it appends does not depend on the
    declarations collected so far. *)
Lemma declarationStep_app (registry : Registry) (d e : list str)
    (m : Match) :
  declarationStep registry (d, e) m =
  (d ++ fst (declarationStep registry ([], e) m),
   snd (declarationStep registry ([], e) m)).
Proof.
  unfold declarationStep.
  destruct (get registry (group 1 m)) as [t|];
    [|simpl; now rewrite app_nil_r].
  destruct (usageCount t =? 0); [simpl; now rewrite app_nil_r|].
  destruct (setElsewhere t); [reflexivity|].
  destruct (mangledName t) as [[|c mangled]|];
    try (simpl; now rewrite app_nil_r).
  destruct (emitDeclaration t && negb (truthyB (isAlias t)));
    [|simpl; now rewrite app_nil_r].
  destruct (negb (existsb _ e)); [reflexivity|simpl; now rewrite app_nil_r].
Qed.

Lemma fold_declarationStep_app (registry : Registry) (ms : list Match) :
  forall d e,
    fold_left (declarationStep registry) ms (d, e) =
    (d ++ fst (fold_left (declarationStep registry) ms ([], e)),
     snd (fold_left (declarationStep registry) ms ([], e))).
Proof.
  induction ms as [|m ms IH]; intros d e; cbn [fold_left fst snd].
  - now rewrite app_nil_r.
  - rewrite (declarationStep_app registry d e m).
    destruct (declarationStep registry ([], e) m) as [new e1]. cbn [fst snd].
    rewrite (IH (d ++ new) e1), (IH new e1). cbn [fst snd].
    now rewrite app_assoc.
Qed.

Lemma fold_declarationStep_cat (registry : Registry) (ms1 ms2 : list Match)
    (e : list str) :
  let st1 := fold_left (declarationStep registry) ms1 ([], e) in
  let st2 := fold_left (declarationStep registry) ms2 ([], snd st1) in
  fold_left (declarationStep registry) (ms1 ++ ms2) ([], e) =
  (fst st1 ++ fst st2, snd st2).
Proof.
  cbn zeta. rewrite fold_left_app.
  destruct (fold_left (declarationStep registry) ms1 ([], e)) as [d1 e1].
  now rewrite fold_declarationStep_app.
Qed.

(** The declarations of the layers, put end to end, are the declarations of
    one pass over all the declaration matches of the asset. *)
Lemma concat_declarationsPerLayer (registry : Registry)
    (layers : list LayerSpan) :
  forall e,
    concat (declarationsPerLayer registry layers e) =
    fst (fold_left (declarationStep registry)
           (flat_map (fun layer => matchAll VAR_DEF_REGEX (content layer))
                     layers)
           ([], e)).
Proof.
  induction layers as [|layer layers IH]; intros e; [reflexivity|].
  cbn [declarationsPerLayer flat_map].
  rewrite fold_declarationStep_cat. cbn [fst].
  unfold layerDeclarations.
  destruct (fold_left (declarationStep registry)
              (matchAll VAR_DEF_REGEX (content layer)) ([], e)) as [d1 e1].
  cbn [concat fst snd]. now rewrite IH.
Qed.

Lemma assetDeclarations_eq (code : str) (registry : Registry) :
  assetDeclarations code registry =
  fst (fold_left (declarationStep registry) (declarationMatches code)
                 ([], [])).
Proof. apply concat_declarationsPerLayer. Qed.

(** [rewriteLayers] splices exactly these lists into the text. *)
Lemma rewriteLayers_declarations (code : str) (registry : Registry) :
  let layers := rev (findTokensLayers code) in
  rewriteLayers code registry =
  fold_left
    (fun result '(layer, declarations) =>
       slice result 0 (start layer) ++ newContent declarations ++
       sliceFrom result (end_ layer))
    (combine layers (declarationsPerLayer registry layers []))
    code.
Proof.
  cbn zeta. unfold rewriteLayers.
  generalize (rev (findTokensLayers code)) as layers.
  generalize (@nil str) as e. generalize code as result.
  intros result e layers. revert result e.
  induction layers as [|layer layers IH]; intros result e; [reflexivity|].
  cbn [fold_left declarationsPerLayer].
  destruct (layerDeclarations registry layer e) as [d e1].
  cbn [combine fold_left]. apply IH.
Qed.

(** Every declaration that a step appends has an origin. *)
Lemma declarationStep_emits (registry : Registry) (e : list str) (m : Match) :
  Forall (emits registry m) (fst (declarationStep registry ([], e) m)).
Proof.
  unfold declarationStep.
  destruct (get registry (group 1 m)) as [t|] eqn:Hget; [|constructor].
  destruct (usageCount t =? 0) eqn:Hu; [constructor|].
  apply Nat.eqb_neq in Hu.
  destruct (setElsewhere t) eqn:Hs.
  { repeat constructor. now apply (emits_kept _ _ t). }
  destruct (mangledName t) as [[|c mangled]|] eqn:Hm; try constructor.
  destruct (emitDeclaration t && negb (truthyB (isAlias t))) eqn:He;
    [|constructor].
  apply andb_true_iff in He. destruct He as [He Ha].
  apply negb_true_iff in Ha.
  destruct (negb (existsb _ e)); [|constructor].
  repeat constructor. now apply (emits_mangled _ _ t).
Qed.

Lemma fold_declarationStep_emits (registry : Registry) (ms : list Match) :
  forall e,
    Forall (fun d => exists m, In m ms /\ emits registry m d)
           (fst (fold_left (declarationStep registry) ms ([], e))).
Proof.
  induction ms as [|m ms IH]; intros e; [constructor|].
  change (m :: ms) with ([m] ++ ms).
  rewrite fold_declarationStep_cat. cbn [fst fold_left].
  apply Forall_app. split.
  - eapply Forall_impl; [|apply declarationStep_emits].
    intros d Hd. exists m. split; [now left|exact Hd].
  - eapply Forall_impl; [|apply IH].
    intros d (m' & Hin & Hd). exists m'. split; [now right|exact Hd].
Qed.

(** A match of an unused variable is skipped. *)
Lemma declarationStep_unused (registry : Registry) (st : list str * list str)
    (m : Match) (t : Token) :
  get registry (group 1 m) = Some t -> usageCount t = 0 ->
  declarationStep registry st m = st.
Proof.
  intros Hget Hu. unfold declarationStep. destruct st as [d e].
  now rewrite Hget, Hu.
Qed.

(** A match of a used variable that is set elsewhere is copied. *)
Lemma declarationStep_kept (registry : Registry) (d e : list str)
    (m : Match) (t : Token) :
  get registry (group 1 m) = Some t -> usageCount t <> 0 ->
  setElsewhere t = true ->
  declarationStep registry (d, e) m =
  (d ++ [group 1 m ++ ": " ++ group 2 m], e).
Proof.
  intros Hget Hu Hs. unfold declarationStep. rewrite Hget, Hs.
  apply Nat.eqb_neq in Hu. now rewrite Hu.
Qed.

(** What a pass has appended stays. *)
Lemma fold_declarationStep_In (registry : Registry) (ms : list Match)
    (m : Match) (x : str) :
  In m ms ->
  (forall d e, In x (fst (declarationStep registry (d, e) m))) ->
  forall d e, In x (fst (fold_left (declarationStep registry) ms (d, e))).
Proof.
  intros Hin Hx. induction ms as [|m' ms IH]; [contradiction|].
  intros d e. cbn [fold_left].
  destruct Hin as [->|Hin].
  - specialize (Hx d e).
    destruct (declarationStep registry (d, e) m) as [d1 e1].
    rewrite fold_declarationStep_app. cbn [fst] in *.
    apply in_or_app. now left.
  - destruct (declarationStep registry (d, e) m') as [d1 e1]. now apply IH.
Qed.

(** ** The decision for one group *)

Lemma totalUsage_sum (registry : Registry) (varNames : list str) :
  totalUsage registry varNames =
  list_sum (map (fun v => usageCount (getToken registry v)) varNames).
Proof.
  unfold totalUsage.
  enough (G : forall acc,
             fold_left (fun totalUsage vName =>
                          totalUsage + usageCount (getToken registry vName))
                       varNames acc
             = acc + list_sum
                       (map (fun v => usageCount (getToken registry v))
                            varNames))
    by apply (G 0).
  induction varNames as [|v vs IH]; intros acc; simpl; [lia|].
  rewrite IH. lia.
Qed.

(** Writing the same [mangledName] to the tokens of some names: the names
    written to carry it afterwards, with the [emitDeclaration] written for
    them, and the other tokens are as before. *)
Lemma fold_withMangling_kept (n : option str) (e : str -> bool)
    (vs : list str) :
  forall (registry : Registry) (k : str) (t : Token),
    get registry k = Some t ->
    mangledName t = n -> emitDeclaration t = e k ->
    exists t',
      get (fold_left (fun r v => modify r v (withMangling n (e v)))
                     vs registry) k = Some t'
      /\ mangledName t' = n /\ emitDeclaration t' = e k.
Proof.
  induction vs as [|v vs IH]; intros registry k t Hget Hn He; simpl.
  - now exists t.
  - destruct (str_eqb k v) eqn:E.
    + apply str_eqb_eq in E. subst v.
      apply (IH _ k (withMangling n (e k) t)); trivial.
      now rewrite get_modify_same, Hget.
    + apply (IH _ k t); trivial.
      rewrite get_modify_other; trivial. now apply str_eqb_neq.
Qed.

Lemma fold_withMangling_member (n : option str) (e : str -> bool)
    (vs : list str) :
  forall (registry : Registry) (k : str) (t : Token),
    In k vs -> get registry k = Some t ->
    exists t',
      get (fold_left (fun r v => modify r v (withMangling n (e v)))
                     vs registry) k = Some t'
      /\ mangledName t' = n /\ emitDeclaration t' = e k.
Proof.
  induction vs as [|v vs IH]; intros registry k t Hin Hget; [contradiction|].
  simpl. destruct (str_eqb k v) eqn:E.
  - apply str_eqb_eq in E. subst v.
    apply (fold_withMangling_kept n e vs _ k (withMangling n (e k) t));
      trivial.
    now rewrite get_modify_same, Hget.
  - destruct Hin as [->|Hin]; [now rewrite str_eqb_refl in E|].
    apply (IH _ k t Hin).
    rewrite get_modify_other; trivial. now apply str_eqb_neq.
Qed.

Lemma fold_modify_other {V : Type} (fs : str -> V -> V) (vs : list str) :
  forall (m : list (str * V)) (k : str),
    ~ In k vs ->
    get (fold_left (fun r v => modify r v (fs v)) vs m) k = get m k.
Proof.
  induction vs as [|v vs IH]; intros m k Hk; simpl; [reflexivity|].
  rewrite IH by (intros H; apply Hk; now right).
  apply get_modify_other. intros ->. apply Hk. now left.
Qed.

(** The two outcomes of [decideGroup]. *)
Lemma decideGroup_mangle (manglePrefix : str) (registry : Registry)
    (counter : nat) (resolvedValue : str) (varNames : list str) :
  shouldMangle (mangledNameFor manglePrefix counter) (length resolvedValue)
               (totalUsage registry varNames) = true ->
  decideGroup manglePrefix (registry, counter) (resolvedValue, varNames) =
  (fold_left
     (fun r vName =>
        modify r vName
          (withMangling (Some (mangledNameFor manglePrefix counter))
             (str_eqb vName (canonicalVarName registry varNames))))
     varNames registry,
   S counter).
Proof. intros H. unfold decideGroup. now rewrite H. Qed.

Lemma decideGroup_inline (manglePrefix : str) (registry : Registry)
    (counter : nat) (resolvedValue : str) (varNames : list str) :
  shouldMangle (mangledNameFor manglePrefix counter) (length resolvedValue)
               (totalUsage registry varNames) = false ->
  decideGroup manglePrefix (registry, counter) (resolvedValue, varNames) =
  (fold_left
     (fun r vName => modify r vName (withMangling None false))
     varNames registry,
   counter).
Proof. intros H. unfold decideGroup. now rewrite H. Qed.

Lemma toString36_length (n : nat) : 1 <= length (toString36 n).
Proof.
  assert (G : forall fuel m acc,
             length acc <= length (toString36_aux fuel m acc)).
  { induction fuel as [|fuel IH]; intros m acc; cbn [toString36_aux];
      [lia|].
    destruct (m / 36 =? 0); [cbn [length]; lia|].
    etransitivity; [|apply IH]. cbn [length]. lia. }
  unfold toString36. cbn [toString36_aux].
  destruct (n / 36 =? 0); [cbn [length]; lia|].
  etransitivity; [|apply G]. cbn [length]. lia.
Qed.

(** The cost model in the loop body: the decision that [decideGroup] takes
    for a group, from the counts of the registry and the counter that it is
    given. *)
Lemma decideGroup_cost_model (manglePrefix : str) (registry : Registry)
    (counter : nat) (resolvedValue : str) (varNames : list str) :
  let syntheticName := manglePrefix ++ toString36 counter in
  let totalUsage :=
    list_sum (map (fun v => usageCount (getToken registry v)) varNames) in
  let declarationCost := length syntheticName + 2 + length resolvedValue + 1 in
  let referenceCost := 5 + length syntheticName + 1 in
  let mangleCost := declarationCost + totalUsage * referenceCost in
  let inlineCost := totalUsage * length resolvedValue in
  let st' :=
    decideGroup manglePrefix (registry, counter) (resolvedValue, varNames) in
  (mangleCost < inlineCost ->
   snd st' = S counter
   /\ forall v t, In v varNames -> get registry v = Some t ->
        exists t', get (fst st') v = Some t'
          /\ mangledName t' = Some syntheticName)
  /\ (inlineCost <= mangleCost ->
      snd st' = counter
      /\ forall v t, In v varNames -> get registry v = Some t ->
           exists t', get (fst st') v = Some t' /\ mangledName t' = None).
Proof.
  cbn zeta. rewrite <- totalUsage_sum.
  fold (mangledNameFor manglePrefix counter).
  split; intros Hcost.
  - rewrite decideGroup_mangle
      by (apply Nat.ltb_lt; unfold mangleCost, declarationCost, referenceCost,
          inlineCost; exact Hcost).
    split; [reflexivity|]. intros v t Hin Hget. cbn [fst].
    destruct (fold_withMangling_member
                (Some (mangledNameFor manglePrefix counter))
                (fun vName =>
                   str_eqb vName (canonicalVarName registry varNames))
                varNames registry v t Hin Hget) as (t' & Ht' & Hn & _).
    now exists t'.
  - rewrite decideGroup_inline
      by (apply Nat.ltb_ge; unfold mangleCost, declarationCost, referenceCost,
          inlineCost; exact Hcost).
    split; [reflexivity|]. intros v t Hin Hget. cbn [fst].
    destruct (fold_withMangling_member None (fun _ => false)
                varNames registry v t Hin Hget) as (t' & Ht' & Hn & _).
    now exists t'.
Qed.

(** ** Blanking the tokens layers *)

(** Blanking a span that lies within the text keeps the length of the text
    and every code unit outside the span. *)
Lemma blank_span_length (s : str) (a b : nat) :
  a <= b -> b <= length s ->
  length (slice s 0 a ++ spaces (b - a) ++ sliceFrom s b) = length s.
Proof.
  intros Hab Hb. unfold slice, sliceFrom, spaces.
  rewrite !length_app, length_firstn, repeat_length, !length_skipn. lia.
Qed.

Lemma blank_span_outside (s : str) (a b i : nat) :
  a <= b -> b <= length s -> i < a \/ b <= i ->
  nth_error (slice s 0 a ++ spaces (b - a) ++ sliceFrom s b) i = nth_error s i.
Proof.
  intros Hab Hb Hi. unfold slice, sliceFrom, spaces. cbn [skipn].
  rewrite Nat.sub_0_r.
  assert (Hlen : length (firstn a s) = a) by (rewrite length_firstn; lia).
  destruct Hi as [Hi|Hi].
  - rewrite nth_error_app1 by lia. rewrite nth_error_firstn.
    now replace (i <? a) with true by (symmetry; apply Nat.ltb_lt; lia).
  - rewrite nth_error_app2 by lia. rewrite Hlen.
    rewrite nth_error_app2 by (rewrite repeat_length; lia).
    rewrite repeat_length, nth_error_skipn. f_equal. lia.
Qed.

(** The matches of a scan end within the text. *)
Lemma matchAllFrom_end (r : regex) (s : str) :
  forall pos skip m,
    In m (matchAllFrom r pos s skip) ->
    index m + length (text m) <= pos + length s.
Proof.
  induction s as [|c s IH]; intros pos skip m H.
  - destruct skip as [|skip]; cbn [matchAllFrom] in H; [|contradiction].
    destruct (matchAt r pos []) as [m0|] eqn:E; [|contradiction].
    destruct H as [<-|[]]. apply matchAt_text in E. lia.
  - cbn [length]. destruct skip as [|skip]; cbn [matchAllFrom] in H.
    + destruct (matchAt r pos (c :: s)) as [m0|] eqn:E.
      * destruct H as [<-|H].
        -- apply matchAt_text in E. cbn [length] in E. lia.
        -- apply IH in H. lia.
      * apply IH in H. lia.
    + apply IH in H. lia.
Qed.

Lemma findMatchingBrace_loop_bounds (len : nat) (s : str) :
  forall i depth,
    i + length s = len ->
    i <= findMatchingBrace_loop len s i depth <= len.
Proof.
  induction s as [|c s IH]; intros i depth Hlen; cbn [findMatchingBrace_loop].
  - simpl in Hlen. lia.
  - cbn [length] in Hlen.
    destruct (_ =? 0); [lia|].
    specialize (IH (S i)
                  (if (c =? 123)%N then S depth
                   else if (c =? 125)%N then depth - 1 else depth)
                  ltac:(lia)).
    lia.
Qed.

(** The span of a tokens layer starts in the text, does not end before it
    starts, and ends at most one code unit past the text. *)
Lemma findTokensLayers_bounds (code : str) :
  Forall (fun layer => start layer <= length code
                       /\ start layer <= end_ layer
                       /\ end_ layer <= S (length code))
         (findTokensLayers code).
Proof.
  unfold findTokensLayers. apply Forall_forall. intros layer Hin.
  apply in_map_iff in Hin. destruct Hin as (m & <- & Hin).
  apply matchAllFrom_end in Hin. cbn [start end_] in *.
  assert (H : index m + length (text m)
              <= findMatchingBrace code (index m + length (text m))
              <= length code).
  { unfold findMatchingBrace. apply findMatchingBrace_loop_bounds.
    rewrite length_skipn. lia. }
  lia.
Qed.

(** The length of the blanked copy: the length of the text, or the end of a
    span where a span ends past the text. *)
Lemma blank_span_length_max (s : str) (a b : nat) :
  a <= length s -> a <= b ->
  length (slice s 0 a ++ spaces (b - a) ++ sliceFrom s b)
  = Nat.max (length s) b.
Proof.
  intros Ha Hab. unfold slice, sliceFrom, spaces.
  rewrite !length_app, length_firstn, repeat_length, !length_skipn. lia.
Qed.

Lemma blankTokensLayers_length (code : str) :
  length (blankTokensLayers code)
  = fold_left (fun n layer => Nat.max n (end_ layer))
              (findTokensLayers code) (length code).
Proof.
  unfold blankTokensLayers.
  pose proof (findTokensLayers_bounds code) as Hall. revert Hall.
  generalize (findTokensLayers code). intros layers.
  enough (G : forall s,
             length code <= length s ->
             Forall (fun layer => start layer <= length code
                                  /\ start layer <= end_ layer
                                  /\ end_ layer <= S (length code)) layers ->
             length
               (fold_left
                  (fun codeWithoutTokens layer =>
                     slice codeWithoutTokens 0 (start layer) ++
                     spaces (end_ layer - start layer) ++
                     sliceFrom codeWithoutTokens (end_ layer))
                  layers s)
             = fold_left (fun n layer => Nat.max n (end_ layer)) layers
                         (length s))
    by (apply G; lia).
  induction layers as [|layer layers IH]; intros s Hs Hall; [reflexivity|].
  inversion Hall as [|? ? (Ha & Hab & Hb) Hrest]; subst. cbn [fold_left].
  rewrite IH; [|rewrite blank_span_length_max; lia|exact Hrest].
  now rewrite blank_span_length_max by lia.
Qed.

Lemma fold_max_ge (layers : list LayerSpan) :
  forall n, n <= fold_left (fun n layer => Nat.max n (end_ layer)) layers n.
Proof.
  induction layers as [|layer layers IH]; intros n; cbn [fold_left]; [lia|].
  etransitivity; [|apply IH]. lia.
Qed.

Lemma fold_max_le (layers : list LayerSpan) (bound : nat) :
  Forall (fun layer => end_ layer <= bound) layers ->
  forall n, n <= bound ->
    fold_left (fun n layer => Nat.max n (end_ layer)) layers n <= bound.
Proof.
  induction layers as [|layer layers IH]; intros Hall n Hn; cbn [fold_left];
    [exact Hn|].
  inversion Hall; subst. apply IH; [assumption|lia].
Qed.

Lemma fold_max_reaches (layers : list LayerSpan) (layer : LayerSpan) :
  In layer layers ->
  forall n,
    end_ layer <= fold_left (fun n layer => Nat.max n (end_ layer)) layers n.
Proof.
  induction layers as [|l layers IH]; intros Hin n; [contradiction|].
  cbn [fold_left]. destruct Hin as [->|Hin]; [|now apply IH].
  etransitivity; [|apply fold_max_ge]. lia.
Qed.

(** When every tokens layer is closed within the text, the blanked copy has
    the length of the text and agrees with it outside the layers. *)
Lemma blankTokensLayers_balanced (code : str) :
  Forall (fun layer => end_ layer <= length code) (findTokensLayers code) ->
  length (blankTokensLayers code) = length code
  /\ forall i,
       Forall (fun layer => i < start layer \/ end_ layer <= i)
              (findTokensLayers code) ->
       nth_error (blankTokensLayers code) i = nth_error code i.
Proof.
  unfold blankTokensLayers.
  pose proof (findTokensLayers_bounds code) as Hb. revert Hb.
  generalize (findTokensLayers code). intros layers Hb Hclosed.
  assert (Hall : Forall (fun layer => start layer <= end_ layer
                                      /\ end_ layer <= length code) layers).
  { apply Forall_forall. intros layer Hin.
    rewrite Forall_forall in Hb, Hclosed.
    specialize (Hb layer Hin). specialize (Hclosed layer Hin). lia. }
  clear Hb Hclosed. revert Hall.
  enough (G : forall s,
             length s = length code ->
             Forall (fun layer => start layer <= end_ layer
                                  /\ end_ layer <= length code) layers ->
             let s' :=
               fold_left
                 (fun codeWithoutTokens layer =>
                    slice codeWithoutTokens 0 (start layer) ++
                    spaces (end_ layer - start layer) ++
                    sliceFrom codeWithoutTokens (end_ layer))
                 layers s in
             length s' = length code
             /\ forall i,
                  Forall (fun layer => i < start layer \/ end_ layer <= i)
                         layers ->
                  nth_error s' i = nth_error s i)
    by (intros H; now apply G).
  induction layers as [|layer layers IH]; intros s Hs Hall; cbn zeta.
  - split; [exact Hs|reflexivity].
  - inversion Hall as [|? ? [Hab Hb] Hrest]; subst. cbn [fold_left].
    destruct (IH (slice s 0 (start layer) ++
                  spaces (end_ layer - start layer) ++
                  sliceFrom s (end_ layer))) as [Hlen Hnth].
    { rewrite blank_span_length; lia. }
    { exact Hrest. }
    split; [exact Hlen|].
    intros i Hi. inversion Hi as [|? ? Hi1 Hi2]; subst.
    rewrite (Hnth i Hi2). apply blank_span_outside; lia.
Qed.

(** When a tokens layer is not closed, the blanked copy is one code unit
    longer than the text. *)
Lemma blankTokensLayers_unbalanced (code : str) (layer : LayerSpan) :
  In layer (findTokensLayers code) ->
  end_ layer = S (length code) ->
  length (blankTokensLayers code) = S (length code).
Proof.
  intros Hin Hend. rewrite blankTokensLayers_length.
  apply Nat.le_antisymm.
  - apply fold_max_le; [|lia].
    eapply Forall_impl; [|apply findTokensLayers_bounds].
    intros l Hl. cbn beta in Hl. lia.
  - rewrite <- Hend. now apply fold_max_reaches.
Qed.

(** ** A bundle without tokens layers *)



(** ** Value groups *)

(** Resolution reads nothing of a token but its value. *)
Lemma resolveVariableValue_fuel_ext (r1 r2 : Registry) :
  (forall k, option_map value (get r1 k) = option_map value (get r2 k)) ->
  forall fuel varName depth,
    resolveVariableValue_fuel fuel varName r1 depth =
    resolveVariableValue_fuel fuel varName r2 depth.
Proof.
  intros Hval. induction fuel as [|fuel IH]; intros varName depth;
    [reflexivity|].
  cbn [resolveVariableValue_fuel].
  destruct (10 <? depth); [reflexivity|].
  specialize (Hval varName).
  destruct (get r1 varName) as [t1|], (get r2 varName) as [t2|];
    try discriminate; [|reflexivity].
  injection Hval as ->. unfold replaceM.
  now rewrite (mapM_ext _ (fun m => resolveVariableValue_fuel fuel (group 1 m)
                                      r2 (depth + 1)))
    by (intros; apply IH).
Qed.

Lemma resolveVariableValue_ext (r1 r2 : Registry) (varName : str)
    (depth : nat) :
  (forall k, option_map value (get r1 k) = option_map value (get r2 k)) ->
  resolveVariableValue varName r1 depth = resolveVariableValue varName r2 depth.
Proof.
  intros H. unfold resolveVariableValue.
  now rewrite (resolveVariableValue_fuel_ext r1 r2 H).
Qed.

Lemma get_None_key {V : Type} (m : list (str * V)) (k : str) :
  get m k = None -> ~ In k (map fst m).
Proof.
  intros H Hin. apply In_key_get in Hin. destruct Hin as (v & Hv). congruence.
Qed.

Lemma keys_set_new {V : Type} (m : list (str * V)) (k : str) (v : V) :
  get m k = None -> map fst (set m k v) = map fst m ++ [k].
Proof.
  induction m as [|[j w] m IH]; simpl; [reflexivity|].
  destruct (str_eqb k j); [discriminate|]. intros H. simpl. now rewrite IH.
Qed.

Lemma NoDup_snoc {A : Type} (l : list A) (x : A) :
  NoDup l -> ~ In x l -> NoDup (l ++ [x]).
Proof.
  intros Hl Hx. apply NoDup_app; [exact Hl|repeat constructor; auto|].
  intros y Hy [<-|[]]. contradiction.
Qed.

(** The groups of [groupByValue]: one group for each resolved value, every
    member resolves to the value of its group, and every used variable is a
    member of the group of its resolved value. *)
Lemma groupByValue_groups (registry : Registry) :
  let groups := groupByValue registry in
  NoDup (map fst groups)
  /\ (forall r names w,
        get groups r = Some names -> In w names ->
        resolveVariableValue w registry 0 = r)
  /\ (forall w t,
        In (w, t) registry -> usageCount t <> 0 ->
        exists names,
          get groups (resolveVariableValue w registry 0) = Some names
          /\ In w names).
Proof.
  cbn zeta. unfold groupByValue.
  set (step := fun (valueToVars : list (str * list str))
                   '((varName, variable) : str * Token) => _).
  enough (G : forall entries acc,
             NoDup (map fst acc) ->
             (forall r names w, get acc r = Some names -> In w names ->
                                resolveVariableValue w registry 0 = r) ->
             let groups := fold_left step entries acc in
             NoDup (map fst groups)
             /\ (forall r names w,
                   get groups r = Some names -> In w names ->
                   resolveVariableValue w registry 0 = r)
             /\ (forall w names,
                   get acc (resolveVariableValue w registry 0) = Some names ->
                   In w names ->
                   exists names',
                     get groups (resolveVariableValue w registry 0)
                     = Some names' /\ In w names')
             /\ (forall w t,
                   In (w, t) entries -> usageCount t <> 0 ->
                   exists names,
                     get groups (resolveVariableValue w registry 0)
                     = Some names /\ In w names)).
  { destruct (G registry []) as (H1 & H2 & _ & H4);
      [constructor|discriminate|]. auto. }
  induction entries as [|[w0 t0] entries IH]; intros acc Hnd Hres; cbn zeta.
  - cbn [fold_left]. repeat split; trivial.
    + intros w names H Hin. now exists names.
    + intros w t [].
  - cbn [fold_left].
    assert (Hstep : NoDup (map fst (step acc (w0, t0)))
              /\ (forall r names w,
                    get (step acc (w0, t0)) r = Some names -> In w names ->
                    resolveVariableValue w registry 0 = r)
              /\ (forall w names,
                    get acc (resolveVariableValue w registry 0) = Some names ->
                    In w names ->
                    exists names',
                      get (step acc (w0, t0))
                          (resolveVariableValue w registry 0)
                      = Some names' /\ In w names')
              /\ (usageCount t0 <> 0 ->
                  exists names,
                    get (step acc (w0, t0))
                        (resolveVariableValue w0 registry 0)
                    = Some names /\ In w0 names)).
    { unfold step. destruct (usageCount t0 =? 0) eqn:Hu.
      { apply Nat.eqb_eq in Hu. repeat split; trivial.
        - intros w names H Hin. now exists names.
        - intros Hne. contradiction. }
      destruct (get acc (resolveVariableValue w0 registry 0))
        as [vars|] eqn:Hget.
      - repeat split.
        + now rewrite keys_modify.
        + intros r names w H Hin. rewrite get_modify in H.
          destruct (str_eqb r _) eqn:E; [|now apply (Hres r names)].
          apply str_eqb_eq in E. subst r. rewrite Hget in H.
          injection H as <-. apply in_app_or in Hin.
          destruct Hin as [Hin|[<-|[]]]; [|reflexivity].
          now apply (Hres _ vars).
        + intros w names H Hin. rewrite get_modify, H.
          destruct (str_eqb _ _); [|now exists names].
          exists (names ++ [w0]). split; [reflexivity|].
          apply in_or_app. now left.
        + intros _. rewrite get_modify_same, Hget.
          exists (vars ++ [w0]). split; [reflexivity|].
          apply in_or_app. right. now left.
      - repeat split.
        + rewrite keys_set_new by exact Hget.
          apply NoDup_snoc; [exact Hnd|now apply get_None_key].
        + intros r names w H Hin. rewrite get_set in H.
          destruct (str_eqb r _) eqn:E; [|now apply (Hres r names)].
          apply str_eqb_eq in E. subst r. injection H as <-.
          destruct Hin as [<-|[]]. reflexivity.
        + intros w names H Hin. rewrite get_set.
          destruct (str_eqb _ _) eqn:E; [|now exists names].
          apply str_eqb_eq in E. rewrite E in H. congruence.
        + intros _. rewrite get_set, str_eqb_refl.
          exists [w0]. split; [reflexivity|now left]. }
    destruct Hstep as (S1 & S2 & S3 & S4).
    destruct (IH (step acc (w0, t0)) S1 S2) as (I1 & I2 & I3 & I4).
    repeat split; trivial.
    + intros w names H Hin.
      destruct (S3 w names H Hin) as (names1 & H1 & Hin1).
      now apply (I3 w names1).
    + intros w t [E|Hin] Hu.
      * injection E as -> ->.
        destruct (S4 Hu) as (names1 & H1 & Hin1). now apply (I3 w names1).
      * now apply (I4 w t).
Qed.

Lemma NoDup_keys_get {V : Type} (m : list (str * V)) (k : str) (v : V) :
  NoDup (map fst m) -> In (k, v) m -> get m k = Some v.
Proof.
  induction m as [|[j w] m IH]; simpl; [tauto|].
  intros Hnd [E|Hin].
  - injection E as -> ->. now rewrite str_eqb_refl.
  - inversion Hnd as [|? ? Hj Hnd']; subst.
    destruct (str_eqb k j) eqn:E; [|now apply IH].
    apply str_eqb_eq in E. subst j.
    exfalso. apply Hj. now apply (in_map fst) in Hin.
Qed.

Lemma groupByValue_disjoint (registry : Registry) :
  disjointGroups (groupByValue registry).
Proof.
  destruct (groupByValue_groups registry) as (Hnd & Hres & _).
  unfold disjointGroups.
  revert Hnd Hres. generalize (groupByValue registry). intros gs.
  induction gs as [|[r names] gs IH]; intros Hnd Hres; [constructor|].
  cbn [map fst] in Hnd. inversion Hnd as [|? ? Hr Hnd']; subst.
  constructor.
  - apply Forall_forall. intros [r' names'] Hin w Hw Hw'. cbn [snd] in *.
    assert (E1 : resolveVariableValue w registry 0 = r).
    { apply (Hres r names); trivial. simpl. now rewrite str_eqb_refl. }
    assert (E2 : resolveVariableValue w registry 0 = r').
    { apply (Hres r' names'); trivial.
      apply NoDup_keys_get; [exact Hnd|now right]. }
    apply Hr. rewrite <- E1, E2. now apply (in_map fst) in Hin.
  - apply IH; [exact Hnd'|].
    intros r' names' w H Hw. apply (Hres r' names'); trivial.
    simpl. destruct (str_eqb r' r) eqn:E; [|exact H].
    apply str_eqb_eq in E. subst r'.
    exfalso. apply Hr. eapply get_Some_key, H.
Qed.

(** What [decideGroup] does to the members of its group and to the others. *)
Lemma decideGroup_uniform (manglePrefix : str) (registry : Registry)
    (counter : nat) (resolvedValue : str) (varNames : list str) :
  uniform (fst (decideGroup manglePrefix (registry, counter)
                            (resolvedValue, varNames))) varNames.
Proof.
  assert (Hkey : forall n e w t',
             get (fold_left (fun r v => modify r v (withMangling n (e v)))
                            varNames registry) w = Some t' ->
             exists t, get registry w = Some t).
  { intros n e w t' H. apply In_key_get. apply get_Some_key in H.
    revert H. generalize registry.
    induction varNames as [|v vs IH]; intros r H; [exact H|].
    cbn [fold_left] in H. apply IH in H. now rewrite keys_modify in H. }
  destruct (shouldMangle (mangledNameFor manglePrefix counter)
              (length resolvedValue) (totalUsage registry varNames)) eqn:E.
  - rewrite (decideGroup_mangle _ _ _ _ _ E). cbn [fst].
    exists (Some (mangledNameFor manglePrefix counter)),
           (canonicalVarName registry varNames).
    intros w t' Hin Hget.
    destruct (Hkey (Some (mangledNameFor manglePrefix counter))
                (fun v => str_eqb v (canonicalVarName registry varNames))
                _ _ Hget) as (t & Ht).
    destruct (fold_withMangling_member
                (Some (mangledNameFor manglePrefix counter))
                (fun v => str_eqb v (canonicalVarName registry varNames))
                _ _ _ _ Hin Ht)
      as (t1 & Ht1 & Hn & He).
    rewrite Hget in Ht1. injection Ht1 as <-. split; [exact Hn|].
    rewrite He. apply str_eqb_eq.
  - rewrite (decideGroup_inline _ _ _ _ _ E). cbn [fst].
    exists None, []. intros w t' Hin Hget.
    destruct (Hkey None (fun _ => false) _ _ Hget) as (t & Ht).
    destruct (fold_withMangling_member None (fun _ => false) _ _ _ _ Hin Ht)
      as (t1 & Ht1 & Hn & He).
    rewrite Hget in Ht1. injection Ht1 as <-. split; [exact Hn|].
    rewrite He. discriminate.
Qed.

Lemma decideGroup_other (manglePrefix : str) (st : Registry * nat)
    (g : str * list str) (w : str) :
  ~ In w (snd g) ->
  get (fst (decideGroup manglePrefix st g)) w = get (fst st) w.
Proof.
  destruct st as [registry counter], g as [resolvedValue varNames].
  intros Hw. unfold decideGroup.
  destruct (shouldMangle _ _ _); cbn [fst];
    now apply (fold_modify_other (V := Token)).
Qed.

Lemma fold_decideGroup_other (manglePrefix : str)
    (groups : list (str * list str)) (w : str) :
  Forall (fun g => ~ In w (snd g)) groups ->
  forall st,
    get (fst (fold_left (decideGroup manglePrefix) groups st)) w
    = get (fst st) w.
Proof.
  induction groups as [|g gs IH]; intros Hall st; [reflexivity|].
  inversion Hall as [|? ? Hg Hrest]; subst. cbn [fold_left].
  rewrite IH by exact Hrest. now apply decideGroup_other.
Qed.

(** After the loop over disjoint groups every group is uniform. *)
Lemma fold_decideGroup_uniform (manglePrefix : str)
    (groups : list (str * list str)) :
  disjointGroups groups ->
  forall st g,
    In g groups ->
    uniform (fst (fold_left (decideGroup manglePrefix) groups st)) (snd g).
Proof.
  unfold disjointGroups.
  induction groups as [|g0 gs IH]; intros Hdis st g Hin; [contradiction|].
  inversion Hdis as [|? ? Hfirst Hrest]; subst. cbn [fold_left].
  destruct Hin as [->|Hin]; [|now apply IH].
  destruct st as [registry counter], g as [resolvedValue varNames].
  destruct (decideGroup_uniform manglePrefix registry counter resolvedValue
              varNames) as (n & canonical & Hu).
  exists n, canonical. intros w t Hw Hget. apply Hu; [exact Hw|].
  rewrite <- Hget. symmetry. apply fold_decideGroup_other.
  eapply Forall_impl; [|exact Hfirst].
  intros g' Hg'. now apply Hg'.
Qed.

(** The registry that [generateMangledNames] returns: two used variables
    with the same resolved value carry the same synthetic name (or none), and
    at most one of them carries the declaration. *)
Lemma generateMangledNames_groups (registry : Registry) (manglePrefix : str)
    (w1 w2 : str) (t1 t2 : Token) :
  let registry' := fst (generateMangledNames registry manglePrefix) in
  get registry' w1 = Some t1 -> get registry' w2 = Some t2 ->
  usageCount t1 <> 0 -> usageCount t2 <> 0 ->
  resolveVariableValue w1 registry' 0 = resolveVariableValue w2 registry' 0 ->
  mangledName t1 = mangledName t2
  /\ (emitDeclaration t1 = true -> emitDeclaration t2 = true -> w1 = w2).
Proof.
  cbn zeta. intros H1 H2 Hu1 Hu2 Hres.
  assert (Hval : forall k,
             option_map value
               (get (fst (generateMangledNames registry manglePrefix)) k)
             = option_map value (get registry k))
    by (intros k; now apply generateMangledNames_proj).
  rewrite !(resolveVariableValue_ext _ registry _ _ Hval) in Hres.
  destruct (groupByValue_groups registry) as (Hnd & _ & Hcover).
  assert (Hin : forall w t,
             get (fst (generateMangledNames registry manglePrefix)) w
             = Some t ->
             usageCount t <> 0 ->
             exists names,
               get (groupByValue registry)
                   (resolveVariableValue w registry 0) = Some names
               /\ In w names).
  { intros w t Hget Hu.
    pose proof (generateMangledNames_proj usageCount (fun _ _ _ => eq_refl)
                  registry manglePrefix w) as E.
    rewrite Hget in E. destruct (get registry w) as [t0|] eqn:H0;
      [|discriminate].
    injection E as E. apply (Hcover w t0); [now apply get_In|congruence]. }
  destruct (Hin _ _ H1 Hu1) as (names1 & G1 & In1).
  destruct (Hin _ _ H2 Hu2) as (names2 & G2 & In2).
  rewrite Hres, G2 in G1. injection G1 as <-.
  destruct (fold_decideGroup_uniform manglePrefix (groupByValue registry)
              (groupByValue_disjoint registry) (registry, 0)
              (resolveVariableValue w2 registry 0, names2))
    as (n & canonical & Hu); [now apply get_In|].
  cbn [snd] in Hu.
  destruct (Hu w1 t1 In1 H1) as (N1 & E1).
  destruct (Hu w2 t2 In2 H2) as (N2 & E2).
  split; [congruence|]. intros He1 He2. rewrite (E1 He1), (E2 He2).
  reflexivity.
Qed.

(** The members of the groups are names of the registry, so that
    [registry.get(name)!] finds a token for each of them. *)
Lemma groupByValue_members (registry : Registry) (r : str)
    (names : list str) (w : str) :
  get (groupByValue registry) r = Some names -> In w names ->
  exists t, get registry w = Some t.
Proof.
  intros Hget Hin. apply In_key_get. revert r names w Hget Hin.
  unfold groupByValue.
  set (step := fun (valueToVars : list (str * list str))
                   '((varName, variable) : str * Token) => _).
  enough (G : forall entries acc,
             (forall w t, In (w, t) entries -> In w (map fst registry)) ->
             (forall r names w, get acc r = Some names -> In w names ->
                                In w (map fst registry)) ->
             forall r names w,
               get (fold_left step entries acc) r = Some names ->
               In w names -> In w (map fst registry)).
  { apply (G registry []); [|discriminate].
    intros w t H. now apply (in_map fst) in H. }
  induction entries as [|[w0 t0] entries IH]; intros acc Hent Hacc;
    [exact Hacc|].
  cbn [fold_left]. apply IH; [intros w t H; apply (Hent w t); now right|].
  assert (Hw0 : In w0 (map fst registry)) by (apply (Hent w0 t0); now left).
  unfold step. destruct (usageCount t0 =? 0); [exact Hacc|].
  destruct (get acc (resolveVariableValue w0 registry 0)) as [vars|] eqn:Hg.
  - intros r names w H Hin. rewrite get_modify in H.
    destruct (str_eqb r _) eqn:E; [|now apply (Hacc r names)].
    apply str_eqb_eq in E. subst r. rewrite Hg in H. injection H as <-.
    apply in_app_or in Hin. destruct Hin as [Hin|[<-|[]]]; [|exact Hw0].
    now apply (Hacc (resolveVariableValue w0 registry 0) vars).
  - intros r names w H Hin. rewrite get_set in H.
    destruct (str_eqb r _); [|now apply (Hacc r names)].
    injection H as <-. destruct Hin as [<-|[]]. exact Hw0.
Qed.

(** The groups that follow a group in a list of disjoint groups. *)
Lemma ForallOrdPairs_later {A : Type} (R : A -> A -> Prop) (pre : list A)
    (x : A) (post : list A) :
  ForallOrdPairs R (pre ++ x :: post) -> Forall (R x) post.
Proof.
  induction pre as [|a pre IH]; cbn [app]; intros H;
    inversion H as [|? ? Hx Hrest]; subst; [exact Hx|now apply IH].
Qed.

(** The decision for the group that the loop of [generateMangledNames] meets
    after the groups [earlier]: the loop body runs on the counts of the
    registry that the loop started from, and the groups that follow leave
    the members of the group as it left them. *)
Lemma generateMangledNames_group (manglePrefix : str) (registry : Registry)
    (earlier later : list (str * list str)) (resolvedValue : str)
    (varNames : list str) :
  groupByValue registry = earlier ++ (resolvedValue, varNames) :: later ->
  let st := fold_left (decideGroup manglePrefix) earlier (registry, 0) in
  let st' := decideGroup manglePrefix st (resolvedValue, varNames) in
  totalUsage (fst st) varNames = totalUsage registry varNames
  /\ fold_left (decideGroup manglePrefix)
               (earlier ++ [(resolvedValue, varNames)]) (registry, 0) = st'
  /\ forall v, In v varNames ->
       (exists t, get (fst st) v = Some t)
       /\ get (fst (generateMangledNames registry manglePrefix)) v
          = get (fst st') v.
Proof.
  intros Hgroups. cbn zeta. split; [|split].
  - rewrite !totalUsage_sum. f_equal. apply map_ext. intros v.
    pose proof (fold_decideGroup_proj usageCount (fun _ _ _ => eq_refl)
                  manglePrefix earlier (registry, 0) v) as E.
    cbn [fst] in E. unfold getToken.
    destruct (get (fst (fold_left (decideGroup manglePrefix) earlier
                          (registry, 0))) v),
             (get registry v); cbn [option_map] in E; congruence.
  - now rewrite fold_left_app.
  - intros v Hin. split.
    + destruct (groupByValue_groups registry) as (Hnd & _).
      destruct (groupByValue_members registry resolvedValue varNames v)
        as [t Ht]; [|exact Hin|].
      { apply NoDup_keys_get; [exact Hnd|]. rewrite Hgroups.
        apply in_or_app. right. now left. }
      pose proof (fold_decideGroup_proj usageCount (fun _ _ _ => eq_refl)
                    manglePrefix earlier (registry, 0) v) as E.
      cbn [fst] in E. rewrite Ht in E.
      destruct (get (fst (fold_left (decideGroup manglePrefix) earlier
                            (registry, 0))) v) as [t1|];
        [now exists t1|discriminate].
    + unfold generateMangledNames. rewrite Hgroups, fold_left_app.
      cbn [fold_left]. apply fold_decideGroup_other.
      pose proof (groupByValue_disjoint registry) as D.
      unfold disjointGroups in D. rewrite Hgroups in D.
      apply ForallOrdPairs_later in D. cbn [snd] in D.
      eapply Forall_impl; [|exact D]. intros g Hg. now apply Hg.
Qed.

(** ** The names of the registry *)

(** Extraction enters every name once, as a [Map] does. *)
Lemma extractTokensVariables_NoDup (code : str) (registry : Registry) :
  NoDup (map fst registry) ->
  NoDup (map fst (extractTokensVariables code registry)).
Proof.
  unfold extractTokensVariables.
  generalize (findTokensLayers code). intros layers. revert registry.
  induction layers as [|layer layers IH]; intros registry Hnd; [exact Hnd|].
  cbn [fold_left]. apply IH.
  generalize (matchAll VAR_DEF_REGEX (content layer)). intros ms.
  revert registry Hnd.
  induction ms as [|m ms IHms]; intros registry Hnd; [exact Hnd|].
  cbn [fold_left]. apply IHms. unfold has.
  destruct (get registry (group 1 m)) eqn:Hget; cbn [negb].
  - now rewrite keys_modify.
  - rewrite keys_set_new by exact Hget.
    apply NoDup_snoc; [exact Hnd|now apply get_None_key].
Qed.

Lemma extractAll_NoDup (sources : list str) :
  NoDup (map fst (extractAll sources)).
Proof.
  unfold extractAll.
  enough (G : forall registry : Registry,
             NoDup (map fst registry) ->
             NoDup (map fst
                      (fold_left
                         (fun registry source =>
                            extractTokensVariables source registry)
                         sources registry)))
    by (apply G; constructor).
  induction sources as [|source sources IH]; intros registry Hnd;
    [exact Hnd|].
  cbn [fold_left]. now apply IH, extractTokensVariables_NoDup.
Qed.

(** The analysis and the decision keep the names and their order. *)
Lemma countUsage_keys (code : str) (registry : Registry) :
  map fst (countUsage code registry) = map fst registry.
Proof.
  unfold countUsage.
  destruct (countVariableUsage_enough (S (length registry)) code registry [])
    as (r' & v' & H & Hkeys & _).
  { pose proof (unvisited_le registry []). lia. }
  now rewrite H.
Qed.

Lemma analyze_keys (sources : list str) (registry : Registry) :
  map fst (analyze sources registry) = map fst registry.
Proof.
  unfold analyze.
  transitivity (map fst (resetUsageCounts registry)).
  - generalize (resetUsageCounts registry). intros registry0.
    revert registry0.
    induction sources as [|code sources IH]; intros registry0;
      [reflexivity|].
    cbn [fold_left]. rewrite IH, countUsage_keys.
    unfold markVariablesSetElsewhere.
    apply (keys_map_entries registry0
             (fun n variable =>
                if test (setRegex n) (blankTokensLayers code)
                then withSetElsewhere true variable else variable)).
  - apply (keys_map_entries registry
             (fun _ variable =>
                withMangling None false (withUsageCount 0 variable))).
Qed.

Lemma generateMangledNames_keys (registry : Registry) (manglePrefix : str) :
  map fst (fst (generateMangledNames registry manglePrefix))
  = map fst registry.
Proof.
  unfold generateMangledNames.
  generalize (groupByValue registry) as groupList. generalize 0 as counter.
  intros counter groupList. revert registry counter.
  induction groupList as [|[r names] groupList IH]; intros registry counter;
    [reflexivity|].
  cbn [fold_left].
  assert (Hfold : forall (fs : str -> Token -> Token) vs (reg : Registry),
             map fst (fold_left (fun r v => modify r v (fs v)) vs reg)
             = map fst reg).
  { intros fs vs. induction vs as [|v vs IHvs]; intros reg; [reflexivity|].
    cbn [fold_left]. now rewrite IHvs, keys_modify. }
  unfold decideGroup. destruct (shouldMangle _ _ _); rewrite IH; apply Hfold.
Qed.

Lemma decide_NoDup (sources : list str) (manglePrefix : str) :
  NoDup (map fst (decide sources manglePrefix)).
Proof.
  unfold decide. rewrite generateMangledNames_keys, analyze_keys.
  apply extractAll_NoDup.
Qed.

(** ** The declaration of a mangled group *)

Lemma declarationStep_cases (registry : Registry) (d e : list str)
    (m : Match) :
  declarationStep registry (d, e) m = (d, e)
  \/ (exists t,
        get registry (group 1 m) = Some t
        /\ usageCount t <> 0 /\ setElsewhere t = true
        /\ declarationStep registry (d, e) m =
           (d ++ [group 1 m ++ ": " ++ group 2 m], e))
  \/ (exists t mangled,
        get registry (group 1 m) = Some t
        /\ usageCount t <> 0 /\ setElsewhere t = false
        /\ mangledName t = Some mangled /\ mangled <> []
        /\ emitDeclaration t = true /\ truthyB (isAlias t) = false
        /\ ~ In (resolveVariableValue (group 1 m) registry 0) e
        /\ declarationStep registry (d, e) m =
           (d ++ [mangled ++ ": " ++
                  resolveVariableValue (group 1 m) registry 0],
            resolveVariableValue (group 1 m) registry 0 :: e)).
Proof.
  unfold declarationStep.
  destruct (get registry (group 1 m)) as [t|] eqn:Hget; [|now left].
  destruct (usageCount t =? 0) eqn:Hu; [now left|].
  apply Nat.eqb_neq in Hu.
  destruct (setElsewhere t) eqn:Hs.
  { right. left. now exists t. }
  destruct (mangledName t) as [[|c mangled]|] eqn:Hm; try now left.
  destruct (emitDeclaration t && negb (truthyB (isAlias t))) eqn:He;
    [|now left].
  apply andb_true_iff in He. destruct He as [He Ha].
  apply negb_true_iff in Ha.
  destruct (existsb (str_eqb (resolveVariableValue (group 1 m) registry 0)) e)
    eqn:Hex; cbn [negb]; [now left|].
  right. right. exists t, (c :: mangled).
  repeat split; trivial; [discriminate|].
  intros Hin. apply existsb_str_eqb in Hin. congruence.
Qed.

(** The resolved values already emitted stay emitted, and the match of a
    variable that carries a declaration leaves its resolved value emitted. *)
Lemma declarationStep_emitted_mono (registry : Registry) (d e : list str)
    (m : Match) (x : str) :
  In x e -> In x (snd (declarationStep registry (d, e) m)).
Proof.
  intros Hx.
  destruct (declarationStep_cases registry d e m)
    as [->|[(t & _ & _ & _ & ->)
           |(t & mg & _ & _ & _ & _ & _ & _ & _ & _ & ->)]];
    cbn [snd]; trivial. now right.
Qed.

Lemma fold_declarationStep_emitted_mono (registry : Registry)
    (ms : list Match) (x : str) :
  forall d e,
    In x e -> In x (snd (fold_left (declarationStep registry) ms (d, e))).
Proof.
  induction ms as [|m ms IH]; intros d e Hx; [exact Hx|].
  cbn [fold_left].
  pose proof (declarationStep_emitted_mono registry d e m x Hx) as H.
  destruct (declarationStep registry (d, e) m) as [d1 e1]. now apply IH.
Qed.

Lemma declarationStep_emitter (registry : Registry) (d e : list str)
    (m : Match) (t : Token) (mangled : str) :
  get registry (group 1 m) = Some t ->
  usageCount t <> 0 -> setElsewhere t = false ->
  mangledName t = Some mangled -> mangled <> [] ->
  emitDeclaration t = true -> truthyB (isAlias t) = false ->
  In (resolveVariableValue (group 1 m) registry 0)
     (snd (declarationStep registry (d, e) m)).
Proof.
  intros Hget Hu Hs Hm Hne He Ha. unfold declarationStep.
  apply Nat.eqb_neq in Hu. rewrite Hget, Hu, Hs, Hm, He, Ha.
  destruct mangled as [|c mangled]; [congruence|]. cbn [negb andb].
  destruct (existsb _ e) eqn:Hex; cbn [negb snd].
  - now apply existsb_str_eqb.
  - now left.
Qed.

Section CanonicalDeclaration.
Variables (registry : Registry) (varName : str) (variable : Token)
          (mangled : str).
Hypothesis Hget : get registry varName = Some variable.
Hypothesis Hused : usageCount variable <> 0.
Hypothesis Hset : setElsewhere variable = false.
Hypothesis Hname : mangledName variable = Some mangled.
Hypothesis Hnonempty : mangled <> [].
Hypothesis Hemit : emitDeclaration variable = true.

(** No other variable with the same resolved value carries a declaration. *)
Hypothesis Hunique :
  forall w t,
    get registry w = Some t -> usageCount t <> 0 ->
    emitDeclaration t = true ->
    resolveVariableValue w registry 0 = resolveVariableValue varName registry 0
    -> w = varName.

Let r := resolveVariableValue varName registry 0.
Let target := mangled ++ ": " ++ r.

(** The state of the pass: before the declaration of the group is written,
    and after. *)
Let before (st : list str * list str) : Prop :=
  ~ In r (snd st) /\ Forall (otherThan registry r) (fst st).
Let after (st : list str * list str) : Prop :=
  In r (snd st)
  /\ exists pre post,
       fst st = pre ++ target :: post
       /\ Forall (otherThan registry r) pre
       /\ Forall (otherThan registry r) post.

Lemma declarationStep_once (st : list str * list str) (m : Match) :
  before st \/ after st ->
  before (declarationStep registry st m)
  \/ after (declarationStep registry st m).
Proof.
  destruct st as [d e]. intros Hinv. unfold before, after in *.
  cbn [fst snd] in Hinv.
  destruct (declarationStep_cases registry d e m)
    as [->|[(t & Ht & Hu & Hs & ->)
           |(t & mg & Ht & Hu & Hs & Hm & Hne & He & Ha & Hnew & ->)]];
    cbn [fst snd]; [exact Hinv| |].
  - (* the copy of a declaration that is set elsewhere *)
    assert (Hother : otherThan registry r
                       (group 1 m ++ ": " ++ group 2 m)).
    { exists m. split; [now apply (emits_kept _ _ t)|].
      intros t' Ht' Hs'. congruence. }
    destruct Hinv as [[Hr Hd]|[Hr (pre & post & -> & Hpre & Hpost)]].
    + left. split; [exact Hr|]. apply Forall_app.
      split; [exact Hd|now constructor].
    + right. split; [exact Hr|].
      exists pre, (post ++ [group 1 m ++ ": " ++ group 2 m]).
      split; [now rewrite <- app_assoc|]. split; [exact Hpre|].
      apply Forall_app. split; [exact Hpost|now constructor].
  - (* the declaration of a synthetic name *)
    destruct (list_eq_dec N.eq_dec
                (resolveVariableValue (group 1 m) registry 0) r) as [E|E].
    + assert (Hw : group 1 m = varName) by now apply (Hunique _ t).
      rewrite Hw in Ht. assert (t = variable) by congruence. subst t.
      assert (mg = mangled) by congruence. subst mg.
      rewrite E in *. right. split; [now left|].
      destruct Hinv as [[Hr Hd]|[Hr _]]; [|contradiction].
      exists d, []. repeat split; trivial.
    + assert (Hother : otherThan registry r
                (mg ++ ": " ++ resolveVariableValue (group 1 m) registry 0)).
      { exists m. split; [now apply (emits_mangled _ _ t)|].
        intros _ _ _. exact E. }
      destruct Hinv as [[Hr Hd]|[Hr (pre & post & -> & Hpre & Hpost)]].
      * left. split.
        { intros [H|H]; [congruence|contradiction]. }
        apply Forall_app. split; [exact Hd|now constructor].
      * right. split; [now right|].
        exists pre,
          (post ++ [mg ++ ": " ++
                    resolveVariableValue (group 1 m) registry 0]).
        split; [now rewrite <- app_assoc|]. split; [exact Hpre|].
        apply Forall_app. split; [exact Hpost|now constructor].
Qed.

Lemma fold_declarationStep_once (ms : list Match) :
  forall st,
    before st \/ after st ->
    before (fold_left (declarationStep registry) ms st)
    \/ after (fold_left (declarationStep registry) ms st).
Proof.
  induction ms as [|m ms IH]; intros st Hinv; [exact Hinv|].
  cbn [fold_left]. apply IH, declarationStep_once, Hinv.
Qed.

(** When the variable is not an alias and is declared among [ms], its
    resolved value is emitted by the end of the pass. *)
Lemma fold_declarationStep_emitted (ms : list Match) :
  truthyB (isAlias variable) = false ->
  In varName (map (group 1) ms) ->
  forall d e, In r (snd (fold_left (declarationStep registry) ms (d, e))).
Proof.
  intros Ha. induction ms as [|m ms IH]; intros Hin d e; [contradiction|].
  cbn [fold_left]. destruct Hin as [Hm|Hin].
  - assert (H : In r (snd (declarationStep registry (d, e) m))).
    { unfold r. rewrite <- Hm.
      apply (declarationStep_emitter _ _ _ _ variable mangled); trivial.
      now rewrite Hm. }
    destruct (declarationStep registry (d, e) m) as [d1 e1].
    now apply fold_declarationStep_emitted_mono.
  - destruct (declarationStep registry (d, e) m) as [d1 e1]. now apply IH.
Qed.

(** When the variable is an alias, the declaration of the group is never
    written. *)
Lemma fold_declarationStep_alias (ms : list Match) :
  truthyB (isAlias variable) = true ->
  forall st,
    before st -> before (fold_left (declarationStep registry) ms st).
Proof.
  intros Ha. induction ms as [|m ms IH]; intros st Hb; [exact Hb|].
  cbn [fold_left]. apply IH.
  destruct (declarationStep_once st m (or_introl Hb)) as [H|[Hr _]];
    [exact H|].
  exfalso. destruct st as [d e]. destruct Hb as [Hn _]. cbn [snd] in Hn.
  destruct (declarationStep_cases registry d e m)
    as [E|[(t & _ & _ & _ & E)
          |(t & mg & Ht & Hu & Hs & Hm & Hne & He & Halias & Hnew & E)]];
    rewrite E in Hr; cbn [snd] in Hr; try contradiction.
  destruct Hr as [Hr|Hr]; [|contradiction].
  assert (Hw : group 1 m = varName) by now apply (Hunique _ t).
  rewrite Hw in Ht. congruence.
Qed.
End CanonicalDeclaration.

(** ** A settled asset *)











(** * The claims *)

(** ** Value resolution *)

(** What value resolution computes, at any depth of the recursion: beyond
    depth 10 the expression [var(name)]; for a name that is not in the
    registry [var(name)] as well; in every other case the declared value of
    the variable with every reference in it replaced by the resolved value of
    the name it refers to, one level deeper.  The result is always a string,
    never an error. *)
Lemma resolveVariableValue_depth_limited (varName : str)
    (registry : Registry) (depth : nat) :
  resolveVariableValue varName registry depth =
  if 10 <? depth then "var(" ++ varName ++ ")"
  else
    match get registry varName with
    | None => "var(" ++ varName ++ ")"
    | Some variable =>
        replace VAR_REF_REGEX (value variable)
          (fun m => resolveVariableValue (group 1 m) registry (depth + 1))
    end.
Proof. apply resolveVariableValue_eq. Qed.

(** C6 fails on the code.  The value of [--w] is the reference
    [var(--host, 10px)] to a name that is not in the registry; resolution
    does not leave that reference as it is written but replaces it by
    [var(--host)], built from the name alone, and the fallback is lost in the
    output of the pass.  (The callback of [transformCode] returns the same
    reference unchanged when it meets it in the text of an asset.)  Beyond
    the depth limit it is the same: on [aliasChain] the reference
    [var( --a11 , 2px )] becomes [var(--a11)]. *)
Theorem nested_reference_not_left_as_written :
  decide [hostFallback] defaultPrefix
  = [(lit "--w", mkToken "var(--host, 10px)" 1 false None (Some true) false)]
  /\ get (decide [hostFallback] defaultPrefix) "--host" = None
  /\ map text (matchAll VAR_REF_REGEX "var(--host, 10px)")
     = [lit "var(--host, 10px)"]
  /\ resolveVariableValue "--w" (decide [hostFallback] defaultPrefix) 0
     = "var(--host)"
  /\ generateBundle defaultPrefix [(lit "a.css", Asset hostFallback)]
     = [(lit "a.css", Asset ".x{width:var(--host)}")]
  /\ map (rewriteReference (decide [hostFallback] defaultPrefix))
         (matchAll VAR_REF_REGEX ".y{height:var(--host, 10px)}")
     = [lit "var(--host, 10px)"]
  /\ option_map value (get aliasChain "--a10") = Some (lit "var( --a11 , 2px )")
  /\ resolveVariableValue "--a0" aliasChain 0 = "var(--a11)".
Proof. repeat split; vm_compute; reflexivity. Qed.

(** On [aliasChain] the call at depth 0 follows ten references and leaves
    the eleventh unexpanded; with one link less the value is reached. *)
Example resolve_alias_chain :
  resolveVariableValue "--a0" aliasChain 0 = "var(--a11)"
  /\ resolveVariableValue "--a1" aliasChain 0 = "1px"
  /\ resolveVariableValue "--zz" aliasChain 0 = "var(--zz)".
Proof. repeat split; vm_compute; reflexivity. Qed.

(** ** Termination *)

(** C8.  Value resolution and usage counting terminate on every input,
    whatever cycles the registry has.  [resolveVariableValue] at depth
    [depth] returns within [12 - depth] nested calls (at least one), because
    a call deeper than 10 returns at once; [countVariableUsage] returns within
    one more nested call than there are registered names outside the
    [visited] set, because it only recurses into a name that it adds to the
    set.  More fuel than that does not change either result. *)
Theorem resolution_and_counting_terminate (registry : Registry)
    (varName : str) (depth : nat) (code : str) (visited : list str)
    (k : nat) :
  resolveVariableValue_fuel (S (11 - depth) + k) varName registry depth =
  Some (resolveVariableValue varName registry depth)
  /\ exists st,
       countVariableUsage (S (unvisited registry visited)) code
                          (registry, visited) = Some st
       /\ countVariableUsage (S (unvisited registry visited) + k) code
                             (registry, visited) = Some st.
Proof.
  split.
  - apply resolveVariableValue_fuel_enough; lia.
  - destruct (countVariableUsage_enough (S (unvisited registry visited)) code
                registry visited) as (r' & v' & H & _); [lia|].
    exists (r', v'). split; [exact H|].
    apply (countVariableUsage_more_fuel _ _ _ _ _ H). lia.
Qed.

(** Resolution and counting on [cyclicRegistry]. *)
Example terminate_on_cycles :
  resolveVariableValue "--a" cyclicRegistry 0 = "var(--b)"
  /\ resolveVariableValue "--c" cyclicRegistry 9 =
     "calc(calc(var(--c) + 1px) + 1px)"
  /\ map (fun '(_, t) => usageCount t)
         (countUsage ".x{color:var(--a);width:var(--c)}" cyclicRegistry)
     = [2; 1; 2].
Proof. repeat split; vm_compute; reflexivity. Qed.

(** ** Usage counting *)

(** C10 fails on the code.  In [referenceInFallback] the text [var(--b)] at
    offset 56 is a reference to the registered name [--b]: the reference
    pattern matches there.  But the scan of [countVariableUsage] finds one
    match only, [var(--a, var(--b)], which names [--a] and takes the
    reference to [--b] as part of its fallback, up to the first closing
    parenthesis.  The count of [--b] stays 0, its declaration is dropped as
    unused, and the rule that refers to it comes out as [.x{color:red)}]. *)
Theorem reference_in_fallback_not_counted :
  has (extractAll [referenceInFallback]) "--b" = true
  /\ option_map (fun m => (index m, text m, group 1 m))
                (matchAt VAR_REF_REGEX 56 (skipn 56 referenceInFallback))
     = Some (56, lit "var(--b)", lit "--b")
  /\ map (fun m => (index m, text m, group 1 m))
         (matchAll VAR_REF_REGEX referenceInFallback)
     = [(47, lit "var(--a, var(--b)", lit "--a")]
  /\ map (fun '(k, t) => (k, usageCount t))
         (decide [referenceInFallback] defaultPrefix)
     = [(lit "--a", 1); (lit "--b", 0)]
  /\ assetDeclarations referenceInFallback
                       (decide [referenceInFallback] defaultPrefix) = []
  /\ generateBundle defaultPrefix [(lit "a.css", Asset referenceInFallback)]
     = [(lit "a.css", Asset ".x{color:red)}")].
Proof. repeat split; vm_compute; reflexivity. Qed.

(** ** The cost model *)

(** C4.  The Decision Engine goes through the value groups of the registry
    in the order of [groupByValue], with a counter that starts at 0.  Take
    one of the groups, with the resolved value [resolvedValue] and the
    members [varNames]; [counter] is the counter when the loop reaches the
    group, after the groups [earlier], and the synthetic name is the prefix
    followed by the counter in base 36.  With [totalUsage] the sum of the
    usage counts of the members, the Decision Engine compares
    [mangleCost = declarationCost + totalUsage * referenceCost], where
    [declarationCost = len(name) + 2 + len(value) + 1] and
    [referenceCost = 5 + len(name) + 1], with
    [inlineCost = totalUsage * len(value)].  When [mangleCost < inlineCost]
    every member carries the synthetic name in the registry that
    [generateMangledNames] returns, and the counter has advanced by one for
    the next group; otherwise, a tie included, every member is without a
    name in that registry, to be inlined, and the counter has stayed.  The
    registry that the Transformer reads, [decide], is the one that
    [generateMangledNames] returns for the analysed registry. *)
Theorem cost_model_decides (manglePrefix : str) (registry : Registry)
    (earlier later : list (str * list str)) (resolvedValue : str)
    (varNames : list str) :
  groupByValue registry = earlier ++ (resolvedValue, varNames) :: later ->
  let counter :=
    snd (fold_left (decideGroup manglePrefix) earlier (registry, 0)) in
  let counter' :=
    snd (fold_left (decideGroup manglePrefix)
                   (earlier ++ [(resolvedValue, varNames)]) (registry, 0)) in
  let decided := fst (generateMangledNames registry manglePrefix) in
  let syntheticName := manglePrefix ++ toString36 counter in
  let totalUsage :=
    list_sum (map (fun v => usageCount (getToken registry v)) varNames) in
  let declarationCost := length syntheticName + 2 + length resolvedValue + 1 in
  let referenceCost := 5 + length syntheticName + 1 in
  let mangleCost := declarationCost + totalUsage * referenceCost in
  let inlineCost := totalUsage * length resolvedValue in
  (mangleCost < inlineCost ->
   counter' = S counter
   /\ forall v, In v varNames ->
        exists t', get decided v = Some t'
          /\ mangledName t' = Some syntheticName)
  /\ (inlineCost <= mangleCost ->
      counter' = counter
      /\ forall v, In v varNames ->
           exists t', get decided v = Some t' /\ mangledName t' = None).
Proof.
  intros Hgroups. cbn zeta.
  destruct (generateMangledNames_group manglePrefix registry earlier later
              resolvedValue varNames Hgroups) as (Htotal & -> & Hmembers).
  rewrite <- totalUsage_sum, <- Htotal, totalUsage_sum.
  destruct (fold_left (decideGroup manglePrefix) earlier (registry, 0))
    as [registry1 counter].
  cbn [fst snd] in *.
  destruct (decideGroup_cost_model manglePrefix registry1 counter
              resolvedValue varNames) as [Hmangle Hinline].
  split; intros Hcost;
    [destruct (Hmangle Hcost) as [Hcounter Hnames]
    |destruct (Hinline Hcost) as [Hcounter Hnames]];
    (split; [exact Hcounter|]); intros v Hin;
    destruct (Hmembers v Hin) as [[t Ht] ->]; exact (Hnames v t Hin Ht).
Qed.

(** On [threeGroups]: the group of [--g], with both costs 54, is inlined and
    leaves the counter at 1; the group of [--b], met after it, 57 against
    60, gets the name [--_1]. *)
Lemma cost_model_decides_witness :
  groupByValue (analyze [threeGroups] (extractAll [threeGroups]))
  = [(lit "rgba(255, 0, 0, 0.5)", [lit "--a"]);
     (longValue, [lit "--g"]);
     (lit "rgba(0, 0, 255, 0.5)", [lit "--b"])]
  /\ map (fun '(k, t) => (k, usageCount t))
         (analyze [threeGroups] (extractAll [threeGroups]))
     = [(lit "--a", 3); (lit "--g", 2); (lit "--b", 3)]
  /\ (exists t',
        get (decide [threeGroups] defaultPrefix) "--g" = Some t'
        /\ mangledName t' = None)
  /\ (exists t',
        get (decide [threeGroups] defaultPrefix) "--b" = Some t'
        /\ mangledName t' = Some (lit "--_1")).
Proof.
  assert (Hgroups :
            groupByValue (analyze [threeGroups] (extractAll [threeGroups]))
            = [(lit "rgba(255, 0, 0, 0.5)", [lit "--a"]);
               (longValue, [lit "--g"]);
               (lit "rgba(0, 0, 255, 0.5)", [lit "--b"])])
    by (vm_compute; reflexivity).
  split; [exact Hgroups|]. split; [vm_compute; reflexivity|]. split.
  - destruct (proj2 (cost_model_decides defaultPrefix
                       (analyze [threeGroups] (extractAll [threeGroups]))
                       [(lit "rgba(255, 0, 0, 0.5)", [lit "--a"])]
                       [(lit "rgba(0, 0, 255, 0.5)", [lit "--b"])]
                       longValue [lit "--g"] Hgroups)
                ltac:(vm_compute; lia)) as [_ Hnames].
    exact (Hnames (lit "--g") (or_introl eq_refl)).
  - destruct (proj1 (cost_model_decides defaultPrefix
                       (analyze [threeGroups] (extractAll [threeGroups]))
                       [(lit "rgba(255, 0, 0, 0.5)", [lit "--a"]);
                        (longValue, [lit "--g"])]
                       []
                       (lit "rgba(0, 0, 255, 0.5)") [lit "--b"] Hgroups)
                ltac:(vm_compute; lia)) as [_ Hnames].
    destruct (Hnames (lit "--b") (or_introl eq_refl)) as (t' & Ht' & Hn).
    exists t'. split; [exact Ht'|]. rewrite Hn. vm_compute. reflexivity.
Defined.

(** ** The threshold example *)

(** With the prefix [--_] a reference to a synthetic name costs at least ten
    code units, more than the seven of [#ff0000]: mangling never pays. *)
Lemma shouldMangle_red (counter totalUsage : nat) :
  shouldMangle (mangledNameFor defaultPrefix counter) (length (lit "#ff0000"))
               totalUsage = false.
Proof.
  apply Nat.ltb_ge.
  unfold mangleCost, inlineCost, declarationCost, referenceCost,
    mangledNameFor.
  rewrite length_app.
  pose proof (toString36_length counter) as H.
  change (length defaultPrefix) with 3.
  change (length (lit "#ff0000")) with 7.
  nia.
Qed.

(** Counterexample to C2 as stated: fifty references to [#ff0000] are
    inlined, not mangled; no synthetic name is assigned or written. *)
Lemma fifty_references_not_mangled :
  map (fun '(_, t) => (usageCount t, mangledName t))
      (decide [redSource 50] defaultPrefix) = [(50, None)]
  /\ mangledName (getToken (decide [redSource 50] defaultPrefix) "--c")
     <> Some (lit "--_0")
  /\ generateBundle defaultPrefix (redBundle 50) =
     [(lit "a.css", Asset (repeatStr 50 ".a{color:#ff0000}"))]
  /\ mangleCost "--_0" 7 50 = 514 /\ inlineCost 7 50 = 350.
Proof.
  split; [vm_compute; reflexivity|].
  split; [vm_compute; discriminate|].
  split; [vm_compute; reflexivity|].
  split; vm_compute; reflexivity.
Qed.

(** C2, amended.  With the prefix [--_], a group whose resolved value is
    [#ff0000] is inlined whatever its total usage and whatever the counter:
    [decideGroup] takes the branch that clears the names and keeps the
    counter.  With one reference and with fifty alike no synthetic declaration
    is written and every reference site is replaced by [#ff0000]. *)
Theorem red_is_inlined_at_every_usage :
  (forall registry counter varNames,
      decideGroup defaultPrefix (registry, counter)
                  (lit "#ff0000", varNames) =
      (fold_left (fun r vName => modify r vName (withMangling None false))
                 varNames registry,
       counter))
  /\ generateBundle defaultPrefix (redBundle 1) =
     [(lit "a.css", Asset ".a{color:#ff0000}")]
  /\ generateBundle defaultPrefix (redBundle 50) =
     [(lit "a.css", Asset (repeatStr 50 ".a{color:#ff0000}"))].
Proof.
  split.
  - intros registry counter varNames.
    apply decideGroup_inline, shouldMangle_red.
  - split; vm_compute; reflexivity.
Qed.

(** ** Variables that are set elsewhere *)

(** Counterexample to C1 as stated.  A variable that is set elsewhere and
    never referenced is deleted: no declaration is written for it.  And the
    references to a variable that is set elsewhere are renamed when its value
    group is mangled. *)
Lemma set_elsewhere_not_always_untouched :
  (map (fun '(n, t) => (n, usageCount t, setElsewhere t))
       (decide [overriddenUnused] defaultPrefix) = [(lit "--a", 0, true)]
   /\ assetDeclarations overriddenUnused
        (decide [overriddenUnused] defaultPrefix) = []
   /\ generateBundle defaultPrefix [(lit "a.css", Asset overriddenUnused)] =
      [(lit "a.css", Asset " .x{--a:2px}")])
  /\ (map (fun '(n, t) => (n, usageCount t, setElsewhere t, mangledName t))
          (decide [overriddenMangled] defaultPrefix)
      = [(lit "--a", 3, true, Some (lit "--_0"))]
      /\ generateBundle defaultPrefix [(lit "a.css", Asset overriddenMangled)]
         = [(lit "a.css",
             Asset ("@layer tokens{:root{--a: rgba(255, 0, 0, 0.5)}}.x{--a:1}"
                    ++ repeatStr 3 ".a{color:var(--_0)}"))]).
Proof. repeat split; vm_compute; reflexivity. Qed.

(** C1, amended.  For a variable with [setElsewhere = true]: when its
    [usageCount] is not 0, every declaration of it in a tokens layer of an
    asset is written to that asset with its original name and its original
    value text; when its [usageCount] is 0 its declarations are skipped like
    those of any unused variable; and when it carries no synthetic name,
    every reference to it is replaced by its own text, that is, left as it
    is: a text in which every reference names the variable comes out of the
    references pass unchanged. *)
Theorem set_elsewhere_kept_when_used (registry : Registry) (varName : str)
    (variable : Token) :
  get registry varName = Some variable ->
  setElsewhere variable = true ->
  (usageCount variable <> 0 ->
   forall code m,
     In m (declarationMatches code) -> group 1 m = varName ->
     In (varName ++ ": " ++ group 2 m) (assetDeclarations code registry))
  /\ (usageCount variable = 0 ->
      forall st m, group 1 m = varName -> declarationStep registry st m = st)
  /\ (mangledName variable = None ->
      (forall m, group 1 m = varName -> rewriteReference registry m = text m)
      /\ forall s,
           (forall m, In m (matchAll VAR_REF_REGEX s) -> group 1 m = varName)
           -> replace VAR_REF_REGEX s (rewriteReference registry) = s).
Proof.
  intros Hget Hset.
  assert (Href : mangledName variable = None ->
                 forall m, group 1 m = varName ->
                           rewriteReference registry m = text m).
  { intros Hm m <-. unfold rewriteReference. now rewrite Hget, Hm, Hset. }
  repeat split.
  - intros Hu code m Hin <-. rewrite assetDeclarations_eq.
    apply (fold_declarationStep_In registry _ m); [exact Hin|].
    intros d e. rewrite (declarationStep_kept _ _ _ _ _ Hget Hu Hset).
    cbn [fst]. apply in_or_app. right. now left.
  - intros Hu st m <-. now apply (declarationStep_unused _ _ _ variable).
  - now apply Href.
  - intros s Hall. apply replace_unchanged.
    intros m Hm. apply Href; [assumption|now apply Hall].
Qed.

(** On [overriddenUsed]. *)
Lemma set_elsewhere_kept_when_used_witness :
  get (decide [overriddenUsed] defaultPrefix) "--a"
  = Some (mkToken "1px" 1 true None (Some false) false)
  /\ setElsewhere (mkToken "1px" 1 true None (Some false) false) = true
  /\ In (lit "--a: 1px")
        (assetDeclarations overriddenUsed
           (decide [overriddenUsed] defaultPrefix))
  /\ replace VAR_REF_REGEX overriddenUsed
       (rewriteReference (decide [overriddenUsed] defaultPrefix))
     = overriddenUsed.
Proof.
  assert (Hget : get (decide [overriddenUsed] defaultPrefix) "--a"
                 = Some (mkToken "1px" 1 true None (Some false) false))
    by (vm_compute; reflexivity).
  assert (Hrefs : matchAll VAR_REF_REGEX overriddenUsed
                  = [mkMatch 47 "var(--a)" [(1, lit "--a")]])
    by (vm_compute; reflexivity).
  destruct (set_elsewhere_kept_when_used _ _ _ Hget eq_refl)
    as (Hdecl & _ & Href).
  split; [exact Hget|]. split; [reflexivity|]. split.
  - apply (Hdecl ltac:(discriminate) overriddenUsed
             (mkMatch 6 "--a:1px" [(2, lit "1px"); (1, lit "--a")])).
    + vm_compute. now left.
    + reflexivity.
  - apply (proj2 (Href eq_refl)). rewrite Hrefs.
    intros m [<-|[]]. reflexivity.
Defined.

(** ** Unused variables *)

(** Counterexample to C5 as stated: [--gap] has no reference anywhere and
    its declaration is dropped, but its name is still in the output, in the
    rule outside the tokens layer that assigns it. *)
Lemma unused_name_still_in_output :
  map (fun '(n, t) => (n, usageCount t))
      (decide [unusedOverridden] defaultPrefix)
  = [(lit "--gap", 0); (lit "--c", 1)]
  /\ generateBundle defaultPrefix [(lit "a.css", Asset unusedOverridden)] =
     [(lit "a.css", Asset " .x{--gap:8px;color:red}")]
  /\ test (Chars "--gap") " .x{--gap:8px;color:red}" = true.
Proof. repeat split; vm_compute; reflexivity. Qed.

(** C5, amended.  A registered variable whose [usageCount] is 0 after the
    analysis gets no declaration in any rewritten tokens layer: the
    declarations pass skips every declaration match that names it, and every
    declaration written to an asset comes from a match that names another
    variable, one with a count that is not 0.  (The text outside the tokens
    layers is not searched for the name.) *)
Theorem unused_declaration_dropped (registry : Registry) (varName : str)
    (variable : Token) :
  get registry varName = Some variable ->
  usageCount variable = 0 ->
  (forall st m, group 1 m = varName -> declarationStep registry st m = st)
  /\ forall code,
       Forall (fun d => exists m,
                   In m (declarationMatches code)
                   /\ group 1 m <> varName
                   /\ emits registry m d)
              (assetDeclarations code registry).
Proof.
  intros Hget Hu. split.
  - intros st m <-. now apply (declarationStep_unused _ _ _ variable).
  - intros code. rewrite assetDeclarations_eq.
    eapply Forall_impl; [|apply fold_declarationStep_emits].
    intros d (m & Hin & Hd). exists m. split; [exact Hin|].
    split; [|exact Hd].
    intros E. destruct Hd as [t Ht Hne|t mangled Ht Hne]; congruence.
Qed.

(** On [unusedOverridden], for the name [--gap]. *)
Lemma unused_declaration_dropped_witness :
  get (decide [unusedOverridden] defaultPrefix) "--gap"
  = Some (mkToken "4px" 0 true None (Some false) false)
  /\ usageCount (mkToken "4px" 0 true None (Some false) false) = 0
  /\ declarationStep (decide [unusedOverridden] defaultPrefix) ([], [])
       (mkMatch 6 "--gap:4px;" [(2, lit "4px"); (1, lit "--gap")]) = ([], [])
  /\ Forall (fun d => exists m,
                In m (declarationMatches unusedOverridden)
                /\ group 1 m <> lit "--gap"
                /\ emits (decide [unusedOverridden] defaultPrefix) m d)
            (assetDeclarations unusedOverridden
               (decide [unusedOverridden] defaultPrefix)).
Proof.
  assert (Hget : get (decide [unusedOverridden] defaultPrefix) "--gap"
                 = Some (mkToken "4px" 0 true None (Some false) false))
    by (vm_compute; reflexivity).
  destruct (unused_declaration_dropped _ _ _ Hget eq_refl) as (Hstep & Hall).
  split; [exact Hget|]. split; [reflexivity|].
  split; [now apply Hstep|apply Hall].
Defined.

(** ** Blanking *)

(** C7 fails on the code.  The layer of [unbalancedSource] is not closed, so
    its span runs to the end of the text; [findTokensLayers] gives it the end
    [code.length + 1], and the blanked copy gets one space more than the
    span has code units: the copy is one code unit longer than the text. *)
Theorem blanked_copy_longer_when_unbalanced :
  length unbalancedSource = 39
  /\ map (fun layer => (start layer, end_ layer))
         (findTokensLayers unbalancedSource) = [(11, 40)]
  /\ blankTokensLayers unbalancedSource = ".x{--a:2px}" ++ spaces 29
  /\ length (blankTokensLayers unbalancedSource) = 40.
Proof. repeat split; vm_compute; reflexivity. Qed.

(** When the layers are closed the claim holds. *)
Example blanked_copy_when_balanced :
  blankTokensLayers "a{}@layer tokens{:root{--a:1px}}.x{--a:2px}"
  = "a{}" ++ spaces 29 ++ ".x{--a:2px}".
Proof. vm_compute; reflexivity. Qed.

(** ** Running the pass twice *)


(** With one mangled group the second run finds the name [--_0] declared
    and gives it the name [--_0] again. *)
Example second_run_keeps_one_group :
  generateBundle defaultPrefix oneGroup =
  [(lit "a.css",
    Asset ("@layer tokens{:root{--_0: rgba(0, 0, 255, 0.5)}}" ++
           repeatStr 3 ".a{background:var(--_0)}"))]
  /\ generateBundle defaultPrefix (generateBundle defaultPrefix oneGroup)
     = generateBundle defaultPrefix oneGroup.
Proof. split; vm_compute; reflexivity. Qed.



(** ** The declaration of a mangled group *)

(** C3 fails on the code.  In [aliasOnly] the group of [--c] is mangled and
    [--c], its first and only member, is an alias.  The Decision Engine
    takes it as the canonical member, the first member of a group of
    aliases, and has it carry the declaration of the group
    ([emitDeclaration]); the references are renamed to [--_0].  But the
    declarations pass writes the declaration of a group only when the
    member that carries it is not an alias: nothing is written to the asset
    that declares [--c], and the output refers to a name that it does not
    declare. *)
Theorem alias_group_gets_no_declaration :
  groupByValue (analyze [aliasOnly] (extractAll [aliasOnly]))
  = [(lit "var(--brand-color-from-host)", [lit "--c"])]
  /\ canonicalVarName (analyze [aliasOnly] (extractAll [aliasOnly]))
                      [lit "--c"] = lit "--c"
  /\ decide [aliasOnly] defaultPrefix
     = [(lit "--c",
         mkToken "var(--brand-color-from-host)" 3 false (Some (lit "--_0"))
                 (Some true) true)]
  /\ map (group 1) (declarationMatches aliasOnly) = [lit "--c"]
  /\ assetDeclarations aliasOnly (decide [aliasOnly] defaultPrefix) = []
  /\ generateBundle defaultPrefix [(lit "a.css", Asset aliasOnly)]
     = [(lit "a.css", Asset (repeatStr 3 ".a{color:var(--_0)}"))]
  /\ matchAll VAR_DEF_REGEX (repeatStr 3 ".a{color:var(--_0)}") = [].
Proof. repeat split; vm_compute; reflexivity. Qed.

(** * Further properties of the code *)

(** ** Views of the registry *)

(** Each pass over the registry writes some fields of the tokens and leaves
    the others, and the names, as they were. *)
Section Views.
Context {X : Type} (g : Token -> X).

Lemma get_view (registry : Registry) (k : str) :
  get (view g registry) k = option_map g (get registry k).
Proof.
  induction registry as [|[j t] registry IH]; simpl; [reflexivity|].
  now destruct (str_eqb k j).
Qed.

Lemma keys_view (registry : Registry) :
  map fst (view g registry) = map fst registry.
Proof.
  unfold view. rewrite map_map. apply map_ext. now intros [k t].
Qed.

Lemma view_modify (registry : Registry) (k : str) (f : Token -> Token) :
  (forall t, g (f t) = g t) ->
  view g (modify registry k f) = view g registry.
Proof.
  intros Hf. induction registry as [|[j t] registry IH]; simpl;
    [reflexivity|].
  destruct (str_eqb k j); simpl; now rewrite ?Hf, ?IH.
Qed.

Lemma view_fold_modify (fs : str -> Token -> Token) :
  (forall v t, g (fs v t) = g t) ->
  forall (vs : list str) (registry : Registry),
    view g (fold_left (fun r v => modify r v (fs v)) vs registry)
    = view g registry.
Proof.
  intros Hfs. induction vs as [|v vs IH]; intros registry; simpl;
    [reflexivity|].
  rewrite IH. apply view_modify. intros t. apply Hfs.
Qed.

Lemma view_map_entries (registry : Registry) (f : str -> Token -> Token) :
  (forall k t, g (f k t) = g t) ->
  view g (map (fun '(k, t) => (k, f k t)) registry) = view g registry.
Proof.
  intros Hf. unfold view. rewrite map_map. apply map_ext.
  intros [k t]. now rewrite Hf.
Qed.

Lemma view_countVariableUsage :
  (forall n t, g (withUsageCount n t) = g t) ->
  forall fuel code registry visited st',
    countVariableUsage fuel code (registry, visited) = Some st' ->
    view g (fst st') = view g registry.
Proof.
  intros Hg. induction fuel as [|fuel IH];
    intros code registry visited st' H; [discriminate|].
  cbn [countVariableUsage] in H. revert registry visited H.
  generalize (matchAll VAR_REF_REGEX code). intros ms.
  induction ms as [|m ms IHms]; intros registry visited H.
  - injection H as <-. reflexivity.
  - cbn [foldM] in H.
    destruct (countStep (countVariableUsage fuel) (registry, visited) m)
      as [[r1 v1]|] eqn:E; [|discriminate].
    rewrite (IHms _ _ H). unfold countStep in E.
    destruct (get registry (group 1 m)) as [variable|].
    2:{ now injection E as <- <-. }
    assert (Hm : view g (modify registry (group 1 m)
                           (fun v => withUsageCount (S (usageCount v)) v))
                 = view g registry)
      by (apply view_modify; intros t; apply Hg).
    destruct (negb _).
    + apply IH in E. cbn [fst] in E. congruence.
    + injection E as <- <-. exact Hm.
Qed.

Lemma view_countUsage (code : str) (registry : Registry) :
  (forall n t, g (withUsageCount n t) = g t) ->
  view g (countUsage code registry) = view g registry.
Proof.
  intros Hg. destruct (countUsage_enough code registry) as (visited & H).
  apply (view_countVariableUsage Hg _ _ _ _ _ H).
Qed.

Lemma view_markVariablesSetElsewhere (code : str) (registry : Registry) :
  (forall b t, g (withSetElsewhere b t) = g t) ->
  view g (markVariablesSetElsewhere code registry) = view g registry.
Proof.
  intros Hg. unfold markVariablesSetElsewhere.
  apply (view_map_entries registry
           (fun varName variable =>
              if test (setRegex varName) (blankTokensLayers code)
              then withSetElsewhere true variable else variable)).
  intros k t. now destruct (test _ _).
Qed.

Lemma view_resetUsageCounts (registry : Registry) :
  (forall n t, g (withUsageCount n t) = g t) ->
  (forall n e t, g (withMangling n e t) = g t) ->
  view g (resetUsageCounts registry) = view g registry.
Proof.
  intros Hu Hm. unfold resetUsageCounts.
  apply (view_map_entries registry
           (fun _ variable =>
              withMangling None false (withUsageCount 0 variable))).
  intros k t. now rewrite Hm, Hu.
Qed.

Lemma view_generateMangledNames (registry : Registry) (manglePrefix : str) :
  (forall n e t, g (withMangling n e t) = g t) ->
  view g (fst (generateMangledNames registry manglePrefix)) = view g registry.
Proof.
  intros Hm. unfold generateMangledNames.
  generalize (groupByValue registry) as gs. generalize 0 as counter.
  intros counter gs. revert registry counter.
  induction gs as [|[r names] gs IH]; intros registry counter;
    [reflexivity|].
  cbn [fold_left]. unfold decideGroup.
  destruct (shouldMangle _ _ _); rewrite IH.
  - apply (view_fold_modify
             (fun vName =>
                withMangling (Some (mangledNameFor manglePrefix counter))
                  (str_eqb vName (canonicalVarName registry names)))).
    intros; apply Hm.
  - apply (view_fold_modify (fun _ => withMangling None false)).
    intros; apply Hm.
Qed.

Lemma view_analysis_loop (sources : list str) (registry : Registry) :
  (forall n t, g (withUsageCount n t) = g t) ->
  (forall b t, g (withSetElsewhere b t) = g t) ->
  view g (fold_left
            (fun registry code =>
               countUsage code (markVariablesSetElsewhere code registry))
            sources registry)
  = view g registry.
Proof.
  intros Hu Hs. revert registry.
  induction sources as [|code sources IH]; intros registry; [reflexivity|].
  cbn [fold_left].
  now rewrite IH, view_countUsage, view_markVariablesSetElsewhere.
Qed.

Lemma view_analyze (sources : list str) (registry : Registry) :
  (forall n t, g (withUsageCount n t) = g t) ->
  (forall b t, g (withSetElsewhere b t) = g t) ->
  (forall n e t, g (withMangling n e t) = g t) ->
  view g (analyze sources registry) = view g registry.
Proof.
  intros Hu Hs Hm. unfold analyze.
  now rewrite view_analysis_loop, view_resetUsageCounts.
Qed.

Lemma view_decide (sources : list str) (manglePrefix : str) :
  (forall n t, g (withUsageCount n t) = g t) ->
  (forall b t, g (withSetElsewhere b t) = g t) ->
  (forall n e t, g (withMangling n e t) = g t) ->
  view g (decide sources manglePrefix) = view g (extractAll sources).
Proof.
  intros Hu Hs Hm. unfold decide.
  now rewrite view_generateMangledNames, view_analyze.
Qed.
End Views.

Lemma view_get {X : Type} (g : Token -> X) (r1 r2 : Registry) (k : str) :
  view g r1 = view g r2 ->
  option_map g (get r1 k) = option_map g (get r2 k).
Proof. intros H. now rewrite <- !get_view, H. Qed.

Lemma view_keys {X : Type} (g : Token -> X) (r1 r2 : Registry) :
  view g r1 = view g r2 -> map fst r1 = map fst r2.
Proof. intros H. now rewrite <- (keys_view g r1), H, keys_view. Qed.

(** ** Braces *)

Lemma opens_cons (c : N) (s : str) :
  opens (c :: s) = (if (c =? 123)%N then 1 else 0) + opens s.
Proof.
  unfold opens. cbn [count_occ].
  destruct (N.eqb_spec c 123), (N.eq_dec c 123); simpl; congruence.
Qed.

Lemma closes_cons (c : N) (s : str) :
  closes (c :: s) = (if (c =? 125)%N then 1 else 0) + closes s.
Proof.
  unfold closes. cbn [count_occ].
  destruct (N.eqb_spec c 125), (N.eq_dec c 125); simpl; congruence.
Qed.

Lemma findMatchingBrace_loop_first (len : nat) (s : str) :
  forall i depth,
    1 <= depth -> i + length s = len ->
    let e := findMatchingBrace_loop len s i depth in
    (forall j, j < e - i ->
       closes (firstn (S j) s) < depth + opens (firstn (S j) s))
    /\ (e < len ->
        nth_error s (e - i) = Some 125%N
        /\ depth + opens (firstn (e - i) s) = S (closes (firstn (e - i) s))).
Proof.
  induction s as [|c s IH]; intros i depth Hd Hlen; cbn zeta;
    cbn [findMatchingBrace_loop].
  { simpl in Hlen. split; [intros j Hj; lia|intros He; lia]. }
  cbn [length] in Hlen.
  set (depth' := if (c =? 123)%N then S depth
                 else if (c =? 125)%N then depth - 1 else depth).
  assert (Hstep : forall l,
             depth' + opens l + (if (c =? 125)%N then 1 else 0)
             = depth + opens (c :: l) /\ closes (c :: l)
               = (if (c =? 125)%N then 1 else 0) + closes l).
  { intros l. rewrite opens_cons, closes_cons. unfold depth'.
    destruct (N.eqb_spec c 123) as [->|H1]; [simpl; lia|].
    destruct (c =? 125)%N; lia. }
  destruct (depth' =? 0) eqn:E0.
  - apply Nat.eqb_eq in E0. rewrite Nat.sub_diag. split; [intros j Hj; lia|].
    intros _. cbn [firstn nth_error].
    destruct (Hstep []) as [H1 H2]. rewrite opens_cons in H1.
    unfold depth' in E0.
    destruct (N.eqb_spec c 123) as [->|Hc1]; [lia|].
    destruct (N.eqb_spec c 125) as [->|Hc2]; [|lia].
    split; [reflexivity|]. unfold opens, closes. simpl. lia.
  - apply Nat.eqb_neq in E0.
    pose proof (findMatchingBrace_loop_bounds len s (S i) depth'
                  ltac:(lia)) as Hb.
    destruct (IH (S i) depth' ltac:(lia) ltac:(lia)) as [IH1 IH2].
    split.
    + intros [|j] Hj.
      * cbn [firstn]. destruct (Hstep []) as [H1 H2]. rewrite H2.
        unfold closes at 1. cbn [count_occ]. rewrite <- H1.
        destruct (c =? 125)%N; lia.
      * rewrite firstn_cons. destruct (Hstep (firstn (S j) s)) as [H1 H2].
        specialize (IH1 j ltac:(lia)). rewrite H2, <- H1.
        destruct (c =? 125)%N; lia.
    + intros He.
      replace (findMatchingBrace_loop len s (S i) depth' - i)
        with (S (findMatchingBrace_loop len s (S i) depth' - S i)) by lia.
      rewrite firstn_cons. cbn [nth_error]. destruct (IH2 He) as [Hn Hc].
      split; [exact Hn|].
      destruct (Hstep (firstn (findMatchingBrace_loop len s (S i) depth'
                                - S i) s)) as [H1 H2].
      rewrite H2, <- H1. destruct (c =? 125)%N; lia.
Qed.

Lemma findMatchingBrace_spec (code : str) (start : nat) :
  start <= length code ->
  let e := findMatchingBrace code start in
  start <= e <= length code
  /\ (forall j, start <= j < e ->
        closes (slice code start (S j)) <= opens (slice code start (S j)))
  /\ (e < length code ->
      nth_error code e = Some 125%N
      /\ opens (slice code start e) = closes (slice code start e)).
Proof.
  intros Hstart. cbn zeta. unfold findMatchingBrace, slice.
  assert (Hlen : start + length (skipn start code) = length code)
    by (rewrite length_skipn; lia).
  pose proof (findMatchingBrace_loop_bounds (length code) (skipn start code)
                start 1 Hlen) as Hb.
  destruct (findMatchingBrace_loop_first (length code) (skipn start code)
              start 1 ltac:(lia) Hlen) as [H1 H2].
  split; [exact Hb|]. split.
  - intros j Hj. replace (S j - start) with (S (j - start)) by lia.
    specialize (H1 (j - start) ltac:(lia)). lia.
  - intros He. destruct (H2 He) as [Hn Hc]. split; [|lia].
    rewrite nth_error_skipn in Hn. rewrite <- Hn. f_equal. lia.
Qed.

(** X1.  [findMatchingBrace(code, start)], called at an offset within the
    text, returns the offset of the first closing brace from [start] on that
    no opening brace from [start] on matches, and [code.length] when there is
    none: the result lies between [start] and [code.length]; before it, no
    prefix of the text from [start] on has more closing than opening braces;
    and a result inside the text is the offset of a closing brace, with as
    many opening as closing braces between [start] and it. *)
Theorem findMatchingBrace_first_unmatched (code : str) (start : nat) :
  start <= length code ->
  let e := findMatchingBrace code start in
  start <= e <= length code
  /\ (forall j, start <= j < e ->
        closes (slice code start (S j)) <= opens (slice code start (S j)))
  /\ (e < length code ->
      nth_error code e = Some 125%N
      /\ opens (slice code start e) = closes (slice code start e)).
Proof. apply findMatchingBrace_spec. Qed.

(** In [a{b{c}d}e}f] from offset 3 on. *)
Lemma findMatchingBrace_first_unmatched_witness :
  let code : str := "a{b{c}d}e}f" in
  3 <= length code
  /\ findMatchingBrace code 3 = 7
  /\ nth_error code 7 = Some 125%N
  /\ opens (slice code 3 7) = closes (slice code 3 7).
Proof.
  cbn zeta.
  pose proof (findMatchingBrace_first_unmatched "a{b{c}d}e}f" 3
                ltac:(vm_compute; lia)) as H.
  cbn zeta in H. destruct H as (_ & _ & H).
  assert (E : findMatchingBrace "a{b{c}d}e}f" 3 = 7)
    by (vm_compute; reflexivity).
  rewrite E in H. split; [vm_compute; lia|]. split; [exact E|].
  apply H. vm_compute; lia.
Defined.

(** ** What a match has read *)

Lemma isPrefix_app (l s : str) :
  isPrefix l s = true -> s = l ++ skipn (length l) s.
Proof.
  intros H. apply isPrefix_length in H. destruct H as [_ H].
  transitivity (firstn (length l) s ++ skipn (length l) s);
    [symmetry; apply firstn_skipn|now rewrite H].
Qed.

Lemma isPrefix_app_true (l rest : str) : isPrefix l (l ++ rest) = true.
Proof.
  induction l as [|c l IH]; simpl; [reflexivity|].
  now rewrite N.eqb_refl.
Qed.

Lemma star_reads {R : Type} (p : N -> bool) (s : str) :
  forall pos (k : nat -> str -> option R) x,
    star p pos s k = Some x ->
    exists w rest,
      s = w ++ rest /\ forallb p w = true
      /\ k (pos + length w) rest = Some x.
Proof.
  induction s as [|c s IH]; intros pos k x H; cbn [star] in H.
  - exists [], []. cbn [length]. rewrite Nat.add_0_r. auto.
  - destruct (p c) eqn:Hc.
    + destruct (star p (S pos) s k) as [y|] eqn:E.
      * injection H as <-. destruct (IH _ _ _ E) as (w & rest & -> & Hw & Hk).
        exists (c :: w), rest. cbn [forallb length]. rewrite Hc, Hw.
        replace (pos + S (length w)) with (S pos + length w) by lia. auto.
      * exists [], (c :: s). cbn [length forallb]. rewrite Nat.add_0_r.
        auto.
    + exists [], (c :: s). cbn [length forallb]. rewrite Nat.add_0_r. auto.
Qed.

Lemma run_reads {R : Type} (r : regex) :
  forall pos s caps (k : nat -> str -> captures -> option R) x,
    run r pos s caps k = Some x ->
    exists w rest caps',
      s = w ++ rest /\ matchesTo r pos caps w rest caps'
      /\ k (pos + length w) rest caps' = Some x.
Proof.
  induction r as [l|p|p|r1 IH1 r2 IH2|r1 IH1|i r1 IH1| |];
    intros pos s caps k x H; cbn [run] in H.
  - destruct (isPrefix l s) eqn:E; [|discriminate].
    exists l, (skipn (length l) s), caps.
    split; [now apply isPrefix_app|]. split; [constructor|exact H].
  - apply star_reads in H. destruct H as (w & rest & -> & Hw & Hk).
    exists w, rest, caps. split; [reflexivity|]. split; [now constructor|].
    exact Hk.
  - destruct s as [|c s]; [discriminate|].
    destruct (p c) eqn:Hc; [|discriminate].
    apply star_reads in H. destruct H as (w & rest & -> & Hw & Hk).
    exists (c :: w), rest, caps. split; [reflexivity|]. split.
    + constructor; [discriminate|]. cbn [forallb]. now rewrite Hc.
    + cbn [length].
      now replace (pos + S (length w)) with (S pos + length w) by lia.
  - apply IH1 in H. destruct H as (w1 & rest1 & c1 & -> & M1 & H).
    apply IH2 in H. destruct H as (w2 & rest & c2 & -> & M2 & H).
    exists (w1 ++ w2), rest, c2. split; [now rewrite app_assoc|].
    split; [now apply (matches_seq _ _ _ _ _ c1)|].
    now rewrite length_app, Nat.add_assoc.
  - destruct (run r1 pos s caps k) as [y|] eqn:E.
    + injection H as <-. apply IH1 in E.
      destruct E as (w & rest & c1 & -> & M & Hk).
      exists w, rest, c1. split; [reflexivity|].
      split; [now apply matches_opt_some|exact Hk].
    + exists [], s, caps. cbn [length]. rewrite Nat.add_0_r.
      split; [reflexivity|]. split; [apply matches_opt_none|exact H].
  - apply IH1 in H. destruct H as (w & rest & c1 & -> & M & Hk).
    exists w, rest, ((i, w) :: c1). split; [reflexivity|].
    split; [now constructor|].
    replace (pos + length w - pos) with (length w) in Hk by lia.
    now rewrite firstn_app, Nat.sub_diag, firstn_all, firstn_O, app_nil_r
      in Hk.
  - destruct (pos =? 0) eqn:E; [|discriminate]. apply Nat.eqb_eq in E.
    subst pos. exists [], s, caps. split; [reflexivity|].
    split; [constructor|exact H].
  - destruct s; [|discriminate].
    exists [], [], caps. cbn [length]. rewrite Nat.add_0_r.
    split; [reflexivity|].
    split; [constructor|exact H].
Qed.

Lemma matchAt_reads (r : regex) (pos : nat) (s : str) (m : Match) :
  matchAt r pos s = Some m ->
  exists w rest caps',
    s = w ++ rest /\ matchesTo r pos [] w rest caps'
    /\ m = mkMatch pos w caps'.
Proof.
  unfold matchAt. intros H. apply run_reads in H.
  destruct H as (w & rest & caps' & -> & M & H).
  exists w, rest, caps'. split; [reflexivity|]. split; [exact M|].
  injection H as <-. f_equal.
  replace (pos + length w - pos) with (length w) by lia.
  now rewrite firstn_app, Nat.sub_diag, firstn_all, firstn_O, app_nil_r.
Qed.

(** Every match of a scan is a match at some offset of some rest of the
    text. *)
Lemma matchAllFrom_matchAt (r : regex) (s : str) :
  forall pos skip m,
    In m (matchAllFrom r pos s skip) ->
    exists s', matchAt r (index m) s' = Some m
               /\ s' = skipn (index m - pos) s.
Proof.
  induction s as [|c s IH]; intros pos skip m H.
  - destruct skip as [|skip]; cbn [matchAllFrom] in H; [|contradiction].
    destruct (matchAt r pos []) as [m0|] eqn:E; [|contradiction].
    destruct H as [<-|[]]. pose proof (matchAt_text _ _ _ _ E) as (Hi & _).
    rewrite Hi, Nat.sub_diag. exists []. split; [exact E|reflexivity].
  - assert (Hrest : forall skip',
               In m (matchAllFrom r (S pos) s skip') ->
               exists s', matchAt r (index m) s' = Some m
                          /\ s' = skipn (index m - pos) (c :: s)).
    { intros skip' Hin. pose proof (matchAllFrom_index _ _ _ _ _ Hin) as Hi.
      destruct (IH _ _ _ Hin) as (s' & Hm & ->).
      exists (skipn (index m - S pos) s). split; [exact Hm|].
      now replace (index m - pos) with (S (index m - S pos)) by lia. }
    destruct skip as [|skip]; cbn [matchAllFrom] in H.
    + destruct (matchAt r pos (c :: s)) as [m0|] eqn:E.
      * destruct H as [<-|H]; [|now apply Hrest in H].
        pose proof (matchAt_text _ _ _ _ E) as (Hi & _).
        rewrite Hi, Nat.sub_diag. exists (c :: s). now split.
      * now apply Hrest in H.
    + now apply Hrest in H.
Qed.

(** Successive matches do not overlap. *)
Lemma matchAllFrom_sorted (r : regex) (s : str) :
  forall pos skip,
    StronglySorted
      (fun a b => index a < index b
                  /\ index a + length (text a) <= index b)
      (matchAllFrom r pos s skip).
Proof.
  induction s as [|c s IH]; intros pos skip.
  - destruct skip as [|skip]; cbn [matchAllFrom]; [|constructor].
    destruct (matchAt r pos []); repeat constructor.
  - destruct skip as [|skip]; cbn [matchAllFrom]; [|apply IH].
    destruct (matchAt r pos (c :: s)) as [m|] eqn:E; [|apply IH].
    constructor; [apply IH|]. apply Forall_forall. intros b Hb.
    apply matchAllFrom_index in Hb. apply matchAt_text in E. lia.
Qed.

(** ** The matches of the patterns *)

Lemma isVarName_intro (name : str) :
  name <> [] -> forallb isWordOrDash name = true ->
  isVarName ("--" ++ name) = true.
Proof.
  destruct name as [|c name]; [congruence|]. intros _ H.
  unfold isVarName. change (skipn 2 ("--" ++ c :: name)) with (c :: name).
  rewrite H. reflexivity.
Qed.

Lemma VAR_DEF_REGEX_reads (pos : nat) (w rest : str) (caps' : captures) :
  matchesTo VAR_DEF_REGEX pos [] w rest caps' ->
  exists name val,
    caps' = [(2, val); (1, "--" ++ name)]
    /\ isVarName ("--" ++ name) = true
    /\ val <> [] /\ forallb notSemiOrBrace val = true.
Proof.
  unfold VAR_DEF_REGEX. intros H. invert_matches;
    eexists _, _; (split; [reflexivity|]);
    (split; [now apply isVarName_intro|now split]).
Qed.

Lemma LAYER_TOKENS_REGEX_reads (pos : nat) (w rest : str)
    (caps' : captures) :
  matchesTo LAYER_TOKENS_REGEX pos [] w rest caps' ->
  exists header,
    w = "@layer" ++ header ++ "{" /\ 7 <= length header.
Proof.
  unfold LAYER_TOKENS_REGEX. intros H. invert_matches.
  match goal with
  | |- context [lit "@layer" ++ ?sp ++ lit "tokens" ++ ?sp' ++ lit "{"] =>
      exists (sp ++ lit "tokens" ++ sp'); split;
      [now rewrite <- !app_assoc|];
      rewrite !length_app; destruct sp; [congruence|];
      change (length (lit "tokens")) with 6; cbn [length]; lia
  end.
Qed.

(** The declaration matches: the name and the value text. *)
Lemma VAR_DEF_REGEX_groups (s : str) (m : Match) :
  In m (matchAll VAR_DEF_REGEX s) ->
  isVarName (group 1 m) = true
  /\ forallb notSemiOrBrace (group 2 m) = true.
Proof.
  intros H. apply matchAllFrom_matchAt in H. destruct H as (s' & H & _).
  apply matchAt_reads in H. destruct H as (w & rest & caps' & _ & M & ->).
  apply VAR_DEF_REGEX_reads in M.
  destruct M as (name & val & -> & Hn & _ & Hv). now split.
Qed.

(** ** The tokens layers *)

Lemma findTokensLayers_spanOf (code : str) :
  Forall (spanOf code) (findTokensLayers code).
Proof.
  apply Forall_forall. intros layer Hin. unfold findTokensLayers in Hin.
  apply in_map_iff in Hin. destruct Hin as (m & <- & Hin).
  unfold matchAll in Hin.
  destruct (matchAllFrom_matchAt _ _ _ _ _ Hin) as (s' & Hm & Hs').
  rewrite Nat.sub_0_r in Hs'.
  apply matchAt_reads in Hm. destruct Hm as (w & rest & caps' & Hw & M & Em).
  apply LAYER_TOKENS_REGEX_reads in M. destruct M as (header & Eh & Hh).
  assert (Htext : text m = w) by now rewrite Em.
  assert (Hlw : length w = length header + 7).
  { rewrite Eh, !length_app. change (length (lit "@layer")) with 6.
    change (length (lit "{")) with 1. lia. }
  assert (Hcode : length code = index m + length w + length rest
                  /\ index m <= length code).
  { assert (L : length s' = length w + length rest)
      by (rewrite Hw; apply length_app).
    rewrite Hs', length_skipn in L.
    destruct (Nat.le_gt_cases (index m) (length code)); lia. }
  destruct Hcode as [Hcode Hidx].
  set (cs := index m + length (text m)).
  destruct (findMatchingBrace_spec code cs ltac:(unfold cs; rewrite Htext; lia))
    as (Hb & Hopen & Hclose).
  set (e := findMatchingBrace code cs) in *.
  assert (Hlc : length (slice code cs e) = e - cs).
  { unfold slice. rewrite length_firstn, length_skipn. lia. }
  unfold spanOf. cbn [start end_ content]. fold cs. fold e.
  rewrite Hlc. replace (e + 1 - 1) with e by lia.
  replace (e - (e - cs)) with cs by lia.
  split; [unfold cs; rewrite Htext; lia|]. split; [lia|].
  split; [reflexivity|]. split.
  { rewrite <- Hs', Hw, Eh, <- app_assoc. apply isPrefix_app_true. }
  split.
  { replace (cs - 1) with (index m + (length w - 1))
      by (unfold cs; rewrite Htext; lia).
    rewrite <- nth_error_skipn, <- Hs', Hw.
    rewrite nth_error_app1 by lia. rewrite Eh, app_assoc.
    rewrite nth_error_app2
      by (rewrite !length_app; change (length (lit "{")) with 1; lia).
    rewrite !length_app. change (length (lit "{")) with 1.
    replace (_ - 1 - _) with 0 by lia. reflexivity. }
  split; [reflexivity|]. split; [exact Hopen|exact Hclose].
Qed.

Lemma StronglySorted_map {A B : Type} (R : A -> A -> Prop)
    (Q : B -> B -> Prop) (f : A -> B) (l : list A) :
  (forall a b, In a l -> In b l -> R a b -> Q (f a) (f b)) ->
  StronglySorted R l -> StronglySorted Q (map f l).
Proof.
  intros H HS. induction HS as [|a l HS IH Ha]; cbn [map]; constructor.
  - apply IH. intros x y Hx Hy. apply H; now right.
  - rewrite Forall_forall in *. intros y Hy. apply in_map_iff in Hy.
    destruct Hy as (b & <- & Hb). apply H; [now left|now right|auto].
Qed.

(** X2.  [findTokensLayers] reports the tokens layers of a text in text
    order, and the headers of two layers do not overlap: the start of a layer
    is at least 14 code units after the start of the one before.  Every span
    it reports has the anatomy [spanOf]: it starts at the [@] of a header
    [@layer tokens {], the content starts right after the brace of the header
    and is the text up to [end - 1], which is within the text; no prefix of
    the content has more closing than opening braces; and when [end - 1] is
    inside the text it is the offset of the closing brace of the layer, and
    the content has as many opening as closing braces. *)
Theorem tokens_layers_in_text_order (code : str) :
  Forall (spanOf code) (findTokensLayers code)
  /\ StronglySorted (fun a b => start a + 14 <= start b)
                    (findTokensLayers code).
Proof.
  split; [apply findTokensLayers_spanOf|].
  unfold findTokensLayers.
  apply (StronglySorted_map
           (fun a b => index a < index b
                       /\ index a + length (text a) <= index b));
    [|apply matchAllFrom_sorted].
  intros a b Ha _ [_ Hab]. cbn [start].
  apply matchAllFrom_matchAt in Ha. destruct Ha as (s' & Hm & _).
  apply matchAt_reads in Hm. destruct Hm as (w & rest & caps' & _ & M & Em).
  apply LAYER_TOKENS_REGEX_reads in M. destruct M as (header & Eh & Hh).
  assert (14 <= length (text a)); [|lia].
  rewrite Em. cbn [text]. rewrite Eh, !length_app.
  change (length (lit "@layer")) with 6. change (length (lit "{")) with 1. lia.
Qed.

(** A closed layer followed by one that is opened at the end of the
    text. *)
Example spans_of_two_layers :
  map (fun layer => (start layer, end_ layer, content layer))
      (findTokensLayers "a{}@layer tokens{:root{--a:1px}}@layer  tokens {")
  = [(3, 32, lit ":root{--a:1px}"); (32, 49, [])].
Proof. vm_compute; reflexivity. Qed.

(** ** Extraction *)

(** One step of the inner loop of [extractTokensVariables]. *)
Lemma extractTokensVariables_fold (code : str) (registry : Registry) :
  extractTokensVariables code registry =
  fold_left
    (fun registry m =>
       if negb (has registry (group 1 m)) then
         set registry (group 1 m) (freshToken (trim (group 2 m)))
       else
         modify registry (group 1 m)
           (fun v =>
              match isAlias v with
              | None =>
                  withIsAlias
                    (Some (test VAR_ONLY_REGEX (trim (group 2 m)))) v
              | Some _ => v
              end))
    (layerMatches code) registry.
Proof.
  unfold extractTokensVariables, layerMatches.
  generalize (findTokensLayers code). intros layers. revert registry.
  induction layers as [|layer layers IH]; intros registry; [reflexivity|].
  cbn [fold_left flat_map]. rewrite fold_left_app. apply IH.
Qed.

Lemma first_declaration_fold (step := fun (registry : Registry) (m : Match) =>
       if negb (has registry (group 1 m)) then
         set registry (group 1 m) (freshToken (trim (group 2 m)))
       else
         modify registry (group 1 m)
           (fun v =>
              match isAlias v with
              | None =>
                  withIsAlias
                    (Some (test VAR_ONLY_REGEX (trim (group 2 m)))) v
              | Some _ => v
              end))
    (varName : str) (ms : list Match) :
  forall registry,
    get (fold_left step ms registry) varName =
    match get registry varName with
    | Some variable =>
        Some (match isAlias variable,
                    find (fun m => str_eqb (group 1 m) varName) ms with
              | None, Some m =>
                  withIsAlias (Some (test VAR_ONLY_REGEX (trim (group 2 m))))
                              variable
              | _, _ => variable
              end)
    | None =>
        option_map (fun m => freshToken (trim (group 2 m)))
                   (find (fun m => str_eqb (group 1 m) varName) ms)
    end
    /\ exists added,
         map fst (fold_left step ms registry) = map fst registry ++ added.
Proof.
  induction ms as [|m ms IH]; intros registry.
  { cbn [fold_left find option_map]. split.
    - destruct (get registry varName) as [t|]; [|reflexivity].
      now destruct (isAlias t).
    - exists []. now rewrite app_nil_r. }
  cbn [fold_left find].
  destruct (IH (step registry m)) as [IHget [added IHkeys]].
  split.
  - rewrite IHget. clear IHget IHkeys. unfold step, has.
    destruct (str_eqb (group 1 m) varName) eqn:E.
    + apply str_eqb_eq in E. rewrite E.
      destruct (get registry varName) as [t|] eqn:Hget; cbn [negb].
      * rewrite get_modify_same, Hget. cbn [option_map].
        destruct (isAlias t) eqn:Ha; [now rewrite Ha|reflexivity].
      * rewrite get_set, str_eqb_refl. reflexivity.
    + apply str_eqb_neq in E.
      destruct (get registry (group 1 m)) as [t1|]; cbn [negb].
      * rewrite get_modify_other by congruence. reflexivity.
      * rewrite get_set.
        replace (str_eqb varName (group 1 m)) with false
          by (symmetry; apply str_eqb_neq; congruence).
        reflexivity.
  - rewrite IHkeys. unfold step, has.
    destruct (get registry (group 1 m)) as [t1|] eqn:Hget; cbn [negb].
    + rewrite keys_modify. now exists added.
    + rewrite keys_set_new by exact Hget. rewrite <- app_assoc.
      now exists ([group 1 m] ++ added).
Qed.

(** X3.  [extractTokensVariables] keeps the first value seen for a name.
    For a name that the registry holds already, the token stays as it is,
    but for its alias flag, which is filled in from the first declaration of
    the name in the text when it was undefined.  For a new name, the token is
    made from the first declaration of the name in the tokens layers of the
    text: its value is the trimmed value text, nothing is counted or decided
    yet, and its alias flag says whether the value is one reference; without
    a declaration the name stays absent.  The names that the registry held
    keep their places, and the new names follow them. *)
Theorem first_declaration_wins (code : str) (registry : Registry)
    (varName : str) :
  let first :=
    find (fun m => str_eqb (group 1 m) varName) (layerMatches code) in
  get (extractTokensVariables code registry) varName =
  match get registry varName with
  | Some variable =>
      Some (match isAlias variable, first with
            | None, Some m =>
                withIsAlias (Some (test VAR_ONLY_REGEX (trim (group 2 m))))
                            variable
            | _, _ => variable
            end)
  | None => option_map (fun m => freshToken (trim (group 2 m))) first
  end
  /\ exists added,
       map fst (extractTokensVariables code registry)
       = map fst registry ++ added.
Proof.
  cbn zeta. rewrite extractTokensVariables_fold.
  apply first_declaration_fold.
Qed.

(** On [declaredAgain] the first values win. *)
Example first_declaration_of_declaredAgain :
  map (fun '(k, t) => (k, value t, isAlias t)) (extractAll [declaredAgain])
  = [(lit "--a", lit "1px", Some false);
     (lit "--b", lit "var(--a)", Some true)].
Proof. vm_compute; reflexivity. Qed.

Lemma trimStart_head (s : str) :
  match trimStart s with [] => True | c :: _ => isSpace c = false end.
Proof.
  induction s as [|c s IH]; simpl; [exact I|].
  destruct (isSpace c) eqn:E; [exact IH|exact E].
Qed.

Lemma trimStart_fixed (s : str) :
  match s with [] => True | c :: _ => isSpace c = false end ->
  trimStart s = s.
Proof. destruct s as [|c s]; simpl; [reflexivity|]. now intros ->. Qed.

Lemma trimStart_last (l : str) (c : N) :
  isSpace c = false -> exists l', trimStart (l ++ [c]) = l' ++ [c].
Proof.
  intros Hc. induction l as [|a l IH]; simpl.
  - exists []. now rewrite Hc.
  - destruct (isSpace a); [exact IH|]. now exists (a :: l).
Qed.

Lemma trim_trim (s : str) : trim (trim s) = trim s.
Proof.
  unfold trim at 2 3. pose proof (trimStart_head s) as Hy.
  destruct (trimStart s) as [|c y]; [reflexivity|].
  cbn [rev]. destruct (trimStart_last (rev y) c Hy) as (l' & El).
  pose proof (trimStart_head (rev y ++ [c])) as Hx. rewrite El in *.
  unfold trim. rewrite rev_app_distr. cbn [rev app].
  rewrite (trimStart_fixed (c :: rev l')) by exact Hy.
  cbn [rev]. rewrite rev_involutive.
  rewrite (trimStart_fixed (l' ++ [c])) by exact Hx.
  now rewrite rev_app_distr.
Qed.

Lemma Forall_set {V : Type} (P : str * V -> Prop) (m : list (str * V))
    (k : str) (v : V) :
  Forall P m -> P (k, v) -> Forall P (set m k v).
Proof.
  intros Hm Hv. induction Hm as [|[j w] m Hj Hm IH]; simpl.
  - now constructor.
  - destruct (str_eqb k j); now constructor.
Qed.

Lemma Forall_modify {V : Type} (P : str * V -> Prop) (m : list (str * V))
    (k : str) (f : V -> V) :
  Forall P m -> (forall j v, P (j, v) -> P (j, f v)) ->
  Forall P (modify m k f).
Proof.
  intros Hm Hf. induction Hm as [|[j w] m Hj Hm IH]; simpl.
  - constructor.
  - destruct (str_eqb k j); constructor; auto.
Qed.

Lemma extractTokensVariables_fresh (code : str) (registry : Registry) :
  Forall isFresh registry ->
  Forall isFresh (extractTokensVariables code registry).
Proof.
  rewrite extractTokensVariables_fold.
  generalize (layerMatches code). intros ms. revert registry.
  induction ms as [|m ms IH]; intros registry H; [exact H|].
  cbn [fold_left]. apply IH. destruct (negb _).
  - apply Forall_set; [exact H|]. split; [reflexivity|].
    cbn [snd value freshToken].
    apply trim_trim.
  - apply Forall_modify; [exact H|].
    intros j v [Hv Ht]. cbn [snd] in *. rewrite Hv. cbn [isAlias freshToken].
    rewrite <- Hv. now split.
Qed.

Lemma extractAll_isFresh (sources : list str) :
  Forall isFresh (extractAll sources).
Proof.
  unfold extractAll.
  enough (G : forall registry : Registry,
             Forall isFresh registry ->
             Forall isFresh
               (fold_left (fun registry source =>
                             extractTokensVariables source registry)
                          sources registry))
    by (apply G; constructor).
  induction sources as [|source sources IH]; intros registry H; [exact H|].
  cbn [fold_left]. now apply IH, extractTokensVariables_fresh.
Qed.

(** X4.  The registry that the orchestrator extracts from the CSS assets
    of a bundle holds fresh tokens only: count 0, not set elsewhere, no
    synthetic name, no declaration to emit, the alias flag computed from the
    value by [VAR_ONLY_REGEX], and a value that [trim] leaves as it is.  So
    the [resetUsageCounts] that follows changes nothing. *)
Theorem extraction_enters_fresh_tokens (sources : list str) :
  (forall varName variable,
      get (extractAll sources) varName = Some variable ->
      variable = freshToken (value variable)
      /\ trim (value variable) = value variable)
  /\ resetUsageCounts (extractAll sources) = extractAll sources.
Proof.
  pose proof (extractAll_isFresh sources) as H. split.
  - intros varName variable Hget. apply get_In in Hget.
    rewrite Forall_forall in H. apply (H _ Hget).
  - unfold resetUsageCounts. induction H as [|[k t] registry [Ht _] _ IH];
      [reflexivity|].
    cbn [map]. rewrite IH. cbn [snd] in Ht. rewrite Ht. reflexivity.
Qed.

Lemma forallb_trimStart (p : N -> bool) (s : str) :
  forallb p s = true -> forallb p (trimStart s) = true.
Proof.
  induction s as [|c s IH]; simpl; [trivial|].
  intros H. destruct (isSpace c); [|exact H].
  apply andb_true_iff in H. now apply IH.
Qed.

Lemma forallb_reverse (p : N -> bool) (s : str) :
  forallb p s = true -> forallb p (rev s) = true.
Proof.
  rewrite !forallb_forall. intros H x Hx. apply H. now apply in_rev.
Qed.

Lemma forallb_trim (p : N -> bool) (s : str) :
  forallb p s = true -> forallb p (trim s) = true.
Proof.
  intros H. unfold trim.
  now apply forallb_reverse, forallb_trimStart, forallb_reverse,
    forallb_trimStart.
Qed.

Lemma isWordOrDash_plain (c : N) :
  isWordOrDash c = true -> isRegexSpecial c = false.
Proof.
  intros H. destruct (isRegexSpecial c) eqn:E; [|reflexivity].
  unfold isRegexSpecial in E. apply existsb_exists in E.
  destruct E as (x & Hx & E). apply N.eqb_eq in E. subst x.
  cbn [In] in Hx.
  repeat (destruct Hx as [<-|Hx]; [vm_compute in H; discriminate|]).
  contradiction.
Qed.

Lemma escapeRegex_plain (s : str) :
  forallb (fun c => negb (isRegexSpecial c)) s = true -> escapeRegex s = s.
Proof.
  unfold escapeRegex. induction s as [|c s IH]; [reflexivity|].
  cbn [forallb flat_map]. intros H. apply andb_true_iff in H.
  destruct H as [Hc Hs]. apply negb_true_iff in Hc. rewrite Hc, IH by exact Hs.
  reflexivity.
Qed.

Lemma escapeRegex_isVarName (k : str) :
  isVarName k = true -> escapeRegex k = k.
Proof.
  unfold isVarName. intros H. apply andb_true_iff in H. destruct H as [H Hw].
  apply andb_true_iff in H. destruct H as [Hp _].
  apply isPrefix_app in Hp. change (length (lit "--")) with 2 in Hp.
  apply escapeRegex_plain. rewrite Hp, forallb_app.
  apply andb_true_iff. split; [reflexivity|].
  rewrite forallb_forall in Hw. apply forallb_forall.
  intros x Hx. apply negb_true_iff, isWordOrDash_plain, Hw, Hx.
Qed.

Lemma extractTokensVariables_wellFormed (code : str) (registry : Registry) :
  Forall wellFormed registry ->
  Forall wellFormed (extractTokensVariables code registry).
Proof.
  rewrite extractTokensVariables_fold.
  assert (Hms : Forall (fun m => isVarName (group 1 m) = true
                                 /\ forallb notSemiOrBrace (group 2 m) = true)
                       (layerMatches code)).
  { apply Forall_forall. intros m Hm. unfold layerMatches in Hm.
    apply in_flat_map in Hm. destruct Hm as (layer & _ & Hm).
    apply (VAR_DEF_REGEX_groups _ _ Hm). }
  revert Hms. generalize (layerMatches code). intros ms Hms. revert registry.
  induction Hms as [|m ms [Hn Hv] _ IH]; intros registry H; [exact H|].
  cbn [fold_left]. apply IH. destruct (negb _).
  - apply Forall_set; [exact H|]. split; [exact Hn|].
    cbn [snd value freshToken]. now apply forallb_trim.
  - apply Forall_modify; [exact H|].
    intros j v [H1 H2]. split; [exact H1|]. cbn [snd] in *.
    now destruct (isAlias v).
Qed.

Lemma extractAll_wellFormed (sources : list str) :
  Forall wellFormed (extractAll sources).
Proof.
  unfold extractAll.
  enough (G : forall registry : Registry,
             Forall wellFormed registry ->
             Forall wellFormed
               (fold_left (fun registry source =>
                             extractTokensVariables source registry)
                          sources registry))
    by (apply G; constructor).
  induction sources as [|source sources IH]; intros registry H; [exact H|].
  cbn [fold_left]. now apply IH, extractTokensVariables_wellFormed.
Qed.

(** X5.  Every name of the registry that the analysis and the decision
    work on is two dashes followed by at least one code unit of [[\w-]], as
    [VAR_DEF_REGEX] captures it; [escapeRegex] returns such a name unchanged,
    so the pattern that [markVariablesSetElsewhere] builds from it matches
    the name itself; and no registered value contains [;], [{] or [}]. *)
Theorem registered_names_need_no_escape (sources : list str)
    (manglePrefix : str) (varName : str) (variable : Token) :
  get (decide sources manglePrefix) varName = Some variable ->
  isVarName varName = true
  /\ escapeRegex varName = varName
  /\ forallb notSemiOrBrace (value variable) = true.
Proof.
  intros Hget.
  pose proof (view_get value _ _ varName
                (view_decide value sources manglePrefix
                   (fun _ _ => eq_refl) (fun _ _ => eq_refl)
                   (fun _ _ _ => eq_refl))) as E.
  rewrite Hget in E.
  destruct (get (extractAll sources) varName) as [t0|] eqn:H0;
    [|discriminate].
  injection E as E. apply get_In in H0.
  pose proof (extractAll_wellFormed sources) as H.
  rewrite Forall_forall in H. destruct (H _ H0) as [Hn Hv]. cbn [fst snd] in *.
  split; [exact Hn|]. split; [now apply escapeRegex_isVarName|congruence].
Qed.

(** On [unusedOverridden], for the name [--gap]. *)
Lemma registered_names_need_no_escape_witness :
  get (decide [unusedOverridden] defaultPrefix) "--gap"
  = Some (mkToken "4px" 0 true None (Some false) false)
  /\ isVarName "--gap" = true
  /\ escapeRegex "--gap" = "--gap"
  /\ forallb notSemiOrBrace "4px" = true.
Proof.
  assert (H : get (decide [unusedOverridden] defaultPrefix) "--gap"
              = Some (mkToken "4px" 0 true None (Some false) false))
    by (vm_compute; reflexivity).
  split; [exact H|].
  exact (registered_names_need_no_escape [unusedOverridden] defaultPrefix
           "--gap" _ H).
Defined.

(** A text with code units of the class. *)
Example escapeRegex_escapes :
  escapeRegex "a.b(c)" = [97; 92; 46; 98; 92; 40; 99; 92; 41]%N.
Proof. vm_compute; reflexivity. Qed.

(** ** Variables that are set elsewhere *)

(** X6.  [markVariablesSetElsewhere] writes the flag [setElsewhere] and
    nothing else, and it only ever raises the flag: a token that is set
    elsewhere stays as it is.  Marking twice with the same text is marking
    once, and marking with two texts gives the same registry in either
    order. *)
Theorem markVariablesSetElsewhere_only_raises_flag (code code' : str)
    (registry : Registry) :
  view (withSetElsewhere true) (markVariablesSetElsewhere code registry)
  = view (withSetElsewhere true) registry
  /\ (forall k t,
        get registry k = Some t -> setElsewhere t = true ->
        get (markVariablesSetElsewhere code registry) k = Some t)
  /\ markVariablesSetElsewhere code (markVariablesSetElsewhere code registry)
     = markVariablesSetElsewhere code registry
  /\ markVariablesSetElsewhere code
       (markVariablesSetElsewhere code' registry)
     = markVariablesSetElsewhere code'
         (markVariablesSetElsewhere code registry).
Proof.
  split; [apply view_markVariablesSetElsewhere; reflexivity|].
  split.
  { intros k t Hget Hset. unfold markVariablesSetElsewhere.
    rewrite (get_map_entries registry k
               (fun n variable =>
                  if test (setRegex n) (blankTokensLayers code)
                  then withSetElsewhere true variable else variable)), Hget.
    cbn [option_map]. destruct (test _ _); [|reflexivity].
    destruct t; simpl in *; now subst. }
  unfold markVariablesSetElsewhere. rewrite !map_map.
  split; apply map_ext; intros [k t];
    destruct (test (setRegex k) (blankTokensLayers code));
    try destruct (test (setRegex k) (blankTokensLayers code')); reflexivity.
Qed.

Lemma blank_span_inside (s : str) (a b i : nat) :
  a <= i < b -> b <= length s ->
  nth_error (slice s 0 a ++ spaces (b - a) ++ sliceFrom s b) i = Some 32%N.
Proof.
  intros Hi Hb. unfold slice, sliceFrom, spaces. cbn [skipn].
  rewrite Nat.sub_0_r.
  assert (Hlen : length (firstn a s) = a) by (rewrite length_firstn; lia).
  rewrite nth_error_app2 by lia. rewrite Hlen.
  rewrite nth_error_app1 by (rewrite repeat_length; lia).
  apply nth_error_repeat. lia.
Qed.

Lemma blankTokensLayers_inside (code : str) :
  Forall (fun layer => end_ layer <= length code) (findTokensLayers code) ->
  forall i layer,
    In layer (findTokensLayers code) -> start layer <= i < end_ layer ->
    nth_error (blankTokensLayers code) i = Some 32%N.
Proof.
  unfold blankTokensLayers.
  pose proof (findTokensLayers_bounds code) as Hb. revert Hb.
  generalize (findTokensLayers code). intros layers Hb Hclosed.
  assert (Hall : Forall (fun layer => start layer <= end_ layer
                                      /\ end_ layer <= length code) layers).
  { apply Forall_forall. intros layer Hin.
    rewrite Forall_forall in Hb, Hclosed.
    specialize (Hb layer Hin). specialize (Hclosed layer Hin). lia. }
  clear Hb Hclosed. intros i.
  enough (G : forall s,
             length s = length code ->
             (exists layer, In layer layers
                            /\ start layer <= i < end_ layer)
             \/ nth_error s i = Some 32%N ->
             nth_error
               (fold_left
                  (fun codeWithoutTokens layer =>
                     slice codeWithoutTokens 0 (start layer) ++
                     spaces (end_ layer - start layer) ++
                     sliceFrom codeWithoutTokens (end_ layer))
                  layers s) i = Some 32%N).
  { intros layer Hin Hi. apply G; [reflexivity|]. left. now exists layer. }
  induction Hall as [|layer layers [Hab Hb] _ IH]; intros s Hs Hi.
  - destruct Hi as [(layer & [] & _)|Hi]. exact Hi.
  - cbn [fold_left]. apply IH; [rewrite blank_span_length; lia|].
    destruct (Nat.le_gt_cases (start layer) i) as [H1|H1];
      [destruct (Nat.lt_ge_cases i (end_ layer)) as [H2|H2]|].
    + right. apply blank_span_inside; lia.
    + destruct Hi as [(l & [<-|Hl] & Hil)|Hi]; [lia| |].
      * left. now exists l.
      * right. rewrite blank_span_outside by lia. exact Hi.
    + destruct Hi as [(l & [<-|Hl] & Hil)|Hi]; [lia| |].
      * left. now exists l.
      * right. rewrite blank_span_outside by lia. exact Hi.
Qed.

(** X7.  When every tokens layer of a text is closed within the text, the
    copy that [markVariablesSetElsewhere] searches has the length of the
    text, agrees with the text at every offset outside the layers, and holds
    a space at every offset inside a layer. *)
Theorem blanked_copy_of_closed_layers (code : str) :
  Forall (fun layer => end_ layer <= length code) (findTokensLayers code) ->
  length (blankTokensLayers code) = length code
  /\ (forall i,
        Forall (fun layer => i < start layer \/ end_ layer <= i)
               (findTokensLayers code) ->
        nth_error (blankTokensLayers code) i = nth_error code i)
  /\ (forall i layer,
        In layer (findTokensLayers code) -> start layer <= i < end_ layer ->
        nth_error (blankTokensLayers code) i = Some 32%N).
Proof.
  intros H. destruct (blankTokensLayers_balanced code H) as [Hl Ho].
  split; [exact Hl|]. split; [exact Ho|].
  now apply blankTokensLayers_inside.
Qed.

(** On [closedLayer], whose layer spans the offsets 3 to 31. *)
Lemma blanked_copy_of_closed_layers_witness :
  map (fun layer => (start layer, end_ layer)) (findTokensLayers closedLayer)
  = [(3, 32)]
  /\ length (blankTokensLayers closedLayer) = length closedLayer
  /\ nth_error (blankTokensLayers closedLayer) 1 = nth_error closedLayer 1
  /\ nth_error (blankTokensLayers closedLayer) 20 = Some 32%N.
Proof.
  assert (H : Forall (fun layer => end_ layer <= length closedLayer)
                     (findTokensLayers closedLayer))
    by (vm_compute; repeat constructor).
  destruct (blanked_copy_of_closed_layers closedLayer H) as (Hl & Ho & Hi).
  split; [vm_compute; reflexivity|]. split; [exact Hl|]. split.
  - apply Ho. vm_compute. repeat constructor.
  - apply (Hi 20 (mkLayerSpan 3 32 ":root{--a:1px}")).
    + vm_compute. now left.
    + vm_compute. lia.
Defined.

(** X8.  A tokens layer whose span ends past the text is one that is not
    closed: its end is [code.length + 1], and the copy that
    [markVariablesSetElsewhere] searches is one code unit longer than the
    text, whatever other layers the text has. *)
Theorem blanked_copy_of_an_unclosed_layer (code : str) (layer : LayerSpan) :
  In layer (findTokensLayers code) ->
  length code < end_ layer ->
  end_ layer = S (length code)
  /\ length (blankTokensLayers code) = S (length code).
Proof.
  intros Hin Hlt.
  pose proof (findTokensLayers_bounds code) as Hb.
  rewrite Forall_forall in Hb. specialize (Hb layer Hin).
  assert (E : end_ layer = S (length code)) by lia.
  split; [exact E|]. now apply (blankTokensLayers_unbalanced code layer).
Qed.

(** On [unbalancedSource]. *)
Lemma blanked_copy_of_an_unclosed_layer_witness :
  In (mkLayerSpan 11 40 ":root{--a:1px}") (findTokensLayers unbalancedSource)
  /\ length unbalancedSource = 39
  /\ length (blankTokensLayers unbalancedSource)
     = S (length unbalancedSource).
Proof.
  assert (H : In (mkLayerSpan 11 40 ":root{--a:1px}")
                 (findTokensLayers unbalancedSource))
    by (vm_compute; now left).
  split; [exact H|]. split; [vm_compute; reflexivity|].
  exact (proj2 (blanked_copy_of_an_unclosed_layer unbalancedSource _ H
                  ltac:(vm_compute; lia))).
Defined.

Lemma analyze_setElsewhere (sources : list str) (registry : Registry)
    (v : str) (t : Token) :
  get registry v = Some t ->
  exists t', get (analyze sources registry) v = Some t'
    /\ setElsewhere t' = setElsewhere t || assignedOutsideLayers v sources.
Proof.
  intros H. unfold analyze.
  assert (H0 : exists t0, get (resetUsageCounts registry) v = Some t0
                 /\ setElsewhere t0 = setElsewhere t).
  { unfold resetUsageCounts.
    rewrite (get_map_entries registry v
               (fun _ variable =>
                  withMangling None false (withUsageCount 0 variable))), H.
    simpl. eexists. split; reflexivity. }
  destruct H0 as (t0 & Ht0 & <-). revert Ht0.
  generalize (resetUsageCounts registry). intros registry0. revert registry0 t0.
  unfold assignedOutsideLayers.
  induction sources as [|code sources IH]; intros registry0 t0 H0.
  - exists t0. simpl. split; [exact H0|now rewrite orb_false_r].
  - cbn [fold_left existsb].
    assert (H1 : get (markVariablesSetElsewhere code registry0) v
                 = Some (if test (setRegex v) (blankTokensLayers code)
                         then withSetElsewhere true t0 else t0)).
    { unfold markVariablesSetElsewhere.
      now rewrite (get_map_entries registry0 v
                     (fun n variable =>
                        if test (setRegex n) (blankTokensLayers code)
                        then withSetElsewhere true variable else variable)),
        H0. }
    pose proof (view_get setElsewhere _ _ v
                  (view_countUsage setElsewhere code
                     (markVariablesSetElsewhere code registry0)
                     (fun _ _ => eq_refl))) as E.
    rewrite H1 in E.
    destruct (get (countUsage code _) v) as [t2|] eqn:H2; [|discriminate].
    injection E as E.
    destruct (IH _ _ H2) as (t' & Ht' & Hs). exists t'.
    split; [exact Ht'|]. rewrite Hs, E.
    destruct (test _ _); cbn [setElsewhere withSetElsewhere orb];
      [now rewrite orb_true_r|reflexivity].
Qed.

(** X9.  In the registry that the Transformer reads, a variable is set
    elsewhere exactly when some CSS asset of the bundle, with its tokens
    layers blanked out, contains the name followed by optional white space
    and a colon: neither the counting nor the decision touches the flag, and
    the flag of one asset is not lost on the next. *)
Theorem setElsewhere_iff_assigned_outside_layers (sources : list str)
    (manglePrefix : str) (varName : str) :
  has (extractAll sources) varName = true ->
  exists variable,
    get (decide sources manglePrefix) varName = Some variable
    /\ setElsewhere variable = assignedOutsideLayers varName sources.
Proof.
  intros Hhas. apply has_get in Hhas. destruct Hhas as (t0 & H0).
  destruct (analyze_setElsewhere sources _ _ _ H0) as (t1 & H1 & Hs).
  assert (Hfresh : setElsewhere t0 = false).
  { pose proof (extractAll_isFresh sources) as H.
    rewrite Forall_forall in H. destruct (H _ (get_In _ _ _ H0)) as [E _].
    cbn [snd] in E. now rewrite E. }
  rewrite Hfresh in Hs. cbn [orb] in Hs.
  pose proof (generateMangledNames_proj setElsewhere (fun _ _ _ => eq_refl)
                (analyze sources (extractAll sources)) manglePrefix varName)
    as E.
  rewrite H1 in E. unfold decide.
  destruct (get (fst (generateMangledNames _ _)) varName) as [t|];
    [|discriminate].
  exists t. split; [reflexivity|]. simpl in E. injection E as E. congruence.
Qed.

(** On two assets, the first of which assigns [--a] in a rule. *)
Lemma setElsewhere_iff_assigned_outside_layers_witness :
  has (extractAll [overriddenUsed; hostFallback]) "--a" = true
  /\ assignedOutsideLayers "--a" [overriddenUsed; hostFallback] = true
  /\ exists variable,
       get (decide [overriddenUsed; hostFallback] defaultPrefix) "--a"
       = Some variable
       /\ setElsewhere variable
          = assignedOutsideLayers "--a" [overriddenUsed; hostFallback].
Proof.
  assert (H : has (extractAll [overriddenUsed; hostFallback]) "--a" = true)
    by (vm_compute; reflexivity).
  split; [exact H|]. split; [vm_compute; reflexivity|].
  exact (setElsewhere_iff_assigned_outside_layers
           [overriddenUsed; hostFallback] defaultPrefix "--a" H).
Defined.

(** ** Usage counting *)

(** X10.  [countVariableUsage] writes the counts and nothing else: the
    names, their order and every other field of every token are as
    before. *)
Theorem countUsage_writes_counts_only (code : str) (registry : Registry) :
  view (withUsageCount 0) (countUsage code registry)
  = view (withUsageCount 0) registry.
Proof. apply view_countUsage. reflexivity. Qed.

Lemma filter_nil_forall {A : Type} (p : A -> bool) (l : list A) :
  length (filter p l) = 0 -> forall a, In a l -> p a = false.
Proof.
  induction l as [|b l IH]; simpl; [tauto|].
  destruct (p b) eqn:E; [discriminate|].
  intros H a [<-|Ha]; [exact E|now apply IH].
Qed.

Lemma forallb_view {X : Type} (g : Token -> X) (p : X -> bool)
    (r1 r2 : Registry) :
  view g r1 = view g r2 ->
  forallb (fun '(_, t) => p (g t)) r1 = forallb (fun '(_, t) => p (g t)) r2.
Proof.
  revert r2. induction r1 as [|[k1 t1] r1 IH]; intros [|[k2 t2] r2] H;
    try discriminate; [reflexivity|].
  cbn [view map] in H. injection H as _ Hg H. cbn [forallb].
  now rewrite Hg, (IH r2).
Qed.

Lemma literalValues_view (r1 r2 : Registry) :
  view value r1 = view value r2 -> literalValues r1 = literalValues r2.
Proof.
  apply (forallb_view value
           (fun x => match matchAll VAR_REF_REGEX x with
                     | [] => true
                     | _ :: _ => false
                     end)).
Qed.

Lemma literalValues_get (registry : Registry) (k : str) (t : Token) :
  literalValues registry = true -> get registry k = Some t ->
  matchAll VAR_REF_REGEX (value t) = [].
Proof.
  intros H Hget. apply get_In in Hget. unfold literalValues in H.
  rewrite forallb_forall in H. specialize (H _ Hget). cbn beta iota in H.
  now destruct (matchAll VAR_REF_REGEX (value t)).
Qed.

Lemma withUsageCount_same (t : Token) : withUsageCount (usageCount t) t = t.
Proof. now destruct t. Qed.

Lemma length_modify {V : Type} (m : list (str * V)) (k : str) (f : V -> V) :
  length (modify m k f) = length m.
Proof. now rewrite <- (length_map fst), keys_modify, length_map. Qed.

Lemma foldM_countStep_literal (fuel : nat) (ms : list Match) :
  forall registry visited,
    literalValues registry = true -> length registry <= fuel ->
    exists registry' visited',
      foldM (countStep (countVariableUsage fuel)) ms (registry, visited)
      = Some (registry', visited')
      /\ forall v,
           get registry' v =
           option_map
             (fun t =>
                withUsageCount
                  (usageCount t
                   + length (filter (fun m => str_eqb (group 1 m) v) ms)) t)
             (get registry v).
Proof.
  induction ms as [|m ms IH]; intros registry visited Hlit Hfuel.
  - exists registry, visited. split; [reflexivity|]. intros v.
    destruct (get registry v) as [t|]; [|reflexivity].
    cbn [option_map filter length].
    now rewrite Nat.add_0_r, withUsageCount_same.
  - cbn [foldM]. unfold countStep at 1.
    destruct (get registry (group 1 m)) as [variable|] eqn:Hget.
    + set (registry1 := modify registry (group 1 m)
                          (fun v => withUsageCount (S (usageCount v)) v)).
      assert (V1 : view value registry1 = view value registry)
        by (apply view_modify; reflexivity).
      assert (Hlit1 : literalValues registry1 = true)
        by now rewrite (literalValues_view _ _ V1).
      assert (Hfuel1 : length registry1 <= fuel)
        by (unfold registry1; now rewrite length_modify).
      assert (Hrec : countVariableUsage fuel (value variable)
                       (registry1, group 1 m :: visited)
                     = Some (registry1, group 1 m :: visited)).
      { destruct fuel as [|fuel].
        - destruct registry; [discriminate|]. cbn [length] in Hfuel. lia.
        - cbn [countVariableUsage].
          now rewrite (literalValues_get _ _ _ Hlit Hget). }
      assert (Hnext : forall vis,
                 exists registry' visited',
                   foldM (countStep (countVariableUsage fuel)) ms
                         (registry1, vis) = Some (registry', visited')
                   /\ forall v,
                        get registry' v =
                        option_map
                          (fun t =>
                             withUsageCount
                               (usageCount t
                                + length
                                    (filter
                                       (fun m0 => str_eqb (group 1 m0) v)
                                       (m :: ms))) t)
                          (get registry v)).
      { intros vis. destruct (IH registry1 vis Hlit1 Hfuel1)
          as (r' & v' & Hf & Hg).
        exists r', v'. split; [exact Hf|]. intros v. rewrite Hg.
        unfold registry1. rewrite get_modify. cbn [filter].
        rewrite (str_eqb_sym (group 1 m) v).
        destruct (str_eqb v (group 1 m)) eqn:E.
        - apply str_eqb_eq in E. subst v. rewrite Hget. cbn [option_map length].
          unfold withUsageCount. cbn [usageCount value setElsewhere
            mangledName isAlias emitDeclaration]. do 2 f_equal. lia.
        - reflexivity. }
      destruct (negb _); [rewrite Hrec|]; apply Hnext.
    + destruct (IH registry visited Hlit Hfuel) as (r' & v' & Hf & Hg).
      exists r', v'. split; [exact Hf|]. intros v. rewrite Hg. cbn [filter].
      destruct (str_eqb (group 1 m) v) eqn:E; [|reflexivity].
      apply str_eqb_eq in E. subst v. now rewrite Hget.
Qed.

(** X11.  When no registered value holds a reference, the count of a text
    is exact: the count of every registered name goes up by the number of
    direct references to it in the text, and nothing else changes. *)
Theorem literal_values_counted_exactly (code : str) (registry : Registry)
    (varName : str) :
  literalValues registry = true ->
  get (countUsage code registry) varName =
  option_map
    (fun variable =>
       withUsageCount (usageCount variable + directRefs varName code)
                      variable)
    (get registry varName).
Proof.
  intros Hlit. unfold countUsage. cbn [countVariableUsage].
  destruct (foldM_countStep_literal (length registry)
              (matchAll VAR_REF_REGEX code) registry [] Hlit (le_n _))
    as (r' & v' & -> & Hg).
  apply Hg.
Qed.

(** Two references to [--g], one with white space and a fallback. *)
Lemma literal_values_counted_exactly_witness :
  literalValues (usedRegistry 1) = true
  /\ directRefs "--g" ".a{b:var(--g)}.c{d:var( --g , 0)}" = 2
  /\ get (countUsage ".a{b:var(--g)}.c{d:var( --g , 0)}" (usedRegistry 1))
         "--g"
     = Some (mkToken longValue 3 false None (Some false) false).
Proof.
  split; [vm_compute; reflexivity|]. split; [vm_compute; reflexivity|].
  exact (literal_values_counted_exactly ".a{b:var(--g)}.c{d:var( --g , 0)}"
           (usedRegistry 1) "--g" eq_refl).
Defined.

Lemma noValueRefers_view (varName : str) (r1 r2 : Registry) :
  view value r1 = view value r2 ->
  noValueRefers varName r1 = noValueRefers varName r2.
Proof.
  apply (forallb_view value (fun x => directRefs varName x =? 0)).
Qed.

Lemma noValueRefers_get (varName : str) (registry : Registry) (k : str)
    (t : Token) :
  noValueRefers varName registry = true -> get registry k = Some t ->
  directRefs varName (value t) = 0.
Proof.
  intros H Hget. apply get_In in Hget. unfold noValueRefers in H.
  rewrite forallb_forall in H. apply Nat.eqb_eq. apply (H _ Hget).
Qed.

Lemma countVariableUsage_unreferenced (varName : str) :
  forall fuel code registry visited st',
    noValueRefers varName registry = true ->
    directRefs varName code = 0 ->
    countVariableUsage fuel code (registry, visited) = Some st' ->
    get (fst st') varName = get registry varName.
Proof.
  induction fuel as [|fuel IH]; intros code registry visited st' Hvals Hcode H;
    [discriminate|].
  cbn [countVariableUsage] in H. unfold directRefs in Hcode.
  pose proof (filter_nil_forall _ _ Hcode) as Hms. clear Hcode.
  revert registry visited Hvals H Hms.
  generalize (matchAll VAR_REF_REGEX code). intros ms.
  induction ms as [|m ms IHms]; intros registry visited Hvals H Hms.
  - now injection H as <-.
  - cbn [foldM] in H.
    destruct (countStep (countVariableUsage fuel) (registry, visited) m)
      as [[r1 v1]|] eqn:E; [|discriminate].
    assert (Hm : group 1 m <> varName).
    { apply str_eqb_neq, Hms. now left. }
    assert (Hstep : get r1 varName = get registry varName
                    /\ view value r1 = view value registry).
    { unfold countStep in E.
      destruct (get registry (group 1 m)) as [variable|] eqn:Hget.
      2:{ now injection E as <- <-. }
      set (registry1 := modify registry (group 1 m)
                          (fun v => withUsageCount (S (usageCount v)) v)) in *.
      assert (H1 : get registry1 varName = get registry varName)
        by (apply get_modify_other; congruence).
      assert (V1 : view value registry1 = view value registry)
        by (apply view_modify; reflexivity).
      destruct (negb _).
      - split.
        + rewrite <- H1.
          assert (X1 : noValueRefers varName registry1 = true)
            by now rewrite (noValueRefers_view _ _ _ V1).
          apply (IH _ _ _ _ X1 (noValueRefers_get _ _ _ _ Hvals Hget) E).
        + rewrite <- V1.
          apply (view_countVariableUsage value (fun _ _ => eq_refl)
                   _ _ _ _ _ E).
      - injection E as <- <-. now split. }
    destruct Hstep as [Hg Hv].
    rewrite <- Hg. apply (IHms r1 v1); trivial.
    + now rewrite (noValueRefers_view _ _ _ Hv).
    + intros a Ha. apply Hms. now right.
Qed.

Lemma countUsage_unreferenced (varName : str) (code : str)
    (registry : Registry) :
  noValueRefers varName registry = true -> directRefs varName code = 0 ->
  get (countUsage code registry) varName = get registry varName.
Proof.
  intros Hvals Hcode. destruct (countUsage_enough code registry) as (vis & H).
  apply (countVariableUsage_unreferenced _ _ _ _ _ _ Hvals Hcode H).
Qed.

(** The members of the value groups are used variables. *)
Lemma groupByValue_used (registry : Registry) (r : str)
    (names : list str) (w : str) :
  get (groupByValue registry) r = Some names -> In w names ->
  exists t, In (w, t) registry /\ usageCount t <> 0.
Proof.
  unfold groupByValue.
  set (step := fun (valueToVars : list (str * list str))
                   '((varName, variable) : str * Token) => _).
  set (P := fun w => exists t, In (w, t) registry /\ usageCount t <> 0).
  enough (G : forall entries acc,
             (forall w t, In (w, t) entries -> In (w, t) registry) ->
             (forall r names w, get acc r = Some names -> In w names -> P w) ->
             forall r names w,
               get (fold_left step entries acc) r = Some names ->
               In w names -> P w).
  { apply (G registry []); [auto|discriminate]. }
  induction entries as [|[w0 t0] entries IH]; intros acc Hent Hacc;
    [exact Hacc|].
  cbn [fold_left]. apply IH; [intros w1 t1 H; apply Hent; now right|].
  unfold step. destruct (usageCount t0 =? 0) eqn:Hu; [exact Hacc|].
  apply Nat.eqb_neq in Hu.
  assert (Hw0 : P w0) by (exists t0; split; [apply Hent; now left|exact Hu]).
  destruct (get acc (resolveVariableValue w0 registry 0)) as [vars|] eqn:Hg.
  - intros r1 names1 w1 H Hin. rewrite get_modify in H.
    destruct (str_eqb r1 _) eqn:E; [|now apply (Hacc r1 names1)].
    apply str_eqb_eq in E. subst r1. rewrite Hg in H. injection H as <-.
    apply in_app_or in Hin. destruct Hin as [Hin|[<-|[]]]; [|exact Hw0].
    now apply (Hacc (resolveVariableValue w0 registry 0) vars).
  - intros r1 names1 w1 H Hin. rewrite get_set in H.
    destruct (str_eqb r1 _); [|now apply (Hacc r1 names1)].
    injection H as <-. destruct Hin as [<-|[]]. exact Hw0.
Qed.

Lemma generateMangledNames_unused (registry : Registry) (manglePrefix : str)
    (varName : str) (variable : Token) :
  NoDup (map fst registry) ->
  get registry varName = Some variable -> usageCount variable = 0 ->
  get (fst (generateMangledNames registry manglePrefix)) varName
  = Some variable.
Proof.
  intros Hnd Hget Hu. rewrite <- Hget. unfold generateMangledNames.
  apply fold_decideGroup_other. apply Forall_forall.
  intros [r names] Hg Hin. cbn [snd] in Hin.
  assert (Hgr : get (groupByValue registry) r = Some names).
  { apply NoDup_keys_get; [|exact Hg].
    apply (groupByValue_groups registry). }
  destruct (groupByValue_used _ _ _ _ Hgr Hin) as (t & Ht & Hne).
  apply (NoDup_keys_get _ _ _ Hnd) in Ht. congruence.
Qed.

Lemma analyze_unreferenced (varName : str) (sources : list str)
    (registry : Registry) (t : Token) :
  noValueRefers varName registry = true ->
  noTextRefers varName sources = true ->
  get registry varName = Some t ->
  exists t',
    get (analyze sources registry) varName = Some t'
    /\ usageCount t' = 0 /\ mangledName t' = None
    /\ emitDeclaration t' = false.
Proof.
  intros Hvals Hsrc Hget. unfold analyze.
  assert (H0 : exists t0, get (resetUsageCounts registry) varName = Some t0
                 /\ usageCount t0 = 0 /\ mangledName t0 = None
                 /\ emitDeclaration t0 = false).
  { unfold resetUsageCounts.
    rewrite (get_map_entries registry varName
               (fun _ variable =>
                  withMangling None false (withUsageCount 0 variable))),
      Hget.
    eexists. split; [reflexivity|]. now repeat split. }
  assert (V0 : noValueRefers varName (resetUsageCounts registry) = true).
  { rewrite <- Hvals. apply noValueRefers_view.
    apply view_resetUsageCounts; reflexivity. }
  revert H0 V0. generalize (resetUsageCounts registry). clear Hget Hvals.
  unfold noTextRefers in Hsrc.
  induction sources as [|code sources IH]; intros registry0 H0 V0;
    [exact H0|].
  cbn [fold_left forallb] in *. apply andb_true_iff in Hsrc.
  destruct Hsrc as [Hcode Hsrc]. apply Nat.eqb_eq in Hcode.
  apply (IH Hsrc).
  - destruct H0 as (t0 & Ht0 & Hu & Hm & He).
    rewrite countUsage_unreferenced; trivial.
    + unfold markVariablesSetElsewhere.
      rewrite (get_map_entries registry0 varName
                 (fun n variable =>
                    if test (setRegex n) (blankTokensLayers code)
                    then withSetElsewhere true variable else variable)), Ht0.
      eexists. split; [reflexivity|]. now destruct (test _ _).
    + rewrite <- V0. apply noValueRefers_view.
      apply view_markVariablesSetElsewhere; reflexivity.
  - rewrite <- V0. apply noValueRefers_view.
    rewrite view_countUsage by reflexivity.
    apply view_markVariablesSetElsewhere; reflexivity.
Qed.

(** X12.  A registered variable that no CSS asset and no registered value
    refers to comes out of the analysis with the count 0, gets no synthetic
    name and no declaration to emit from the decision, and every declaration
    of it is skipped by the declarations pass: it is deleted. *)
Theorem unreferenced_variable_is_dropped (sources : list str)
    (manglePrefix : str) (varName : str) :
  has (extractAll sources) varName = true ->
  noValueRefers varName (extractAll sources) = true ->
  noTextRefers varName sources = true ->
  exists variable,
    get (decide sources manglePrefix) varName = Some variable
    /\ usageCount variable = 0
    /\ mangledName variable = None
    /\ emitDeclaration variable = false
    /\ forall st m,
         group 1 m = varName ->
         declarationStep (decide sources manglePrefix) st m = st.
Proof.
  intros Hhas Hvals Hsrc. apply has_get in Hhas. destruct Hhas as (t0 & H0).
  destruct (analyze_unreferenced _ _ _ _ Hvals Hsrc H0)
    as (t1 & H1 & Hu & Hm & He).
  assert (Hget : get (decide sources manglePrefix) varName = Some t1).
  { unfold decide. apply generateMangledNames_unused; trivial.
    rewrite analyze_keys. apply extractAll_NoDup. }
  exists t1. repeat split; trivial.
  intros st m <-. now apply (declarationStep_unused _ _ _ t1).
Qed.

(** On [unusedOverridden], for the name [--gap]. *)
Lemma unreferenced_variable_is_dropped_witness :
  has (extractAll [unusedOverridden]) "--gap" = true
  /\ noValueRefers "--gap" (extractAll [unusedOverridden]) = true
  /\ noTextRefers "--gap" [unusedOverridden] = true
  /\ exists variable,
       get (decide [unusedOverridden] defaultPrefix) "--gap" = Some variable
       /\ usageCount variable = 0
       /\ mangledName variable = None
       /\ emitDeclaration variable = false
       /\ forall st m,
            group 1 m = lit "--gap" ->
            declarationStep (decide [unusedOverridden] defaultPrefix) st m
            = st.
Proof.
  split; [vm_compute; reflexivity|]. split; [vm_compute; reflexivity|].
  split; [vm_compute; reflexivity|].
  exact (unreferenced_variable_is_dropped [unusedOverridden] defaultPrefix
           "--gap" eq_refl eq_refl eq_refl).
Defined.

(** X26.  The direct references to a name in a text are the matches of the
    reference pattern that the scan finds there and that name it
    ([directRefs]); a reference that lies in the fallback of another one is
    part of that match and is not among them.  For a registered name, a run
    of [countVariableUsage] that starts from any [visited] set, with the name
    in it or not, raises the count of the name by at least the number of
    direct references to it in the text: the [visited] set holds back the
    descent into the value of the variable, never the increment.  So after
    the analysis of the whole asset set the count is at least the number of
    direct references in all the sources, and with one reference or more the
    count that the Transformer tests is not zero. *)
Theorem direct_references_are_counted (sources : list str)
    (manglePrefix : str) (varName : str) :
  has (extractAll sources) varName = true ->
  (forall fuel code registry visited st' variable,
      get registry varName = Some variable ->
      countVariableUsage fuel code (registry, visited) = Some st' ->
      exists variable',
        get (fst st') varName = Some variable'
        /\ usageCount variable + directRefs varName code
           <= usageCount variable')
  /\ exists variable,
       get (decide sources manglePrefix) varName = Some variable
       /\ list_sum (map (directRefs varName) sources) <= usageCount variable
       /\ (1 <= list_sum (map (directRefs varName) sources) ->
           (usageCount variable =? 0) = false).
Proof.
  intros Hhas. split.
  - intros fuel code registry visited st' variable Hget H.
    apply (countVariableUsage_counts _ _ _ _ _ H _ _ Hget).
  - destruct (decide_counts sources manglePrefix varName Hhas)
      as (variable & Hget & Hle).
    exists variable. split; [exact Hget|]. split; [exact Hle|].
    intros H1. apply Nat.eqb_neq. lia.
Qed.

(** The reference pattern takes a fallback as free text up to the first
    closing parenthesis: the scan finds one match here, which names
    [--theme]. *)
Example scan_takes_fallback_as_text :
  map (fun m => (group 1 m, text m))
      (matchAll VAR_REF_REGEX ".x{color:var(--theme, var(--p))}")
  = [(lit "--theme", lit "var(--theme, var(--p)")].
Proof. vm_compute; reflexivity. Qed.

(** On [cycleSources], for the name [--b]: two direct references, one in
    the tokens layer and one in the rule [.x]; the count is 3. *)
Lemma direct_references_are_counted_witness :
  has (extractAll cycleSources) "--b" = true
  /\ list_sum (map (directRefs "--b") cycleSources) = 2
  /\ exists variable,
       get (decide cycleSources defaultPrefix) "--b" = Some variable
       /\ 2 <= usageCount variable
       /\ (usageCount variable =? 0) = false.
Proof.
  assert (H : has (extractAll cycleSources) "--b" = true) by reflexivity.
  assert (E : list_sum (map (directRefs "--b") cycleSources) = 2)
    by (vm_compute; reflexivity).
  split; [exact H|]. split; [exact E|].
  destruct (proj2 (direct_references_are_counted cycleSources defaultPrefix
                     "--b" H)) as (variable & Hget & Hle & Hused).
  exists variable. split; [exact Hget|]. rewrite E in Hle, Hused.
  split; [exact Hle|]. apply Hused. apply le_S, le_n.
Defined.

(** ** Value resolution *)

Lemma star_greedy {R : Type} (p : N -> bool) (w : str) :
  forall pos rest (k : nat -> str -> option R) x,
    forallb p w = true ->
    match rest with [] => True | c :: _ => p c = false end ->
    k (pos + length w) rest = Some x ->
    star p pos (w ++ rest) k = Some x.
Proof.
  induction w as [|c w IH]; intros pos rest k x Hw Hrest Hk.
  - cbn [app length] in *. rewrite Nat.add_0_r in Hk.
    destruct rest as [|c rest]; cbn [star]; [exact Hk|]. now rewrite Hrest.
  - cbn [forallb] in Hw. apply andb_true_iff in Hw. destruct Hw as [Hc Hw].
    cbn [app star]. rewrite Hc.
    rewrite (IH (S pos) rest k x Hw Hrest); [reflexivity|].
    cbn [length] in Hk. now replace (S pos + length w) with (pos + S (length w))
      by lia.
Qed.

Lemma matchAllFrom_skip_all (r : regex) (s : str) :
  (forall pos, matchAt r pos [] = None) ->
  forall pos, matchAllFrom r pos s (length s) = [].
Proof.
  intros Hr. induction s as [|c s IH]; intros pos; cbn [length matchAllFrom].
  - now rewrite Hr.
  - apply IH.
Qed.

(** The scan of the text [var(--name)]: one match, the whole text. *)
Lemma matchAll_plain_reference (name : str) :
  name <> [] -> forallb isWordOrDash name = true ->
  matchAll VAR_REF_REGEX ("var(--" ++ name ++ ")")
  = [mkMatch 0 ("var(--" ++ name ++ ")") [(1, "--" ++ name)]].
Proof.
  intros Hne Hw. unfold matchAll.
  change (lit "var(--" ++ name ++ lit ")")
    with (118%N :: (lit "ar(--" ++ name ++ lit ")")).
  cbn [matchAllFrom].
  assert (E : matchAt VAR_REF_REGEX 0
                (118%N :: (lit "ar(--" ++ name ++ lit ")"))
              = Some (mkMatch 0 (118%N :: (lit "ar(--" ++ name ++ lit ")"))
                              [(1, lit "--" ++ name)])).
  { unfold matchAt, VAR_REF_REGEX. cbn [run].
    change (isPrefix (lit "var(") (118%N :: (lit "ar(--" ++ name ++ lit ")")))
      with true.
    cbn iota.
    change (skipn (length (lit "var("))
                  (118%N :: (lit "ar(--" ++ name ++ lit ")")))
      with (45%N :: 45%N :: (name ++ lit ")")).
    change (0 + length (lit "var(")) with 4.
    cbn [star]. change (isSpace 45) with false. cbn iota.
    change (isPrefix (lit "--") (45%N :: 45%N :: (name ++ lit ")")))
      with true.
    cbn iota.
    change (skipn (length (lit "--")) (45%N :: 45%N :: (name ++ lit ")")))
      with (name ++ lit ")").
    change (4 + length (lit "--")) with 6.
    destruct name as [|c name]; [congruence|].
    cbn [forallb] in Hw. apply andb_true_iff in Hw. destruct Hw as [Hc Hw].
    cbn [app]. rewrite Hc.
    apply star_greedy; [exact Hw|reflexivity|].
    change (lit ")") with [41%N]. change (lit ",") with [44%N].
    cbn [run star isPrefix length skipn].
    change (isSpace 41) with false. change (44 =? 41)%N with false.
    change (41 =? 41)%N with true. cbn [andb].
    do 2 f_equal.
    - apply firstn_all2. cbn [length]. rewrite length_app.
      change (length (lit "ar(--")) with 5. cbn [length].
      rewrite length_app. cbn [length]. lia.
    - replace (7 + length name - 4) with (S (S (S (length name)))) by lia.
      change (lit "--" ++ c :: name) with (45%N :: 45%N :: c :: name).
      cbn [firstn]. do 4 f_equal.
      now rewrite firstn_app, firstn_all, Nat.sub_diag, app_nil_r. }
  rewrite E. cbn [text]. f_equal.
  replace (length (118%N :: (lit "ar(--" ++ name ++ lit ")")) - 1)
    with (length (lit "ar(--" ++ name ++ lit ")")) by (cbn [length]; lia).
  apply matchAllFrom_skip_all. reflexivity.
Qed.

(** X13.  A variable whose value is the plain reference [var(--name)]
    resolves, at any depth up to the limit, to what [--name] resolves to one
    level deeper: an alias and its target have the same resolved value as
    long as the depth limit is not met. *)
Theorem alias_resolves_to_its_target (registry : Registry) (varName : str)
    (variable : Token) (name : str) (depth : nat) :
  depth <= 10 ->
  get registry varName = Some variable ->
  name <> [] -> forallb isWordOrDash name = true ->
  value variable = "var(--" ++ name ++ ")" ->
  resolveVariableValue varName registry depth
  = resolveVariableValue ("--" ++ name) registry (depth + 1).
Proof.
  intros Hd Hget Hne Hw Hval. rewrite resolveVariableValue_eq.
  replace (10 <? depth) with false by (symmetry; apply Nat.ltb_ge; lia).
  rewrite Hget, Hval. unfold replace.
  rewrite (matchAll_plain_reference name Hne Hw).
  cbn [map splice index text]. rewrite Nat.sub_diag. cbn [firstn app].
  change (0 + length (lit "var(--" ++ name ++ lit ")"))
    with (length (lit "var(--" ++ name ++ lit ")")).
  now rewrite skipn_all, app_nil_r.
Qed.

(** On [aliasChain]. *)
Lemma alias_resolves_to_its_target_witness :
  resolveVariableValue "--a5" aliasChain 0
  = resolveVariableValue "--a6" aliasChain 1.
Proof.
  exact (alias_resolves_to_its_target aliasChain "--a5"
           (mkToken "var(--a6)" 1 false None (Some true) false) "a6" 0
           ltac:(lia) eq_refl ltac:(discriminate) eq_refl eq_refl).
Defined.

Lemma resolveVariableValue_literal (registry : Registry) (varName : str)
    (variable : Token) (depth : nat) :
  depth <= 10 ->
  get registry varName = Some variable ->
  matchAll VAR_REF_REGEX (value variable) = [] ->
  resolveVariableValue varName registry depth = value variable.
Proof.
  intros Hd Hget Hlit. rewrite resolveVariableValue_eq.
  replace (10 <? depth) with false by (symmetry; apply Nat.ltb_ge; lia).
  rewrite Hget. unfold replace. now rewrite Hlit.
Qed.

(** X14.  A variable whose value holds no reference resolves to its value,
    and when it has no synthetic name and is not set elsewhere the callback
    of the references pass replaces every reference to it, fallback
    included, by that value. *)
Theorem literal_value_is_inlined (registry : Registry) (m : Match)
    (variable : Token) :
  get registry (group 1 m) = Some variable ->
  mangledName variable = None ->
  setElsewhere variable = false ->
  matchAll VAR_REF_REGEX (value variable) = [] ->
  resolveVariableValue (group 1 m) registry 0 = value variable
  /\ rewriteReference registry m = value variable.
Proof.
  intros Hget Hn Hs Hlit.
  assert (E : resolveVariableValue (group 1 m) registry 0 = value variable)
    by (apply resolveVariableValue_literal; trivial; lia).
  split; [exact E|]. unfold rewriteReference. now rewrite Hget, Hn, Hs.
Qed.

(** On [redSource 1]. *)
Lemma literal_value_is_inlined_witness :
  get (decide [redSource 1] defaultPrefix) "--c"
  = Some (mkToken "#ff0000" 1 false None (Some false) false)
  /\ rewriteReference (decide [redSource 1] defaultPrefix)
       (mkMatch 42 "var(--c)" [(1, lit "--c")])
     = "#ff0000".
Proof.
  assert (H : get (decide [redSource 1] defaultPrefix) "--c"
              = Some (mkToken "#ff0000" 1 false None (Some false) false))
    by (vm_compute; reflexivity).
  split; [exact H|].
  exact (proj2 (literal_value_is_inlined (decide [redSource 1] defaultPrefix)
                  (mkMatch 42 "var(--c)" [(1, lit "--c")]) _ H
                  eq_refl eq_refl eq_refl)).
Defined.

(** X15.  The names of the registry, their order, their values and their
    alias flags are fixed by the extraction: the analysis and the decision
    change none of them.  So value resolution gives the same result in the
    registry that the Transformer reads as in the registry that was
    extracted. *)
Theorem decide_keeps_names_and_values (sources : list str)
    (manglePrefix : str) :
  view (fun t => (value t, isAlias t)) (decide sources manglePrefix)
  = view (fun t => (value t, isAlias t)) (extractAll sources)
  /\ forall varName depth,
       resolveVariableValue varName (decide sources manglePrefix) depth
       = resolveVariableValue varName (extractAll sources) depth.
Proof.
  split; [apply view_decide; reflexivity|].
  intros varName depth. apply resolveVariableValue_ext. intros k.
  apply view_get. apply view_decide; reflexivity.
Qed.

(** ** The decision *)

(** X16.  [generateMangledNames] writes the fields [mangledName] and
    [emitDeclaration] and nothing else: the names, their order and every
    other field of every token are as before. *)
Theorem generateMangledNames_writes_names_only (registry : Registry)
    (manglePrefix : str) :
  view (withMangling None false)
       (fst (generateMangledNames registry manglePrefix))
  = view (withMangling None false) registry.
Proof. apply view_generateMangledNames. reflexivity. Qed.

(** X17.  In a registry that holds every name once, [generateMangledNames]
    leaves the token of a variable whose count is 0 exactly as it is: an
    unused variable is in no value group. *)
Theorem unused_variables_untouched_by_decision (registry : Registry)
    (manglePrefix : str) (varName : str) (variable : Token) :
  NoDup (map fst registry) ->
  get registry varName = Some variable -> usageCount variable = 0 ->
  get (fst (generateMangledNames registry manglePrefix)) varName
  = Some variable.
Proof. apply generateMangledNames_unused. Qed.

(** On the analysed registry of [unusedOverridden], for [--gap]. *)
Lemma unused_variables_untouched_by_decision_witness :
  get (analyze [unusedOverridden] (extractAll [unusedOverridden])) "--gap"
  = Some (mkToken "4px" 0 true None (Some false) false)
  /\ get (fst (generateMangledNames
                 (analyze [unusedOverridden] (extractAll [unusedOverridden]))
                 defaultPrefix)) "--gap"
     = Some (mkToken "4px" 0 true None (Some false) false).
Proof.
  assert (H : get (analyze [unusedOverridden] (extractAll [unusedOverridden]))
                  "--gap"
              = Some (mkToken "4px" 0 true None (Some false) false))
    by (vm_compute; reflexivity).
  split; [exact H|].
  apply (unused_variables_untouched_by_decision _ defaultPrefix "--gap" _);
    [|exact H|reflexivity].
  vm_compute. constructor; [intros [E|[]]; discriminate|].
  constructor; [intros []|constructor].
Defined.

Lemma digitValue_digit36 (d : nat) : d < 36 -> digitValue (digit36 d) = d.
Proof.
  intros H. unfold digitValue, digit36.
  destruct (d <? 10) eqn:E; rewrite Nnat.Nat2N.id.
  - apply Nat.ltb_lt in E.
    replace (48 + d <? 58) with true by (symmetry; apply Nat.ltb_lt; lia).
    lia.
  - apply Nat.ltb_ge in E.
    replace (87 + d <? 58) with false by (symmetry; apply Nat.ltb_ge; lia).
    lia.
Qed.

Lemma toString36_aux_value :
  forall fuel n acc,
    n < fuel ->
    fold_left (fun n c => n * 36 + digitValue c) (toString36_aux fuel n acc) 0
    = fold_left (fun n c => n * 36 + digitValue c) acc n.
Proof.
  induction fuel as [|fuel IH]; intros n acc H; [lia|].
  cbn [toString36_aux].
  pose proof (Nat.mod_upper_bound n 36 ltac:(lia)) as Hm.
  pose proof (Nat.div_mod_eq n 36) as Hdm.
  destruct (n / 36 =? 0) eqn:E.
  - apply Nat.eqb_eq in E. cbn [fold_left].
    rewrite digitValue_digit36 by exact Hm. f_equal. lia.
  - apply Nat.eqb_neq in E.
    assert (n / 36 < n) by (apply Nat.div_lt; lia).
    rewrite IH by lia. cbn [fold_left].
    rewrite digitValue_digit36 by exact Hm. f_equal. lia.
Qed.

Lemma parseInt36_toString36 (n : nat) : parseInt36 (toString36 n) = n.
Proof.
  unfold parseInt36, toString36. now rewrite toString36_aux_value by lia.
Qed.

Lemma mangledNameFor_injective (manglePrefix : str) (c1 c2 : nat) :
  mangledNameFor manglePrefix c1 = mangledNameFor manglePrefix c2 -> c1 = c2.
Proof.
  unfold mangledNameFor. intros H. apply app_inv_head in H.
  apply (f_equal parseInt36) in H. now rewrite !parseInt36_toString36 in H.
Qed.

Lemma canonicalVarName_spec (registry : Registry) (names : list str) :
  names <> [] ->
  In (canonicalVarName registry names) names
  /\ ((exists w, In w names
                 /\ truthyB (isAlias (getToken registry w)) = false) ->
      truthyB (isAlias (getToken registry
                          (canonicalVarName registry names))) = false).
Proof.
  intros Hne. unfold canonicalVarName.
  destruct (find _ names) as [v|] eqn:E.
  - apply find_some in E. destruct E as [Hin Hv]. split; [exact Hin|].
    intros _. now apply negb_true_iff in Hv.
  - destruct names as [|v names]; [congruence|]. split; [now left|].
    intros (w & Hw & Ha). apply (find_none _ _ E) in Hw.
    apply negb_false_iff in Hw. congruence.
Qed.

Section SyntheticNames.
Variable manglePrefix : str.

(** The state of the loop over the value groups: every name assigned so far
    is numbered below the counter; two tokens with the same name are members
    of one group already decided; and every name has a token that carries
    its declaration, which is not an alias when some token with the name is
    not. *)
Let numbered (registry : Registry) (counter : nat) : Prop :=
  forall w t n,
    get registry w = Some t -> mangledName t = Some n ->
    exists c, c < counter /\ n = mangledNameFor manglePrefix c.

Let grouped (registry : Registry) (decided : list (str * list str)) : Prop :=
  forall w1 w2 t1 t2 n,
    get registry w1 = Some t1 -> get registry w2 = Some t2 ->
    mangledName t1 = Some n -> mangledName t2 = Some n ->
    exists g, In g decided /\ In w1 (snd g) /\ In w2 (snd g).

Let declared (registry : Registry) : Prop :=
  forall w t n,
    get registry w = Some t -> mangledName t = Some n ->
    exists e te,
      get registry e = Some te /\ mangledName te = Some n
      /\ emitDeclaration te = true
      /\ (truthyB (isAlias t) = false -> truthyB (isAlias te) = false).

Let complete (registry : Registry) (counter : nat) : Prop :=
  forall c,
    c < counter ->
    exists e te,
      get registry e = Some te
      /\ mangledName te = Some (mangledNameFor manglePrefix c)
      /\ emitDeclaration te = true.

Lemma decideGroup_step (registry : Registry) (counter : nat) (r : str)
    (names : list str) :
  let st' := decideGroup manglePrefix (registry, counter) (r, names) in
  view isAlias (fst st') = view isAlias registry
  /\ (forall w, ~ In w names -> get (fst st') w = get registry w)
  /\ ((snd st' = S counter
       /\ forall w t',
            In w names -> get (fst st') w = Some t' ->
            mangledName t' = Some (mangledNameFor manglePrefix counter)
            /\ emitDeclaration t'
               = str_eqb w (canonicalVarName registry names))
      \/ (snd st' = counter
          /\ forall w t',
               In w names -> get (fst st') w = Some t' ->
               mangledName t' = None)).
Proof.
  cbn zeta.
  assert (Hview : forall (fs : str -> Token -> Token),
             (forall v t, isAlias (fs v t) = isAlias t) ->
             view isAlias (fold_left (fun r v => modify r v (fs v))
                                     names registry)
             = view isAlias registry)
    by (intros fs Hfs; now apply view_fold_modify).
  assert (Hmem : forall n e w t',
             In w names ->
             get (fold_left (fun r v => modify r v (withMangling n (e v)))
                            names registry) w = Some t' ->
             mangledName t' = n /\ emitDeclaration t' = e w).
  { intros n e w t' Hin Hget.
    assert (Hk : exists t, get registry w = Some t).
    { apply In_key_get. apply get_Some_key in Hget.
      rewrite <- (keys_view isAlias) in Hget.
      rewrite (Hview (fun v => withMangling n (e v))) in Hget by reflexivity.
      now rewrite keys_view in Hget. }
    destruct Hk as (t & Ht).
    destruct (fold_withMangling_member n e names registry w t Hin Ht)
      as (t1 & Ht1 & Hn & He).
    rewrite Hget in Ht1. injection Ht1 as <-. now split. }
  split; [|split].
  - unfold decideGroup. destruct (shouldMangle _ _ _); cbn [fst].
    + apply (Hview (fun v =>
                      withMangling
                        (Some (mangledNameFor manglePrefix counter))
                        (str_eqb v (canonicalVarName registry names)))).
      reflexivity.
    + apply (Hview (fun _ => withMangling None false)). reflexivity.
  - intros w Hw.
    apply (decideGroup_other manglePrefix (registry, counter) (r, names) w Hw).
  - destruct (shouldMangle (mangledNameFor manglePrefix counter) (length r)
                (totalUsage registry names)) eqn:E.
    + left. rewrite (decideGroup_mangle _ _ _ _ _ E). cbn [fst snd].
      split; [reflexivity|]. intros w t' Hin Hget.
      apply (Hmem (Some (mangledNameFor manglePrefix counter))
               (fun v => str_eqb v (canonicalVarName registry names))
               w t' Hin Hget).
    + right. rewrite (decideGroup_inline _ _ _ _ _ E). cbn [fst snd].
      split; [reflexivity|]. intros w t' Hin Hget.
      apply (Hmem None (fun _ => false) w t' Hin Hget).
Qed.

Lemma decideGroup_invariants (registry : Registry) (counter : nat)
    (decided : list (str * list str)) (r : str) (names : list str) :
  numbered registry counter -> grouped registry decided ->
  declared registry -> complete registry counter ->
  (forall g w, In g decided -> In w (snd g) -> ~ In w names) ->
  (forall w, In w names -> In w (map fst registry)) ->
  names <> [] ->
  let st' := decideGroup manglePrefix (registry, counter) (r, names) in
  numbered (fst st') (snd st')
  /\ grouped (fst st') (decided ++ [(r, names)])
  /\ declared (fst st')
  /\ complete (fst st') (snd st')
  /\ snd st' <= S counter
  /\ map fst (fst st') = map fst registry.
Proof.
  intros Hnum Hgrp Hdecl Hcomp Hdisj Hreg Hnames. cbn zeta.
  destruct (decideGroup_step registry counter r names)
    as (Hview & Hother & Hcase).
  set (st' := decideGroup manglePrefix (registry, counter) (r, names)) in *.
  assert (Hkeys : map fst (fst st') = map fst registry)
    by (apply (view_keys isAlias), Hview).
  assert (Halias : forall w t t',
             get registry w = Some t -> get (fst st') w = Some t' ->
             isAlias t' = isAlias t).
  { intros w t t' Ht Ht'. pose proof (view_get isAlias _ _ w Hview) as E.
    rewrite Ht, Ht' in E. now injection E. }
  assert (Hdec : forall w, {In w names} + {~ In w names})
    by (intros w; apply in_dec, (list_eq_dec N.eq_dec)).
  assert (Hold : forall w t, ~ In w names -> get (fst st') w = Some t ->
                             get registry w = Some t)
    by (intros w t Hw Ht; now rewrite <- (Hother w Hw)).
  (* a token outside the group with a name has its emitter outside too *)
  assert (Hemit : forall w t n,
             ~ In w names -> get (fst st') w = Some t ->
             mangledName t = Some n ->
             exists e te,
               get (fst st') e = Some te /\ mangledName te = Some n
               /\ emitDeclaration te = true
               /\ (truthyB (isAlias t) = false ->
                   truthyB (isAlias te) = false)).
  { intros w t n Hw Ht Hn. apply (Hold w t Hw) in Ht.
    destruct (Hdecl w t n Ht Hn) as (e & te & He & Hne & Hee & Hea).
    exists e, te. split; [|auto].
    destruct (Hgrp w e t te n Ht He Hn Hne) as (g & Hg & _ & Heg).
    rewrite (Hother e); [exact He|]. now apply (Hdisj g). }
  (* the declarations of the names numbered so far stay where they are *)
  assert (Hkeep : forall c,
             c < counter ->
             exists e te,
               get (fst st') e = Some te
               /\ mangledName te = Some (mangledNameFor manglePrefix c)
               /\ emitDeclaration te = true).
  { intros c Hlt. destruct (Hcomp c Hlt) as (e & te & He & Hn & Hee).
    exists e, te. split; [|now split].
    destruct (Hgrp e e te te _ He He Hn Hn) as (g & Hg & Heg & _).
    rewrite (Hother e); [exact He|]. now apply (Hdisj g). }
  destruct Hcase as [[Hc Hmem]|[Hc Hmem]]; rewrite Hc.
  - (* the group is mangled *)
    destruct (canonicalVarName_spec registry names Hnames) as [Hcin Hcal].
    assert (Hcan : exists te,
               get (fst st') (canonicalVarName registry names) = Some te
               /\ mangledName te = Some (mangledNameFor manglePrefix counter)
               /\ emitDeclaration te = true).
    { assert (Hte : exists te,
                 get (fst st') (canonicalVarName registry names) = Some te).
      { apply In_key_get. rewrite Hkeys. now apply Hreg. }
      destruct Hte as (te & Hte).
      destruct (Hmem _ te Hcin Hte) as [En Ee].
      exists te. split; [exact Hte|]. split; [exact En|].
      now rewrite Ee, str_eqb_refl. }
    assert (Hfresh : forall w t,
               ~ In w names -> get (fst st') w = Some t ->
               mangledName t
               <> Some (mangledNameFor manglePrefix counter)).
    { intros w t Hw Ht Hn. apply (Hold w t Hw) in Ht.
      destruct (Hnum w t _ Ht Hn) as (c & Hlt & E).
      apply mangledNameFor_injective in E. lia. }
    split; [|split; [|split; [|split; [|split; [lia|exact Hkeys]]]]].
    + intros w t n Ht Hn. destruct (Hdec w) as [Hw|Hw].
      * destruct (Hmem w t Hw Ht) as [E _]. exists counter.
        split; [lia|congruence].
      * destruct (Hnum w t n (Hold w t Hw Ht) Hn) as (c & Hlt & E).
        exists c. split; [lia|exact E].
    + intros w1 w2 t1 t2 n H1 H2 N1 N2.
      destruct (Hdec w1) as [Hw1|Hw1], (Hdec w2) as [Hw2|Hw2].
      * exists (r, names). split; [apply in_or_app; right; now left|].
        now split.
      * destruct (Hmem w1 t1 Hw1 H1) as [E _].
        exfalso. apply (Hfresh w2 t2 Hw2 H2). congruence.
      * destruct (Hmem w2 t2 Hw2 H2) as [E _].
        exfalso. apply (Hfresh w1 t1 Hw1 H1). congruence.
      * destruct (Hgrp w1 w2 t1 t2 n (Hold _ _ Hw1 H1) (Hold _ _ Hw2 H2)
                    N1 N2) as (g & Hg & G1 & G2).
        exists g. split; [apply in_or_app; now left|now split].
    + intros w t n Ht Hn. destruct (Hdec w) as [Hw|Hw];
        [|now apply (Hemit w t n)].
      destruct (Hmem w t Hw Ht) as [E _].
      destruct Hcan as (te & Hte & En & Ee).
      set (e := canonicalVarName registry names) in *.
      destruct (In_key_get registry e (Hreg e Hcin)) as (te0 & Hte0).
      exists e, te. split; [exact Hte|]. split; [congruence|].
      split; [exact Ee|].
      intros Ha. rewrite (Halias e te0 te Hte0 Hte).
      replace te0 with (getToken registry e)
        by (unfold getToken; now rewrite Hte0).
      apply Hcal. exists w. split; [exact Hw|].
      destruct (In_key_get registry w (Hreg w Hw)) as (t0 & Ht0).
      unfold getToken. rewrite Ht0.
      now rewrite <- (Halias w t0 t Ht0 Ht).
    + intros c Hlt. destruct (Nat.eq_dec c counter) as [->|Hc'].
      * destruct Hcan as (te & Hte & En & Ee).
        now exists (canonicalVarName registry names), te.
      * apply Hkeep. lia.
  - (* the group is left for inlining *)
    assert (Hout : forall w t n,
               get (fst st') w = Some t -> mangledName t = Some n ->
               ~ In w names).
    { intros w t n Ht Hn Hw. rewrite (Hmem w t Hw Ht) in Hn. discriminate. }
    split; [|split; [|split; [|split; [exact Hkeep|split; [lia|exact Hkeys]]]]].
    + intros w t n Ht Hn.
      apply (Hnum w t n); [|exact Hn].
      apply (Hold w t); [now apply (Hout w t n)|exact Ht].
    + intros w1 w2 t1 t2 n H1 H2 N1 N2.
      destruct (Hgrp w1 w2 t1 t2 n
                  (Hold _ _ (Hout _ _ _ H1 N1) H1)
                  (Hold _ _ (Hout _ _ _ H2 N2) H2) N1 N2)
        as (g & Hg & G1 & G2).
      exists g. split; [apply in_or_app; now left|now split].
    + intros w t n Ht Hn. apply (Hemit w t n); trivial.
      now apply (Hout w t n).
Qed.

Lemma fold_decideGroup_invariants (todo : list (str * list str)) :
  forall (decided : list (str * list str)) (registry : Registry)
         (counter : nat),
    numbered registry counter -> grouped registry decided ->
    declared registry -> complete registry counter ->
    (forall g g' w, In g decided -> In g' todo ->
                    In w (snd g) -> ~ In w (snd g')) ->
    disjointGroups todo ->
    (forall g w, In g todo -> In w (snd g) -> In w (map fst registry)) ->
    (forall g, In g todo -> snd g <> []) ->
    let st' := fold_left (decideGroup manglePrefix) todo (registry, counter) in
    numbered (fst st') (snd st')
    /\ grouped (fst st') (decided ++ todo)
    /\ declared (fst st')
    /\ complete (fst st') (snd st')
    /\ snd st' <= counter + length todo.
Proof.
  induction todo as [|[r names] todo IH];
    intros decided registry counter Hnum Hgrp Hdecl Hcomp Hdisj Htodo Hreg
           Hne;
    cbn zeta.
  { cbn [fold_left fst snd length]. rewrite app_nil_r.
    repeat split; trivial. lia. }
  cbn [fold_left].
  destruct (decideGroup_invariants registry counter decided r names
              Hnum Hgrp Hdecl Hcomp)
    as (N1 & G1 & D1 & P1 & C1 & K1).
  { intros g w Hg Hw. apply (Hdisj g (r, names) w Hg); [now left|exact Hw]. }
  { intros w Hw. apply (Hreg (r, names)); [now left|exact Hw]. }
  { apply (Hne (r, names)). now left. }
  destruct (decideGroup manglePrefix (registry, counter) (r, names))
    as [registry1 counter1] eqn:E.
  cbn [fst snd] in *. unfold disjointGroups in Htodo.
  inversion Htodo as [|? ? Hfirst Hrest]; subst.
  destruct (IH (decided ++ [(r, names)]) registry1 counter1 N1 G1 D1 P1)
    as (N2 & G2 & D2 & P2 & C2).
  - intros g g' w Hg Hg' Hw. apply in_app_or in Hg.
    destruct Hg as [Hg|[<-|[]]].
    + apply (Hdisj g g' w Hg); [now right|exact Hw].
    + rewrite Forall_forall in Hfirst. now apply (Hfirst g' Hg').
  - exact Hrest.
  - intros g w Hg Hw. rewrite K1. apply (Hreg g); [now right|exact Hw].
  - intros g Hg. apply Hne. now right.
  - rewrite <- app_assoc in G2. cbn [app] in G2.
    repeat split; trivial. cbn [length]. lia.
Qed.
End SyntheticNames.

(** No value group is empty. *)
Lemma groupByValue_nonempty (registry : Registry) (r : str)
    (names : list str) :
  get (groupByValue registry) r = Some names -> names <> [].
Proof.
  unfold groupByValue.
  set (step := fun (valueToVars : list (str * list str))
                   '((varName, variable) : str * Token) => _).
  enough (G : forall entries acc,
             (forall r names, get acc r = Some names -> names <> []) ->
             forall r names,
               get (fold_left step entries acc) r = Some names ->
               names <> []).
  { apply (G registry []). discriminate. }
  induction entries as [|[w0 t0] entries IH]; intros acc Hacc; [exact Hacc|].
  cbn [fold_left]. apply IH. unfold step.
  destruct (usageCount t0 =? 0); [exact Hacc|].
  destruct (get acc (resolveVariableValue w0 registry 0)) as [vars|] eqn:Hg.
  - intros r1 names1 H. rewrite get_modify in H.
    destruct (str_eqb r1 _) eqn:E; [|now apply (Hacc r1)].
    apply str_eqb_eq in E. subst r1. rewrite Hg in H.
    injection H as <-. now destruct vars.
  - intros r1 names1 H. rewrite get_set in H.
    destruct (str_eqb r1 _); [|now apply (Hacc r1)].
    injection H as <-. discriminate.
Qed.

(** The analysis hands a registry without names to the decision. *)
Lemma analyze_no_names (sources : list str) (registry : Registry) (k : str)
    (t : Token) :
  get (analyze sources registry) k = Some t ->
  mangledName t = None /\ emitDeclaration t = false.
Proof.
  intros Hget. unfold analyze in Hget.
  pose proof (view_analysis_loop
                (fun t => (mangledName t, emitDeclaration t)) sources
                (resetUsageCounts registry)
                (fun _ _ => eq_refl) (fun _ _ => eq_refl)) as V.
  pose proof (view_get _ _ _ k V) as E. rewrite Hget in E.
  unfold resetUsageCounts in E.
  rewrite (get_map_entries registry k
             (fun _ variable =>
                withMangling None false (withUsageCount 0 variable))) in E.
  destruct (get registry k) as [t0|]; [|discriminate].
  cbn [option_map] in E. injection E as E1 E2. now split.
Qed.

(** The synthetic names in the registry that the Transformer reads. *)
Lemma decide_synthetic_names (sources : list str)
    (manglePrefix : str) :
  let analysed := analyze sources (extractAll sources) in
  let registry := decide sources manglePrefix in
  let counter := snd (generateMangledNames analysed manglePrefix) in
  counter <= length (groupByValue analysed)
  /\ (forall w t n,
        get registry w = Some t -> mangledName t = Some n ->
        usageCount t <> 0
        /\ (exists c, c < counter /\ n = manglePrefix ++ toString36 c)
        /\ exists e te,
             get registry e = Some te /\ mangledName te = Some n
             /\ emitDeclaration te = true
             /\ (truthyB (isAlias t) = false ->
                 truthyB (isAlias te) = false))
  /\ (forall w1 w2 t1 t2 n,
        get registry w1 = Some t1 -> get registry w2 = Some t2 ->
        mangledName t1 = Some n -> mangledName t2 = Some n ->
        resolveVariableValue w1 registry 0
        = resolveVariableValue w2 registry 0)
  /\ (forall c,
        c < counter ->
        exists e te,
          get registry e = Some te
          /\ mangledName te = Some (manglePrefix ++ toString36 c)
          /\ emitDeclaration te = true).
Proof.
  cbn zeta. unfold decide.
  set (analysed := analyze sources (extractAll sources)).
  assert (Hnone : forall k t, get analysed k = Some t -> mangledName t = None)
    by (intros k t H; now apply (analyze_no_names _ _ _ _ H)).
  assert (Hnd : NoDup (map fst analysed))
    by (unfold analysed; rewrite analyze_keys; apply extractAll_NoDup).
  destruct (groupByValue_groups analysed) as (Hgnd & Hres & _).
  destruct (fold_decideGroup_invariants manglePrefix (groupByValue analysed)
              [] analysed 0)
    as (Hnum & Hgrp & Hdecl & Hcomp & Hc).
  { intros w t n Ht Hn. rewrite (Hnone w t Ht) in Hn. discriminate. }
  { intros w1 w2 t1 t2 n H1 _ N1. rewrite (Hnone w1 t1 H1) in N1.
    discriminate. }
  { intros w t n Ht Hn. rewrite (Hnone w t Ht) in Hn. discriminate. }
  { intros c Hlt. lia. }
  { intros g g' w []. }
  { apply groupByValue_disjoint. }
  { intros [r names] w Hg Hw. cbn [snd] in Hw.
    destruct (groupByValue_members analysed r names w) as (t & Ht);
      [now apply NoDup_keys_get|exact Hw|].
    eapply get_Some_key, Ht. }
  { intros [r names] Hg. cbn [snd].
    apply (groupByValue_nonempty analysed r). now apply NoDup_keys_get. }
  fold (generateMangledNames analysed manglePrefix) in *.
  cbn [app] in Hgrp. split; [lia|]. split; [|split; [|exact Hcomp]].
  - intros w t n Ht Hn. split; [|split].
    + intros Hu.
      pose proof (generateMangledNames_proj usageCount (fun _ _ _ => eq_refl)
                    analysed manglePrefix w) as E.
      rewrite Ht in E. destruct (get analysed w) as [t0|] eqn:H0;
        [|discriminate].
      injection E as E.
      rewrite (generateMangledNames_unused analysed manglePrefix w t0 Hnd H0)
        in Ht by congruence.
      injection Ht as <-. rewrite (Hnone w t0 H0) in Hn. discriminate.
    + apply (Hnum w t n Ht Hn).
    + apply (Hdecl w t n Ht Hn).
  - intros w1 w2 t1 t2 n H1 H2 N1 N2.
    destruct (Hgrp w1 w2 t1 t2 n H1 H2 N1 N2) as ([r names] & Hg & G1 & G2).
    cbn [snd] in *.
    assert (Hval : forall k,
               option_map value
                 (get (fst (generateMangledNames analysed manglePrefix)) k)
               = option_map value (get analysed k))
      by (intros k; now apply generateMangledNames_proj).
    rewrite !(resolveVariableValue_ext _ analysed _ _ Hval).
    apply (NoDup_keys_get _ _ _ Hgnd) in Hg.
    now rewrite (Hres r names w1 Hg G1), (Hres r names w2 Hg G2).
Qed.

(** X18.  The synthetic names in the registry that the Transformer reads.
    The counter that [generateMangledNames] returns is at most the number of
    value groups.  A token with a synthetic name is used; its name is the
    prefix followed by the base 36 numeral of a number below the counter;
    some token with the same name carries the declaration of the name, and
    that token is not an alias when the token itself is not.  Two tokens
    with the same synthetic name have the same resolved value.  And every
    number below the counter is the number of a name that some token
    carries together with its declaration: the counter is the number of
    synthetic names in use. *)
Theorem synthetic_names_identify_value_groups (sources : list str)
    (manglePrefix : str) :
  let analysed := analyze sources (extractAll sources) in
  let registry := decide sources manglePrefix in
  let counter := snd (generateMangledNames analysed manglePrefix) in
  counter <= length (groupByValue analysed)
  /\ (forall w t n,
        get registry w = Some t -> mangledName t = Some n ->
        usageCount t <> 0
        /\ (exists c, c < counter /\ n = manglePrefix ++ toString36 c)
        /\ exists e te,
             get registry e = Some te /\ mangledName te = Some n
             /\ emitDeclaration te = true
             /\ (truthyB (isAlias t) = false ->
                 truthyB (isAlias te) = false))
  /\ (forall w1 w2 t1 t2 n,
        get registry w1 = Some t1 -> get registry w2 = Some t2 ->
        mangledName t1 = Some n -> mangledName t2 = Some n ->
        resolveVariableValue w1 registry 0
        = resolveVariableValue w2 registry 0)
  /\ (forall c,
        c < counter ->
        exists e te,
          get registry e = Some te
          /\ mangledName te = Some (manglePrefix ++ toString36 c)
          /\ emitDeclaration te = true).
Proof. apply decide_synthetic_names. Qed.

(** On [twoGroups]: the alias [--x], declared first, and its target [--b]
    share [--_0], which [--b] declares. *)
Example synthetic_names_of_twoGroups :
  map (fun '(k, t) => (k, mangledName t, emitDeclaration t))
      (decide (map snd (cssAssets twoGroups)) defaultPrefix)
  = [(lit "--x", Some (lit "--_0"), false);
     (lit "--a", Some (lit "--_1"), true);
     (lit "--b", Some (lit "--_0"), true)].
Proof. vm_compute; reflexivity. Qed.

(** Every name that extraction enters is declared in a tokens layer. *)
Lemma extractTokensVariables_declared (code : str) (registry : Registry)
    (k : str) :
  In k (map fst (extractTokensVariables code registry)) ->
  In k (map fst registry) \/ In k (map (group 1) (layerMatches code)).
Proof.
  rewrite extractTokensVariables_fold.
  generalize (layerMatches code). intros ms. revert registry.
  induction ms as [|m ms IH]; intros registry H; [now left|].
  cbn [fold_left] in H. apply IH in H. cbn [map].
  destruct H as [H|H]; [|right; now right].
  unfold has in H.
  destruct (get registry (group 1 m)) as [t|] eqn:Hget; cbn [negb] in H.
  - rewrite keys_modify in H. now left.
  - rewrite keys_set_new in H by exact Hget. apply in_app_or in H.
    destruct H as [H|[<-|[]]]; [now left|right; now left].
Qed.

Lemma extractAll_declared (sources : list str) (k : str) :
  In k (map fst (extractAll sources)) ->
  exists source,
    In source sources /\ In k (map (group 1) (declarationMatches source)).
Proof.
  assert (Hrev : forall source,
             In k (map (group 1) (layerMatches source)) ->
             In k (map (group 1) (declarationMatches source))).
  { intros source H. apply in_map_iff in H. destruct H as (m & <- & Hm).
    apply in_map. unfold layerMatches in Hm. unfold declarationMatches.
    apply in_flat_map in Hm. destruct Hm as (layer & Hl & Hm).
    apply in_flat_map. exists layer. split; [now apply in_rev in Hl|exact Hm]. }
  unfold extractAll.
  enough (G : forall registry : Registry,
             In k (map fst (fold_left
                              (fun registry source =>
                                 extractTokensVariables source registry)
                              sources registry)) ->
             In k (map fst registry)
             \/ exists source,
                  In source sources
                  /\ In k (map (group 1) (declarationMatches source))).
  { intros H. destruct (G [] H) as [[]|H']. exact H'. }
  induction sources as [|source sources IH]; intros registry H; [now left|].
  cbn [fold_left] in H. apply IH in H.
  destruct H as [H|(s & Hs & Hk)].
  - apply extractTokensVariables_declared in H. destruct H as [H|H];
      [now left|].
    right. exists source. split; [now left|now apply Hrev].
  - right. exists s. split; [now right|exact Hk].
Qed.

(** X19.  The declarations pass builds a declaration for a synthetic name
    that is in use.  When a variable that is not an alias carries a
    synthetic name in the registry that the Transformer reads, and no token
    with that name is set elsewhere, then the name is not empty and, for
    some CSS asset of the bundle, the declarations that the declarations
    pass builds for the tokens layers of the asset ([assetDeclarations])
    hold [name: resolvedValue], with the resolved value of the variable.
    This is about the declarations that the pass builds, not about the text
    that it returns: see [nested_layers_lose_the_declaration]. *)
Theorem synthetic_name_declaration_is_built (sources : list str)
    (manglePrefix : str) (varName : str) (variable : Token) (n : str) :
  let registry := decide sources manglePrefix in
  get registry varName = Some variable ->
  mangledName variable = Some n ->
  truthyB (isAlias variable) = false ->
  nameSetElsewhere n registry = false ->
  n <> []
  /\ exists source,
       In source sources
       /\ In (n ++ ": " ++ resolveVariableValue varName registry 0)
             (assetDeclarations source registry).
Proof.
  cbn zeta. intros Hget Hn Halias Hset.
  destruct (decide_synthetic_names sources manglePrefix)
    as (_ & Hnamed & Hsame & _).
  set (registry := decide sources manglePrefix) in *.
  destruct (Hnamed varName variable n Hget Hn)
    as (_ & (c & _ & Ec) & (e & te & He & Hen & Hee & Hea)).
  specialize (Hea Halias).
  destruct (Hnamed e te n He Hen) as (Hu & _ & _).
  assert (Hne : n <> []).
  { intros E. pose proof (toString36_length c) as L.
    apply (f_equal (@length N)) in Ec. rewrite E, length_app in Ec.
    cbn [length] in Ec. lia. }
  split; [exact Hne|].
  assert (Hs : setElsewhere te = false).
  { unfold nameSetElsewhere in Hset.
    destruct (setElsewhere te) eqn:E; [|reflexivity].
    assert (X : existsb (fun '(_, t) =>
                           setElsewhere t
                           && match mangledName t with
                              | Some n' => str_eqb n' n
                              | None => false
                              end) registry = true).
    { apply existsb_exists. exists (e, te). split; [now apply get_In|].
      now rewrite E, Hen, str_eqb_refl. }
    congruence. }
  assert (Hres : resolveVariableValue e registry 0
                 = resolveVariableValue varName registry 0)
    by apply (Hsame e varName te variable n He Hget Hen Hn).
  destruct (extractAll_declared sources e) as (source & Hsrc & Hdecl).
  { pose proof (view_keys (fun t => (value t, isAlias t)) _ _
                  (view_decide (fun t => (value t, isAlias t)) sources
                     manglePrefix (fun _ _ => eq_refl) (fun _ _ => eq_refl)
                     (fun _ _ _ => eq_refl))) as K.
    rewrite <- K. eapply get_Some_key, He. }
  exists source. split; [exact Hsrc|]. rewrite <- Hres.
  assert (Hunique : forall w t,
             get registry w = Some t -> usageCount t <> 0 ->
             emitDeclaration t = true ->
             resolveVariableValue w registry 0
             = resolveVariableValue e registry 0 ->
             w = e).
  { intros w t Hw Huw Hew Hr.
    now apply (generateMangledNames_groups
                 (analyze sources (extractAll sources)) manglePrefix
                 w e t te Hw He Huw Hu Hr). }
  rewrite assetDeclarations_eq.
  pose proof (fold_declarationStep_once registry e te n He Hs Hen Hee Hunique
                (declarationMatches source) ([], [])) as Honce.
  pose proof (fold_declarationStep_emitted registry e te n He Hu Hs Hen Hne
                Hee (declarationMatches source) Hea Hdecl [] []) as Hemitted.
  destruct Honce as [[Hnot _]|[_ (pre & post & -> & _)]].
  - left. split; [intros []|constructor].
  - contradiction.
  - apply in_or_app. right. now left.
Qed.

(** On [declaredTwice], for the name [--_0] of [--b]. *)
Lemma synthetic_name_declaration_is_built_witness :
  get (decide [declaredTwice] defaultPrefix) "--b"
  = Some (mkToken "rgba(0, 0, 255, 0.5)" 5 false (Some (lit "--_0"))
                  (Some false) true)
  /\ nameSetElsewhere "--_0" (decide [declaredTwice] defaultPrefix) = false
  /\ exists source,
       In source [declaredTwice]
       /\ In (lit "--_0" ++ ": " ++
              resolveVariableValue "--b" (decide [declaredTwice] defaultPrefix)
                                   0)
             (assetDeclarations source (decide [declaredTwice] defaultPrefix)).
Proof.
  assert (Hget : get (decide [declaredTwice] defaultPrefix) "--b"
                 = Some (mkToken "rgba(0, 0, 255, 0.5)" 5 false
                                 (Some (lit "--_0")) (Some false) true))
    by (vm_compute; reflexivity).
  assert (Hset : nameSetElsewhere "--_0" (decide [declaredTwice] defaultPrefix)
                 = false)
    by (vm_compute; reflexivity).
  split; [exact Hget|]. split; [exact Hset|].
  exact (proj2 (synthetic_name_declaration_is_built [declaredTwice]
                  defaultPrefix "--b" _ "--_0" Hget eq_refl eq_refl Hset)).
Defined.

(** The rewritten layers are spliced in by the offsets of the layers in the
    original text.  With a tokens layer inside another one the inner layer
    is rewritten first; the outer one then finds the value emitted already,
    builds no declaration, and its span, cut out of the text, takes the
    rewritten inner layer with it. *)
Example nested_layers_lose_the_declaration :
  map (fun layer => (start layer, end_ layer)) (findTokensLayers nestedLayers)
  = [(0, 61); (14, 60)]
  /\ decide [nestedLayers] defaultPrefix
     = [(lit "--n",
         mkToken "rgba(0, 0, 255, 0.5)" 3 false (Some (lit "--_0"))
                 (Some false) true)]
  /\ assetDeclarations nestedLayers (decide [nestedLayers] defaultPrefix)
     = [lit "--_0: rgba(0, 0, 255, 0.5)"]
  /\ transformCode nestedLayers (decide [nestedLayers] defaultPrefix)
     = "}}" ++ repeatStr 3 ".x{color:var(--_0)}".
Proof. repeat split; vm_compute; reflexivity. Qed.

(** X25.  Take the registry that the analysis and the decision produce, and
    in it a used variable that is not set elsewhere, carries a synthetic
    name and carries the declaration of its group (the canonical member of a
    mangled group), declared in some tokens layer of an asset.  When the
    variable is not an alias, the declarations that the declarations pass
    builds for the asset ([assetDeclarations], all its layers together)
    hold the declaration of the group, [mangledName: resolvedValue], at one
    position, and every other declaration built there is the copy of a
    declaration that is set elsewhere or the declaration of another value
    group.  When the variable is an alias, none of the declarations built
    for the asset is the one of its group.  And the declarations pass skips
    every declaration of a variable that is not set elsewhere and does not
    carry the declaration of its group. *)
Theorem canonical_declaration_once (sources : list str) (manglePrefix : str)
    (code : str) (varName : str) (variable : Token) (mangled : str) :
  get (decide sources manglePrefix) varName = Some variable ->
  usageCount variable <> 0 ->
  setElsewhere variable = false ->
  mangledName variable = Some mangled ->
  mangled <> [] ->
  emitDeclaration variable = true ->
  In varName (map (group 1) (declarationMatches code)) ->
  (truthyB (isAlias variable) = false ->
   exists pre post,
     assetDeclarations code (decide sources manglePrefix) =
     pre ++ (mangled ++ ": " ++
             resolveVariableValue varName (decide sources manglePrefix) 0)
         :: post
     /\ Forall (otherThan (decide sources manglePrefix)
                  (resolveVariableValue varName
                     (decide sources manglePrefix) 0)) pre
     /\ Forall (otherThan (decide sources manglePrefix)
                  (resolveVariableValue varName
                     (decide sources manglePrefix) 0)) post)
  /\ (truthyB (isAlias variable) = true ->
      Forall (otherThan (decide sources manglePrefix)
                (resolveVariableValue varName
                   (decide sources manglePrefix) 0))
             (assetDeclarations code (decide sources manglePrefix)))
  /\ (forall w t st m,
        get (decide sources manglePrefix) w = Some t ->
        setElsewhere t = false -> emitDeclaration t = false ->
        group 1 m = w ->
        declarationStep (decide sources manglePrefix) st m = st).
Proof.
  intros Hget Hused Hset Hname Hnonempty Hemit Hdeclared.
  set (registry := decide sources manglePrefix) in *.
  assert (Hunique : forall w t,
             get registry w = Some t -> usageCount t <> 0 ->
             emitDeclaration t = true ->
             resolveVariableValue w registry 0
             = resolveVariableValue varName registry 0 ->
             w = varName).
  { intros w t Hw Hu He Hres.
    now apply (generateMangledNames_groups
                 (analyze sources (extractAll sources)) manglePrefix
                 w varName t variable Hw Hget Hu Hused Hres). }
  repeat split.
  - intros Halias. rewrite assetDeclarations_eq.
    pose proof (fold_declarationStep_once registry varName variable mangled
                  Hget Hset Hname Hemit Hunique (declarationMatches code)
                  ([], []))
      as Honce.
    pose proof (fold_declarationStep_emitted registry varName variable mangled
                  Hget Hused Hset Hname Hnonempty Hemit
                  (declarationMatches code) Halias Hdeclared [] [])
      as Hemitted.
    destruct Honce as [[Hnot _]|[_ Hafter]].
    + left. split; [intros []|constructor].
    + contradiction.
    + exact Hafter.
  - intros Halias. rewrite assetDeclarations_eq.
    apply (fold_declarationStep_alias registry varName variable mangled
             Hget Hset Hname Hemit Hunique (declarationMatches code) Halias
             ([], [])).
    split; [intros []|constructor].
  - intros w t st m Hw Hs He <-. unfold declarationStep.
    destruct st as [d e]. rewrite Hw, Hs, He.
    destruct (usageCount t =? 0); [reflexivity|].
    now destruct (mangledName t) as [[|c mg]|].
Qed.

(** On [declaredTwice]: one declaration of [--_0], though [--b] is declared
    in two layers. *)
Lemma canonical_declaration_once_witness :
  get (decide [declaredTwice] defaultPrefix) "--b"
  = Some (mkToken "rgba(0, 0, 255, 0.5)" 5 false (Some (lit "--_0"))
                  (Some false) true)
  /\ map (group 1) (declarationMatches declaredTwice)
     = [lit "--b"; lit "--x"; lit "--b"]
  /\ assetDeclarations declaredTwice (decide [declaredTwice] defaultPrefix)
     = [lit "--_0: rgba(0, 0, 255, 0.5)"]
  /\ exists pre post,
       assetDeclarations declaredTwice (decide [declaredTwice] defaultPrefix)
       = pre ++ (lit "--_0" ++ ": " ++
                 resolveVariableValue "--b"
                   (decide [declaredTwice] defaultPrefix) 0) :: post
       /\ Forall (otherThan (decide [declaredTwice] defaultPrefix)
                    (resolveVariableValue "--b"
                       (decide [declaredTwice] defaultPrefix) 0)) pre
       /\ Forall (otherThan (decide [declaredTwice] defaultPrefix)
                    (resolveVariableValue "--b"
                       (decide [declaredTwice] defaultPrefix) 0)) post.
Proof.
  assert (Hget : get (decide [declaredTwice] defaultPrefix) "--b"
                 = Some (mkToken "rgba(0, 0, 255, 0.5)" 5 false
                                 (Some (lit "--_0")) (Some false) true))
    by (vm_compute; reflexivity).
  assert (Hdecl : map (group 1) (declarationMatches declaredTwice)
                  = [lit "--b"; lit "--x"; lit "--b"])
    by (vm_compute; reflexivity).
  split; [exact Hget|]. split; [exact Hdecl|].
  split; [vm_compute; reflexivity|].
  assert (Hin : In (lit "--b")
                   (map (group 1) (declarationMatches declaredTwice)))
    by (rewrite Hdecl; now left).
  exact (proj1 (canonical_declaration_once [declaredTwice] defaultPrefix
                  declaredTwice "--b" _ "--_0" Hget
                  ltac:(discriminate) eq_refl eq_refl ltac:(discriminate)
                  eq_refl Hin)
               eq_refl).
Defined.

(** ** Assets, bundles and the summary *)

(** X20.  [transformCode] on a text without tokens layer is the references
    pass alone, and when every reference in the text names a variable that
    is not in the registry the text is returned as it is. *)
Theorem asset_without_tokens_layers (code : str) (registry : Registry) :
  findTokensLayers code = [] ->
  transformCode code registry
  = replace VAR_REF_REGEX code (rewriteReference registry)
  /\ ((forall m, In m (matchAll VAR_REF_REGEX code) ->
                 get registry (group 1 m) = None) ->
      transformCode code registry = code).
Proof.
  intros H. unfold transformCode, rewriteLayers. rewrite H.
  cbn [rev fold_left fst]. split; [reflexivity|].
  intros Hall. apply replace_unchanged. intros m Hm.
  unfold rewriteReference. now rewrite (Hall m Hm).
Qed.

(** On [hostReference], with the registry of [hostFallback]. *)
Lemma asset_without_tokens_layers_witness :
  findTokensLayers hostReference = []
  /\ get (decide [hostFallback] defaultPrefix) "--host" = None
  /\ transformCode hostReference (decide [hostFallback] defaultPrefix)
     = hostReference.
Proof.
  assert (H : findTokensLayers hostReference = [])
    by (vm_compute; reflexivity).
  split; [exact H|]. split; [vm_compute; reflexivity|].
  apply (proj2 (asset_without_tokens_layers hostReference
                  (decide [hostFallback] defaultPrefix) H)).
  intros m Hm. vm_compute in Hm. destruct Hm as [<-|[]].
  vm_compute. reflexivity.
Defined.

(** X21.  [generateBundle] keeps the entries of the bundle, their names
    and their order.  A chunk, and an asset whose name does not end in
    [.css], is left as it is.  A CSS asset is left as it is when the CSS
    assets declare no variable in a tokens layer, and otherwise its source
    becomes [transformCode] of its source under the one registry that the
    analysis and the decision build from the sources of the CSS assets of
    the bundle, and from nothing else. *)
Theorem generateBundle_rewrites_css_assets_only (manglePrefix : str)
    (bundle : Bundle) :
  let sources := map snd (cssAssets bundle) in
  map fst (generateBundle manglePrefix bundle) = map fst bundle
  /\ (forall i name out,
        nth_error bundle i = Some (name, out) ->
        isCssAsset name out = false ->
        nth_error (generateBundle manglePrefix bundle) i = Some (name, out))
  /\ (forall i name source,
        nth_error bundle i = Some (name, Asset source) ->
        endsWith name ".css" = true ->
        nth_error (generateBundle manglePrefix bundle) i
        = Some (name,
                Asset (match extractAll sources with
                       | [] => source
                       | _ :: _ =>
                           transformCode source (decide sources manglePrefix)
                       end))).
Proof.
  cbn zeta. unfold generateBundle.
  destruct (cssAssets bundle) as [|asset assets] eqn:Hcss.
  { repeat split; trivial. }
  generalize (map snd (asset :: assets)). intros sources.
  destruct (extractAll sources) as [|entry entries] eqn:Hreg.
  { repeat split; trivial. }
  generalize (decide sources manglePrefix). intros registry. split.
  { rewrite map_map. apply map_ext. intros [name [source|]]; cbn [fst];
      [|reflexivity].
    destruct (endsWith name ".css"); [|reflexivity].
    now destruct (negb _). }
  split.
  - intros i name out Hi Hcssa. rewrite nth_error_map, Hi. cbn [option_map].
    destruct out as [source|]; [|reflexivity].
    cbn [isCssAsset] in Hcssa. now rewrite Hcssa.
  - intros i name source Hi Hends. rewrite nth_error_map, Hi.
    cbn [option_map]. rewrite Hends.
    destruct (str_eqb (transformCode source registry) source) eqn:E;
      cbn [negb]; [|reflexivity].
    apply str_eqb_eq in E. now rewrite E.
Qed.

(** On [mixedBundle]: the reference in the SVG asset is not touched. *)
Example generateBundle_of_mixedBundle :
  generateBundle defaultPrefix mixedBundle
  = [(lit "a.js", Chunk);
     (lit "a.css", Asset ".a{color:#ff0000}");
     (lit "logo.svg", Asset "<svg>var(--c)</svg>")].
Proof. vm_compute; reflexivity. Qed.

Lemma routeStep_sum (st : Routes) (t : Token) :
  let st' := routeStep st t in
  drop st' = drop st + (if isDropped t then 1 else 0)
  /\ inline st' = inline st + (if isInlined t then 1 else 0)
  /\ mangle st' = mangle st + (if isMangled t then 1 else 0)
  /\ keep st' = keep st + (if isKept t then 1 else 0).
Proof.
  cbn zeta. unfold routeStep, isDropped, isInlined, isMangled, isKept.
  destruct (usageCount t =? 0); cbn [negb andb drop inline mangle keep];
    [lia|].
  destruct (setElsewhere t); cbn [negb andb drop inline mangle keep]; [lia|].
  destruct (mangledName t) as [[|c n]|]; cbn [drop inline mangle keep]; lia.
Qed.

Lemma count_filter_partition (ts : list Token) :
  length (filter isDropped ts) + length (filter isInlined ts)
  + length (filter isMangled ts) + length (filter isKept ts) = length ts.
Proof.
  induction ts as [|t ts IH]; [reflexivity|]. cbn [filter length].
  unfold isDropped, isInlined, isMangled, isKept in *.
  destruct (usageCount t =? 0); cbn [negb andb length].
  - lia.
  - destruct (setElsewhere t); cbn [negb andb length]; [lia|].
    destruct (mangledName t) as [[|c n]|]; cbn [length]; lia.
Qed.

(** X22.  [getStats] counts every variable of the registry under exactly
    one of its four routes: [drop] counts the unused ones, [keep] the used
    ones that are set elsewhere, [mangle] the other used ones that carry a
    synthetic name and [inline] the rest, and the four numbers add up to the
    size of the registry. *)
Theorem getStats_counts_every_variable_once (registry : Registry) :
  let tokens := map snd registry in
  let st := countRoutes registry in
  drop st = length (filter isDropped tokens)
  /\ inline st = length (filter isInlined tokens)
  /\ mangle st = length (filter isMangled tokens)
  /\ keep st = length (filter isKept tokens)
  /\ drop st + inline st + mangle st + keep st = length registry.
Proof.
  cbn zeta. unfold countRoutes.
  enough (G : forall ts st,
             let st' := fold_left routeStep ts st in
             drop st' = drop st + length (filter isDropped ts)
             /\ inline st' = inline st + length (filter isInlined ts)
             /\ mangle st' = mangle st + length (filter isMangled ts)
             /\ keep st' = keep st + length (filter isKept ts)).
  { destruct (G (map snd registry) (mkRoutes 0 0 0 0)) as (D & I & M & K).
    cbn [drop inline mangle keep] in *.
    pose proof (count_filter_partition (map snd registry)) as P.
    rewrite length_map in P. repeat split; lia. }
  induction ts as [|t ts IH]; intros st; cbn zeta.
  - cbn [fold_left filter length]. repeat split; lia.
  - cbn [fold_left filter].
    destruct (IH (routeStep st t)) as (D & I & M & K).
    destruct (routeStep_sum st t) as (D1 & I1 & M1 & K1).
    rewrite D, I, M, K, D1, I1, M1, K1.
    destruct (isDropped t), (isInlined t), (isMangled t), (isKept t);
      cbn [length]; repeat split; lia.
Qed.

(** The line that is logged for [statsExample]. *)
Example getStats_line :
  getStats statsExample 1
  = "Analysis: 2 drop, 1 inline, 1 mangle (1 unique values), 1 keep".
Proof. vm_compute; reflexivity. Qed.

(** ** The value groups and the cost model *)

(** X23.  The value groups partition the used variables by resolved value:
    no resolved value has two groups, no group is empty, and the members of
    the group of a resolved value are the names of the entries of the
    registry with a count that is not 0 that resolve to it. *)
Theorem value_groups_partition_used_variables (registry : Registry) :
  NoDup (map fst (groupByValue registry))
  /\ forall r names,
       get (groupByValue registry) r = Some names ->
       names <> []
       /\ forall w,
            In w names <->
            exists t, In (w, t) registry /\ usageCount t <> 0
                      /\ resolveVariableValue w registry 0 = r.
Proof.
  destruct (groupByValue_groups registry) as (Hnd & Hres & Hcover).
  split; [exact Hnd|]. intros r names Hget.
  split; [apply (groupByValue_nonempty registry r names Hget)|].
  intros w. split.
  - intros Hin. destruct (groupByValue_used registry r names w Hget Hin)
      as (t & Ht & Hu).
    exists t. split; [exact Ht|]. split; [exact Hu|].
    apply (Hres r names w Hget Hin).
  - intros (t & Ht & Hu & <-).
    destruct (Hcover w t Ht Hu) as (names' & Hget' & Hin).
    rewrite Hget in Hget'. now injection Hget' as <-.
Qed.

(** On [twoGroups]: the alias [--x] is in the group of its target. *)
Example value_groups_of_twoGroups :
  groupByValue (analyze (map snd (cssAssets twoGroups))
                        (extractAll (map snd (cssAssets twoGroups))))
  = [(lit "rgba(0, 0, 255, 0.5)", [lit "--x"; lit "--b"]);
     (lit "rgba(255, 0, 0, 0.5)", [lit "--a"])].
Proof. vm_compute; reflexivity. Qed.

(** X24.  What the cost model implies.  A group is only mangled when its
    resolved value is longer than a reference to the synthetic name and when
    it is used at least twice; a group that is mangled would be mangled with
    any higher total usage as well; and with the default prefix the resolved
    value of a mangled group has at least 11 code units. *)
Theorem mangling_needs_a_long_value_used_twice (mangledName : str)
    (valueLen totalUsage : nat) :
  shouldMangle mangledName valueLen totalUsage = true ->
  referenceCost mangledName < valueLen
  /\ 2 <= totalUsage
  /\ (forall totalUsage',
        totalUsage <= totalUsage' ->
        shouldMangle mangledName valueLen totalUsage' = true)
  /\ (forall counter,
        mangledName = mangledNameFor defaultPrefix counter ->
        11 <= valueLen).
Proof.
  unfold shouldMangle, mangleCost, inlineCost, declarationCost, referenceCost.
  intros H. apply Nat.ltb_lt in H.
  assert (H1 : 5 + length mangledName + 1 < valueLen) by nia.
  split; [exact H1|]. split; [nia|]. split.
  - intros u' Hu. apply Nat.ltb_lt. nia.
  - intros counter ->. unfold mangledNameFor in H1.
    rewrite length_app in H1. pose proof (toString36_length counter).
    change (length defaultPrefix) with 3 in H1. lia.
Qed.

(** On [longValue], 27 code units long: mangled with three uses, not with
    two. *)
Lemma mangling_needs_a_long_value_used_twice_witness :
  shouldMangle "--_0" (length longValue) 3 = true
  /\ referenceCost "--_0" < length longValue
  /\ shouldMangle "--_0" (length longValue) 2 = false.
Proof.
  assert (H : shouldMangle "--_0" (length longValue) 3 = true)
    by (vm_compute; reflexivity).
  split; [exact H|].
  split; [|vm_compute; reflexivity].
  exact (proj1 (mangling_needs_a_long_value_used_twice "--_0"
                  (length longValue) 3 H)).
Defined.
